(** * FAQ injection for the article pages: a model of [scripts/inject-faqs.js]

    The script is a chain of regular-expression transforms over page text.
    The model keeps that shape: JavaScript strings are sequences of UTF-16
    code units, every regular expression of the script is a value of the
    type [regex] written after its source text, and one backtracking matcher
    gives all of them their meaning.  The classifier is modelled twice: as
    a function, and statement by statement on a heap of pattern objects.
    The batch is a function of an explicit file system.  The console
    output is left out. *)

From Stdlib Require Import String Ascii List NArith Bool Arith Lia.
Import ListNotations.
Local Open Scope string_scope.
Local Open Scope list_scope.

(** ** Strings *)

(** A code unit of a JavaScript string (0 .. 65535), and a JavaScript
    string: a list of code units.  The two names are abbreviations, so that
    a string is a [list N] for every lemma of the library. *)
Abbreviation code := N (only parsing).
Abbreviation str := (list N) (only parsing).

(** A literal: each character of an ASCII literal is its own code unit. *)
Definition lit (s : string) : str :=
  map N_of_ascii (list_ascii_of_string s).

(** A literal in which an apostrophe stands for the double quote character
    (code unit 34), so that markup such as [<section class="faq-section">]
    is written [q "<section class='faq-section'>"].  None of the script's
    own literals holds an apostrophe. *)
Definition q (s : string) : str :=
  map (fun a => let c := N_of_ascii a in if N.eqb c 39 then 34%N else c)
      (list_ascii_of_string s).

Local Open Scope N_scope.

Definition inRange (lo hi c : code) : bool := (lo <=? c) && (c <=? hi).

(** WhiteSpace and LineTerminator of ECMAScript: what [\s] matches and
    what [trim] removes. *)
Definition isLineTerminator (c : code) : bool :=
  (c =? 10) || (c =? 13) || (c =? 8232) || (c =? 8233).

Definition isWhiteSpace (c : code) : bool :=
  inRange 9 13 c || (c =? 32) || (c =? 160) || (c =? 5760) ||
  inRange 8192 8202 c || (c =? 8232) || (c =? 8233) || (c =? 8239) ||
  (c =? 8287) || (c =? 12288) || (c =? 65279).

(** [\w]: ASCII letters, digits and the underscore. *)
Definition isWordChar (c : code) : bool :=
  inRange 97 122 c || inRange 65 90 c || inRange 48 57 c || (c =? 95).

(** One code unit of [String.prototype.toLowerCase].  The mapping is the
    Unicode one on Basic Latin and Latin-1 Supplement; code units above
    U+00FF are left as they are, so that [toLowerCase] is the script's on
    texts of U+0000..U+00FF and of code units without a lower-case form,
    and is not on others (the script turns the Kelvin sign U+212A into k).
    What depends on the lower-casing of such a text is stated for every
    lower-casing: see [headingToQuestionWith]. *)
Definition lowerUnit (c : code) : code :=
  if inRange 65 90 c then c + 32
  else if inRange 192 222 c && negb (c =? 215) then c + 32
  else c.

Definition toLowerCase (s : str) : str := map lowerUnit s.

(** Canonicalize of a regular expression with the [i] flag and without the
    [u] flag.  A code unit above U+007F never canonicalizes to an ASCII one,
    and every letter of the script's patterns is ASCII, so only the ASCII
    part of the mapping decides a comparison. *)
Definition canonicalize (c : code) : code :=
  if inRange 97 122 c then c - 32 else c.

Local Close Scope N_scope.

Fixpoint trimStart (s : str) : str :=
  match s with
  | c :: s' => if isWhiteSpace c then trimStart s' else s
  | [] => []
  end.

Definition trimEnd (s : str) : str := rev (trimStart (rev s)).

(** [String.prototype.trim]. *)
Definition trim (s : str) : str := trimEnd (trimStart s).

Fixpoint str_eqb (a b : str) : bool :=
  match a, b with
  | [], [] => true
  | x :: a', y :: b' => N.eqb x y && str_eqb a' b'
  | _, _ => false
  end.

(** [s.startsWith(w)]. *)
Fixpoint startsWith (s w : str) {struct w} : bool :=
  match w, s with
  | [], _ => true
  | x :: w', y :: s' => N.eqb x y && startsWith s' w'
  | _ :: _, [] => false
  end.

(** [s.endsWith(w)]. *)
Definition endsWith (s w : str) : bool := startsWith (rev s) (rev w).

(** ** Regular expressions *)

(** The fragment of the pattern language the script uses.  Every quantifier
    of the script's patterns applies to a single character class, which
    [Rep] records together with its greediness. *)
Inductive regex : Type :=
| Lit (w : str)                           (* a run of pattern characters *)
| Cls (p : code -> bool)                  (* a class: [[^>]], [\s], [.] *)
| Seq (a b : regex)
| Alt (a b : regex)
| Rep (greedy : bool) (p : code -> bool)  (* [class*] and [class*?] *)
| Opt (a : regex)                         (* [a?] *)
| Grp (n : nat) (a : regex)               (* the n-th capture group *)
| Bol                                     (* [^] *)
| Eol                                     (* [$], no [m] flag *)
| Wb                                      (* [\b] *)
| Ahead (a : regex).                      (* [(?=a)] *)

Declare Scope regex_scope.
Delimit Scope regex_scope with re.
Bind Scope regex_scope with regex.
Infix ";;" := Seq (at level 61, right associativity) : regex_scope.
Infix "<|>" := Alt (at level 62, right associativity) : regex_scope.

(** [class+] *)
Definition Plus (greedy : bool) (p : code -> bool) : regex :=
  Seq (Cls p) (Rep greedy p).

(** A position of the matcher inside its input: the index, the code unit
    before it (for [\b]), the input from there on, and the groups captured
    so far. *)
Record mstate : Type := MState {
  pos : nat;
  prev : option code;
  rest : str;
  caps : list (nat * str)
}.

Definition unitEq (ic : bool) (x y : code) : bool :=
  if ic then N.eqb (canonicalize x) (canonicalize y) else N.eqb x y.

(** The pattern characters [w] one after the other. *)
Fixpoint matchLit (ic : bool) (w : str) (n : nat) (pv : option code) (s : str)
    (cs : list (nat * str)) : list mstate :=
  match w with
  | [] => [MState n pv s cs]
  | x :: w' =>
      match s with
      | c :: s' => if unitEq ic x c then matchLit ic w' (S n) (Some c) s' cs else []
      | [] => []
      end
  end.

(** The positions a quantified class can stop at, in the order the
    backtracking matcher tries them: longest first when greedy, shortest
    first when lazy. *)
Fixpoint matchRep (greedy : bool) (p : code -> bool) (n : nat) (pv : option code)
    (s : str) (cs : list (nat * str)) : list mstate :=
  let here := MState n pv s cs in
  match s with
  | c :: s' =>
      if p c then
        let more := matchRep greedy p (S n) (Some c) s' cs in
        if greedy then more ++ [here] else here :: more
      else [here]
  | [] => [here]
  end.

Definition isWordAt (o : option code) : bool :=
  match o with Some c => isWordChar c | None => false end.

(** [rmatch ic r st]: every way [r] matches from [st], as the list of end
    positions in the matcher's order of preference.  Its head is the match
    a backtracking matcher returns; the tail is what it would fall back to. *)
Fixpoint rmatch (ic : bool) (r : regex) (st : mstate) : list mstate :=
  match r with
  | Lit w => matchLit ic w (pos st) (prev st) (rest st) (caps st)
  | Cls p =>
      match rest st with
      | c :: s' => if p c then [MState (S (pos st)) (Some c) s' (caps st)] else []
      | [] => []
      end
  | Seq a b => flat_map (rmatch ic b) (rmatch ic a st)
  | Alt a b => rmatch ic a st ++ rmatch ic b st
  | Rep greedy p => matchRep greedy p (pos st) (prev st) (rest st) (caps st)
  | Opt a => rmatch ic a st ++ [st]
  | Grp n a =>
      map (fun e => MState (pos e) (prev e) (rest e)
                      ((n, firstn (pos e - pos st) (rest st)) :: caps e))
          (rmatch ic a st)
  | Bol => match pos st with O => [st] | S _ => [] end
  | Eol => match rest st with [] => [st] | _ :: _ => [] end
  | Wb => if xorb (isWordAt (prev st)) (isWordAt (hd_error (rest st)))
          then [st] else []
  | Ahead a =>
      match rmatch ic a st with
      | [] => []
      | e :: _ => [MState (pos st) (prev st) (rest st) (caps e)]
      end
  end.

(** A match: where it starts, and the matcher's state where it ends. *)
Record found : Type := Found {
  index : nat;
  final : mstate
}.

(** The match at one position, if any. *)
Definition matchAt (ic : bool) (r : regex) (n : nat) (pv : option code)
    (s : str) : option mstate :=
  hd_error (rmatch ic r (MState n pv s [])).

(** The leftmost match at or after a position. *)
Fixpoint searchFrom (ic : bool) (r : regex) (n : nat) (pv : option code)
    (s : str) : option found :=
  match matchAt ic r n pv s with
  | Some e => Some (Found n e)
  | None =>
      match s with
      | c :: s' => searchFrom ic r (S n) (Some c) s'
      | [] => None
      end
  end.

(** [s.match(r)] for a pattern without the [g] flag. *)
Definition regexMatch (ic : bool) (r : regex) (s : str) : option found :=
  searchFrom ic r 0 None s.

(** [r.test(s)] for a pattern without the [g] flag. *)
Definition test (ic : bool) (r : regex) (s : str) : bool :=
  match regexMatch ic r s with Some _ => true | None => false end.

(** The text of capture group [n] of a match; the empty string stands for
    a group that did not take part. *)
Fixpoint lookupCap (n : nat) (cs : list (nat * str)) : str :=
  match cs with
  | (k, v) :: cs' => if Nat.eqb k n then v else lookupCap n cs'
  | [] => []
  end.

Definition group (n : nat) (m : found) : str := lookupCap n (caps (final m)).

(** [s.replace(r, repl)] for a pattern without the [g] flag and a
    replacement text free of [$]: the leftmost match is replaced. *)
Definition replaceFirst (ic : bool) (r : regex) (repl : str) (s : str) : str :=
  match regexMatch ic r s with
  | Some m => firstn (index m) s ++ repl ++ rest (final m)
  | None => s
  end.

(** [s.replace(r, repl)] for a pattern with the [g] flag and a replacement
    text free of [$].  The input is walked once; [skip] counts the code
    units of the current match still to be dropped.  After an empty match
    the walk moves on by one code unit, as the [lastIndex] rule says. *)
Fixpoint replaceAllFrom (ic : bool) (r : regex) (repl : str) (skip : nat)
    (n : nat) (pv : option code) (s : str) : str :=
  match skip with
  | S k =>
      match s with
      | c :: s' => replaceAllFrom ic r repl k (S n) (Some c) s'
      | [] => []
      end
  | O =>
      match matchAt ic r n pv s with
      | Some e =>
          match s with
          | c :: s' =>
              match pos e - n with
              | O => repl ++ c :: replaceAllFrom ic r repl 0 (S n) (Some c) s'
              | S k => repl ++ replaceAllFrom ic r repl k (S n) (Some c) s'
              end
          | [] => repl
          end
      | None =>
          match s with
          | c :: s' => c :: replaceAllFrom ic r repl 0 (S n) (Some c) s'
          | [] => []
          end
      end
  end.

Definition replaceAll (ic : bool) (r : regex) (repl : str) (s : str) : str :=
  replaceAllFrom ic r repl 0 0 None s.

(** The successive results of [r.exec(s)] for a pattern with the [g] flag,
    as a [while ((match = r.exec(s)) !== null)] loop sees them.  The walk is
    the one of [replaceAllFrom].  The loop of the script runs over a pattern
    that never matches the empty string; for one that does, the loop of the
    source would not end, and the walk moves on by one code unit. *)
Fixpoint execAllFrom (ic : bool) (r : regex) (skip : nat)
    (n : nat) (pv : option code) (s : str) : list found :=
  match skip with
  | S k =>
      match s with
      | c :: s' => execAllFrom ic r k (S n) (Some c) s'
      | [] => []
      end
  | O =>
      match matchAt ic r n pv s with
      | Some e =>
          match s with
          | c :: s' => Found n e :: execAllFrom ic r (pos e - n - 1) (S n) (Some c) s'
          | [] => [Found n e]
          end
      | None =>
          match s with
          | c :: s' => execAllFrom ic r 0 (S n) (Some c) s'
          | [] => []
          end
      end
  end.

Definition execAll (ic : bool) (r : regex) (s : str) : list found :=
  execAllFrom ic r 0 0 None s.

(** ** The script *)

Definition nl : str := [10%N].

Definition anyUnit (c : code) : bool := true.                 (* [[\s\S]] *)
Definition notGt (c : code) : bool := negb (N.eqb c 62).       (* [[^>]] *)
Definition isDot (c : code) : bool := negb (isLineTerminator c).  (* [.] *)

(** The class of the subtitle pattern: a colon, an en dash (U+2013) or an
    em dash (U+2014). *)
Definition isSeparator (c : code) : bool :=
  N.eqb c 58 || N.eqb c 8211 || N.eqb c 8212.

(** [w1|w2|...|wn], each a run of pattern characters. *)
Fixpoint oneOf (ws : list string) : regex :=
  match ws with
  | [] => Cls (fun _ => false)
  | [w] => Lit (lit w)
  | w :: ws' => Alt (Lit (lit w)) (oneOf ws')
  end.

Local Open Scope regex_scope.

(** [/<[^>]+>/g] *)
Definition re_tag : regex :=
  Lit (lit "<") ;; Plus true notGt ;; Lit (lit ">").

(** [function stripTags(html)] *)
Definition stripTags (html : str) : str :=
  trim (replaceAll false re_tag [] html).

(** The five patterns of [escapeJsonString], each with the [g] flag: a
    backslash, a double quote, [\n], [\r] and [\t]. *)
Definition re_backslash : regex := Lit [92%N].
Definition re_doubleQuote : regex := Lit [34%N].
Definition re_lineFeed : regex := Lit [10%N].
Definition re_carriageReturn : regex := Lit [13%N].
Definition re_tabulator : regex := Lit [9%N].

(** [function escapeJsonString(str)]: five replacements, one after the
    other.  Nothing in the script calls it. *)
Definition escapeJsonString (text : str) : str :=
  replaceAll false re_tabulator (lit "\t")
    (replaceAll false re_carriageReturn (lit "\r")
       (replaceAll false re_lineFeed (lit "\n")
          (replaceAll false re_doubleQuote (q "\'")
             (replaceAll false re_backslash (lit "\\") text)))).

(** [/<h2[^>]*>([\s\S]*?)<\/h2>([\s\S]*?)(?=<h2|<\/article>|<section class="references|<div class="cta-box|$)/gi] *)
Definition h2Regex : regex :=
  Lit (lit "<h2") ;; Rep true notGt ;; Lit (lit ">") ;;
  Grp 1 (Rep false anyUnit) ;; Lit (lit "</h2>") ;;
  Grp 2 (Rep false anyUnit) ;;
  Ahead (Lit (lit "<h2") <|> Lit (lit "</article>") <|>
         Lit (q "<section class='references") <|>
         Lit (q "<div class='cta-box") <|> Eol).

(** [/references|bibliography|sources|citations/i] *)
Definition re_references : regex :=
  oneOf ["references"; "bibliography"; "sources"; "citations"].

(** [/frequently asked|faq/i] *)
Definition re_faqHeading : regex :=
  oneOf ["frequently asked"; "faq"].

(** [/<p[^>]*>([\s\S]*?)<\/p>/] *)
Definition re_paragraph : regex :=
  Lit (lit "<p") ;; Rep true notGt ;; Lit (lit ">") ;;
  Grp 1 (Rep false anyUnit) ;; Lit (lit "</p>").

Module Sec.
(** A section of the article: [{ heading, answer }]. *)
Record t : Type := mk { heading : str; answer : str }.
End Sec.

(** The body of the [while] loop of [extractH2Sections], for one match of
    [h2Regex]: [sections] is the array before, the result the array after. *)
Definition sectionStep (sections : list Sec.t) (m : found) : list Sec.t :=
  let heading := trim (stripTags (group 1 m)) in
  let content := group 2 m in
  if test true re_references heading then sections
  else if test true re_faqHeading heading then sections
  else
    match regexMatch false re_paragraph content with
    | Some pMatch =>
        let answer := trim (stripTags (group 1 pMatch)) in
        if Nat.ltb 30 (length answer) then sections ++ [Sec.mk heading answer]
        else sections
    | None => sections
    end.

(** [function extractH2Sections(articleHtml)] *)
Definition extractH2Sections (articleHtml : str) : list Sec.t :=
  fold_left sectionStep (execAll true h2Regex articleHtml) [].

(** [/^(the|an?)\s+/i] *)
Definition re_leadingArticle : regex :=
  Bol ;; Grp 1 (Lit (lit "the") <|> Lit (lit "a") ;; Opt (Lit (lit "n"))) ;;
  Plus true isWhiteSpace.

(** [/\s*[:–—]\s*.*$/] *)
Definition re_subtitle : regex :=
  Rep true isWhiteSpace ;; Cls isSeparator ;; Rep true isWhiteSpace ;;
  Rep true isDot ;; Eol.

(** The words of the question-word rule. *)
Definition questionWords : list string :=
  ["how"; "what"; "why"; "when"; "where"; "which"; "does"; "is"; "can";
   "should"; "do"].

(** [/^(how|what|why|when|where|which|does|is|can|should|do)\s/i] *)
Definition re_questionWord : regex :=
  Bol ;; Grp 1 (oneOf questionWords) ;; Cls isWhiteSpace.

(** [/\bvs\.?\b|versus|compared/i] *)
Definition re_comparison : regex :=
  Wb ;; Lit (lit "vs") ;; Opt (Lit (lit ".")) ;; Wb <|>
  Lit (lit "versus") <|> Lit (lit "compared").

(** [/\b(effect|impact|influence|affect|interact|deplet|resynthes|recover|adapt|respond|contribut|work)\b/i] *)
Definition re_action : regex :=
  Wb ;;
  Grp 1 (oneOf ["effect"; "impact"; "influence"; "affect"; "interact";
                "deplet"; "resynthes"; "recover"; "adapt"; "respond";
                "contribut"; "work"]) ;;
  Wb.

(** [/\b(benefits|advantages|risks|dangers|side effects|concerns|differences|types|forms|factors|contributions|strategies|recommendations|guidelines|considerations)\b/i] *)
Definition re_plural : regex :=
  Wb ;;
  Grp 1 (oneOf ["benefits"; "advantages"; "risks"; "dangers"; "side effects";
                "concerns"; "differences"; "types"; "forms"; "factors";
                "contributions"; "strategies"; "recommendations";
                "guidelines"; "considerations"]) ;;
  Wb.

(** [/\band\b/i] *)
Definition re_and : regex := Wb ;; Lit (lit "and") ;; Wb.

(** The words that keep the relationship rule from firing. *)
Definition dosingOnlyWords : list string := ["dosing"; "dose"; "protocol"].

(** [/dosing|dose|protocol/i] *)
Definition re_dosingOnly : regex := oneOf dosingOnlyWords.

(** [/dosing|dose|protocol|timing|loading|cycle|schedul/i] *)
Definition re_dosing : regex :=
  oneOf ["dosing"; "dose"; "protocol"; "timing"; "loading"; "cycle"; "schedul"].

(** [/safe|kidney|liver|hair|blood|heart|health/i] *)
Definition re_safety : regex :=
  oneOf ["safe"; "kidney"; "liver"; "hair"; "blood"; "heart"; "health"].

(** The cleaned form of a heading: the leading article and the subtitle
    are removed. *)
Definition cleanedForm (heading : str) : str :=
  replaceFirst false re_subtitle []
    (replaceFirst true re_leadingArticle [] heading).

(** [function headingToQuestion(heading, category)] *)
Definition headingToQuestion (heading category : str) : str :=
  let h := trim (toLowerCase heading) in
  if endsWith h (lit "?") then heading
  else
    let cleaned := cleanedForm heading in
    let lc := toLowerCase cleaned in
    if test true re_questionWord h then heading ++ lit "?"
    else if test true re_comparison h then
      lit "How does " ++ lc ++ lit " compare?"
    else if test true re_action h then
      lit "How does " ++ lc ++ lit " work?"
    else if test true re_plural h then
      lit "What are the " ++ lc ++ lit "?"
    else if test true re_and h && negb (test true re_dosingOnly h) then
      lit "What is the relationship between " ++ lc ++ lit "?"
    else if test true re_dosing h then
      lit "What is the recommended " ++ lc ++ lit "?"
    else if test true re_safety h then
      lit "Is " ++ lc ++ lit " safe?"
    else
      lit "What is the " ++ lc ++ lit "?".

(** *** The classifier with its pattern objects

    A regular expression literal makes a new pattern object each time the
    evaluation comes to it.  A pattern object carries [lastIndex], which
    [exec] and [test] read and write when the pattern has the [g] flag: it
    is the one piece of state that a call of the classifier could share
    with another call.  The heap holds the pattern objects made so far,
    oldest first, and a pattern object is named by its place in the heap. *)
Module RegExp.
Record t : Type := mk {
  source : regex;
  ignoreCase : bool;
  global : bool;
  lastIndex : nat
}.
End RegExp.

Definition heap : Type := list RegExp.t.

(** A computation that reads and writes the heap. *)
Definition js (A : Type) : Type := heap -> A * heap.

Definition ret {A : Type} (a : A) : js A := fun hp => (a, hp).

Definition bind {A B : Type} (m : js A) (k : A -> js B) : js B :=
  fun hp => let (a, hp') := m hp in k a hp'.

Notation "'let*' x ':=' m 'in' k" := (bind m (fun x => k))
  (at level 10, x name, m at level 100, k at level 200).

(** The evaluation of a literal [/r/] with its flags. *)
Definition regexLiteral (r : regex) (ic g : bool) : js nat :=
  fun hp => (length hp, hp ++ [RegExp.mk r ic g 0]).

Definition setLastIndex (o k : nat) (hp : heap) : heap :=
  firstn o hp ++
  match skipn o hp with
  | R :: more =>
      RegExp.mk (RegExp.source R) (RegExp.ignoreCase R) (RegExp.global R) k :: more
  | [] => []
  end.

(** The code unit before position [k] of [s]. *)
Definition unitBefore (k : nat) (s : str) : option code :=
  match k with
  | O => None
  | S k' => nth_error s k'
  end.

(** RegExpBuiltinExec, [o.exec(s)]: the search starts at [lastIndex] when
    the pattern has the [g] flag and at 0 when it has not; with the [g]
    flag [lastIndex] becomes the end of the match, or 0 when there is
    none, and without it [lastIndex] stays as it is. *)
Definition regexExec (o : nat) (s : str) : js (option found) :=
  fun hp =>
    match nth_error hp o with
    | None => (None, hp)
    | Some R =>
        let start := if RegExp.global R then RegExp.lastIndex R else 0 in
        let result :=
          if Nat.ltb (length s) start then None
          else searchFrom (RegExp.ignoreCase R) (RegExp.source R) start
                          (unitBefore start s) (skipn start s) in
        if RegExp.global R then
          (result,
           setLastIndex o (match result with
                           | Some m => pos (final m)
                           | None => 0
                           end) hp)
        else (result, hp)
    end.

(** [o.test(s)] *)
Definition regexTest (o : nat) (s : str) : js bool :=
  let* m := regexExec o s in
  ret (match m with Some _ => true | None => false end).

(** [s.replace(o, repl)] for a replacement text free of [$]: without the
    [g] flag one [exec] and its match replaced; with the [g] flag every
    match replaced, and [lastIndex] 0 afterwards. *)
Definition regexReplace (o : nat) (repl s : str) : js str :=
  fun hp =>
    match nth_error hp o with
    | None => (s, hp)
    | Some R =>
        if RegExp.global R then
          (replaceAll (RegExp.ignoreCase R) (RegExp.source R) repl s,
           setLastIndex o 0 hp)
        else
          let (m, hp') := regexExec o s hp in
          (match m with
           | Some m => firstn (index m) s ++ repl ++ rest (final m)
           | None => s
           end, hp')
    end.

(** [function headingToQuestion(heading, category)], statement by
    statement, each literal in the place where the evaluation comes to
    it. *)
Definition headingToQuestionOnHeap (heading category : str) : js str :=
  let h := trim (toLowerCase heading) in
  if endsWith h (lit "?") then ret heading
  else
    let* leadingArticle := regexLiteral re_leadingArticle true false in
    let* withoutArticle := regexReplace leadingArticle [] heading in
    let* subtitle := regexLiteral re_subtitle false false in
    let* cleaned := regexReplace subtitle [] withoutArticle in
    let lc := toLowerCase cleaned in
    let* questionWord := regexLiteral re_questionWord true false in
    let* isQuestion := regexTest questionWord h in
    if isQuestion then ret (heading ++ lit "?")
    else
      let* comparison := regexLiteral re_comparison true false in
      let* isComparison := regexTest comparison h in
      if isComparison then ret (lit "How does " ++ lc ++ lit " compare?")
      else
        let* action := regexLiteral re_action true false in
        let* isAction := regexTest action h in
        if isAction then ret (lit "How does " ++ lc ++ lit " work?")
        else
          let* plural := regexLiteral re_plural true false in
          let* isPlural := regexTest plural h in
          if isPlural then ret (lit "What are the " ++ lc ++ lit "?")
          else
            let* conjunction := regexLiteral re_and true false in
            let* hasAnd := regexTest conjunction h in
            let* isRelation :=
              if hasAnd then
                let* dosingOnly := regexLiteral re_dosingOnly true false in
                let* hasDosing := regexTest dosingOnly h in
                ret (negb hasDosing)
              else ret false in
            if isRelation then
              ret (lit "What is the relationship between " ++ lc ++ lit "?")
            else
              let* dosing := regexLiteral re_dosing true false in
              let* isDosing := regexTest dosing h in
              if isDosing then
                ret (lit "What is the recommended " ++ lc ++ lit "?")
              else
                let* safety := regexLiteral re_safety true false in
                let* isSafety := regexTest safety h in
                if isSafety then ret (lit "Is " ++ lc ++ lit " safe?")
                else ret (lit "What is the " ++ lc ++ lit "?").

Module QA.
(** A question and its answer: [{ question, answer }]. *)
Record t : Type := mk { question : str; answer : str }.
End QA.

(** [function buildFaqHtml(qaPairs)] *)
Definition faqItem (qa : QA.t) : str :=
  nl ++ q "        <div class='faq-item'>" ++
  nl ++ lit "          <h3>" ++ QA.question qa ++ lit "</h3>" ++
  nl ++ lit "          <p>" ++ QA.answer qa ++ lit "</p>" ++
  nl ++ lit "        </div>".

Definition buildFaqHtml (qaPairs : list QA.t) : str :=
  let items := concat (map faqItem qaPairs) in
  nl ++ q "      <section class='faq-section'>" ++
  nl ++ lit "        <h2>Frequently Asked Questions</h2>" ++
  nl ++ lit "        " ++ items ++
  nl ++ lit "      </section>".

(** *** [JSON.stringify(value, null, 2)] *)

(** The values the script serializes: strings, arrays and objects. *)
#[local] Unset Elimination Schemes.
Inductive json : Type :=
| JStr (s : str)
| JArr (vs : list json)
| JObj (kvs : list (str * json)).
#[local] Set Elimination Schemes.

Definition hexDigit (n : N) : code :=
  if N.ltb n 10 then (48 + n)%N else (87 + n)%N.

(** [\uXXXX], four lower-case hexadecimal digits. *)
Definition unicodeEscape (c : code) : str :=
  lit "\u" ++ [hexDigit (N.modulo (N.div c 4096) 16);
               hexDigit (N.modulo (N.div c 256) 16);
               hexDigit (N.modulo (N.div c 16) 16);
               hexDigit (N.modulo c 16)].

Definition isHighSurrogate (c : code) : bool := inRange 55296%N 56319%N c.
Definition isLowSurrogate (c : code) : bool := inRange 56320%N 57343%N c.

(** QuoteJSONString without the enclosing quotes: the two-character
    escapes, [\u00XX] for the other control characters, [\uXXXX] for a
    surrogate that has no partner. *)
Fixpoint quoteBody (s : str) : str :=
  match s with
  | [] => []
  | c :: s' =>
      if N.eqb c 8 then lit "\b" ++ quoteBody s'
      else if N.eqb c 9 then lit "\t" ++ quoteBody s'
      else if N.eqb c 10 then lit "\n" ++ quoteBody s'
      else if N.eqb c 12 then lit "\f" ++ quoteBody s'
      else if N.eqb c 13 then lit "\r" ++ quoteBody s'
      else if N.eqb c 34 then q "\'" ++ quoteBody s'
      else if N.eqb c 92 then lit "\\" ++ quoteBody s'
      else if N.ltb c 32 then unicodeEscape c ++ quoteBody s'
      else if isHighSurrogate c then
        match s' with
        | d :: s'' =>
            if isLowSurrogate d then c :: d :: quoteBody s''
            else unicodeEscape c ++ quoteBody s'
        | [] => unicodeEscape c
        end
      else if isLowSurrogate c then unicodeEscape c ++ quoteBody s'
      else c :: quoteBody s'
  end.

Definition quoteJSONString (s : str) : str := q "'" ++ quoteBody s ++ q "'".

(** [xs.join(sep)] *)
Fixpoint join (sep : str) (xs : list str) : str :=
  match xs with
  | [] => []
  | [x] => x
  | x :: xs' => x ++ sep ++ join sep xs'
  end.

(** SerializeJSONProperty with a gap of two spaces; [indent] is the current
    indentation. *)
Fixpoint stringify (indent : str) (v : json) : str :=
  let stepback := indent in
  let indent := indent ++ lit "  " in
  match v with
  | JStr s => quoteJSONString s
  | JArr [] => lit "[]"
  | JArr vs =>
      lit "[" ++ nl ++ indent ++
      join (lit "," ++ nl ++ indent) (map (stringify indent) vs) ++
      nl ++ stepback ++ lit "]"
  | JObj [] => lit "{}"
  | JObj kvs =>
      lit "{" ++ nl ++ indent ++
      join (lit "," ++ nl ++ indent)
           (map (fun kv => match kv with
                           | (k, x) => quoteJSONString k ++ lit ": " ++ stringify indent x
                           end) kvs) ++
      nl ++ stepback ++ lit "}"
  end.

(** [function buildFaqSchema(qaPairs, url)] *)
Definition buildFaqSchema (qaPairs : list QA.t) (url : str) : str :=
  let mainEntity :=
    map (fun qa =>
           JObj [(lit "@type", JStr (lit "Question"));
                 (lit "name", JStr (QA.question qa));
                 (lit "acceptedAnswer",
                  JObj [(lit "@type", JStr (lit "Answer"));
                        (lit "text", JStr (QA.answer qa))])])
        qaPairs in
  stringify []
    (JObj [(lit "@context", JStr (lit "https://schema.org"));
           (lit "@type", JStr (lit "FAQPage"));
           (lit "mainEntity", JArr mainEntity)]).

(** *** [String.prototype.replace] with a string pattern *)

(** The text before and after the first occurrence of [w] in [s]. *)
Fixpoint splitOn (w s : str) : option (str * str) :=
  if startsWith s w then Some ([], skipn (length w) s)
  else
    match s with
    | c :: s' =>
        match splitOn w s' with
        | Some (a, b) => Some (c :: a, b)
        | None => None
        end
    | [] => None
    end.

(** GetSubstitution for a match without capture groups: [$$] is a dollar
    sign, [$&] the matched text, [$`] the text before the match, [$'] the
    text after it; every other [$] stands for itself. *)
Fixpoint getSubstitution (matched before after template : str) : str :=
  match template with
  | [] => []
  | c :: t' =>
      if N.eqb c 36 then
        match t' with
        | d :: t'' =>
            if N.eqb d 36 then 36%N :: getSubstitution matched before after t''
            else if N.eqb d 38 then matched ++ getSubstitution matched before after t''
            else if N.eqb d 96 then before ++ getSubstitution matched before after t''
            else if N.eqb d 39 then after ++ getSubstitution matched before after t''
            else c :: getSubstitution matched before after t'
        | [] => [c]
        end
      else c :: getSubstitution matched before after t'
  end.

(** [s.replace(pattern, replacement)], both strings: the first occurrence
    is replaced. *)
Definition replaceStr (pattern replacement s : str) : str :=
  match splitOn pattern s with
  | Some (a, b) => a ++ getSubstitution pattern a b replacement ++ b
  | None => s
  end.

(** [/\s*<section class="faq-section">[\s\S]*?<\/section>/g] *)
Definition re_faqSection : regex :=
  Rep true isWhiteSpace ;; Lit (q "<section class='faq-section'>") ;;
  Rep false anyUnit ;; Lit (lit "</section>").

(** [/\s*<script type="application\/ld\+json">\s*\{[\s\S]*?"@type":\s*"FAQPage"[\s\S]*?\}\s*<\/script>\n?/g] *)
Definition re_faqSchema : regex :=
  Rep true isWhiteSpace ;; Lit (q "<script type='application/ld+json'>") ;;
  Rep true isWhiteSpace ;; Lit (lit "{") ;;
  Rep false anyUnit ;; Lit (q "'@type':") ;; Rep true isWhiteSpace ;;
  Lit (q "'FAQPage'") ;;
  Rep false anyUnit ;; Lit (lit "}") ;; Rep true isWhiteSpace ;;
  Lit (lit "</script>") ;; Opt (Lit nl).

(** [function stripExistingFaq(html)] *)
Definition stripExistingFaq (html : str) : str :=
  let cleaned := replaceAll false re_faqSection [] html in
  let cleaned := replaceAll false re_faqSchema [] cleaned in
  cleaned.

(** [/<article[^>]*>([\s\S]*?)<\/article>/] *)
Definition re_article : regex :=
  Lit (lit "<article") ;; Rep true notGt ;; Lit (lit ">") ;;
  Grp 1 (Rep false anyUnit) ;; Lit (lit "</article>").

Module Out.
(** What [injectFaq] returns: [{ html, injected }]. *)
Record t : Type := mk { html : str; injected : bool }.
End Out.

(** The question and answer pairs of [injectFaq]: [sections.slice(0, 5)]
    mapped through the classifier. *)
Definition toQaPairs (sections : list Sec.t) (category : str) : list QA.t :=
  let topSections := firstn 5 sections in
  map (fun s => QA.mk (headingToQuestion (Sec.heading s) category) (Sec.answer s))
      topSections.

(** [function injectFaq(html, category, slug)].  The unused
    [schemaInsertPoint] of the source is left out. *)
Definition injectFaq (html category slug : str) : Out.t :=
  let html := stripExistingFaq html in
  match regexMatch false re_article html with
  | None => Out.mk html false
  | Some articleMatch =>
      let articleContent := group 1 articleMatch in
      let sections := extractH2Sections articleContent in
      if Nat.ltb (length sections) 3 then Out.mk html false
      else
        let qaPairs := toQaPairs sections category in
        let faqHtml := buildFaqHtml qaPairs in
        let url := lit "https://creatinepedia.com/" ++ category ++ lit "/" ++ slug in
        let faqSchema := buildFaqSchema qaPairs url in
        let newHtml :=
          replaceStr (lit "</article>")
                     (faqHtml ++ nl ++ lit "      </article>") html in
        let faqSchemaTag :=
          q "  <script type='application/ld+json'>" ++ nl ++ lit "  " ++
          faqSchema ++ nl ++ lit "  </script>" ++ nl in
        let newHtml :=
          replaceStr (lit "</head>") (faqSchemaTag ++ lit "</head>") newHtml in
        Out.mk newHtml true
  end.

(** *** The batch: [function run()] *)

(** The file system as the script sees it.  A directory is missing, listed,
    or fails to list; a path holds text, or its read throws; a write to a
    path may throw.  Files are named by directory and file name, which is
    what [path.join(ROOT_DIR, dir)] and [path.join(dirPath, file)] build. *)
Inductive dirEntry : Type :=
| NoDir
| Dir (names : list str)
| BadDir (message : str).

Inductive fileEntry : Type :=
| File (data : str)
| Unreadable (message : str).

Record FS : Type := mkFS {
  dirs : str -> dirEntry;
  files : str -> str -> fileEntry;
  writeError : str -> str -> option str
}.

(** The result of a call that may throw: a value, or the message of the
    exception. *)
Inductive result (A : Type) : Type :=
| Ok (a : A)
| Throw (message : str).
Arguments Ok {A} a.
Arguments Throw {A} message.

Definition existsSync (fs : FS) (dir : str) : bool :=
  match dirs fs dir with NoDir => false | _ => true end.

Definition readdirSync (fs : FS) (dir : str) : result (list str) :=
  match dirs fs dir with
  | Dir names => Ok names
  | BadDir message => Throw message
  | NoDir => Throw (lit "ENOENT: no such file or directory")
  end.

Definition readFileSync (fs : FS) (dir file : str) : result str :=
  match files fs dir file with
  | File data => Ok data
  | Unreadable message => Throw message
  end.

Definition writeFileSync (fs : FS) (dir file data : str) : result FS :=
  match writeError fs dir file with
  | Some message => Throw message
  | None =>
      Ok (mkFS (dirs fs)
               (fun d f => if str_eqb d dir && str_eqb f file then File data
                           else files fs d f)
               (writeError fs))
  end.

(** [const HTML_SOURCE_DIRS] *)
Definition HTML_SOURCE_DIRS : list str :=
  [lit "science"; lit "dosing"; lit "sports"; lit "safety";
   lit "comparisons"; lit "quality"].

(** The variables of [run] that outlive one file, with the disk and the
    paths [writeFileSync] was called on, oldest first. *)
Record runState : Type := mkRun {
  disk : FS;
  written : list (str * str);
  total : nat;
  skipped : nat;
  errors : list str
}.

(** How [run], or a part of it, ends: normally, or with an exception that
    nothing catches.  Either way the disk is what the writes so far made
    of it. *)
Inductive outcome (A : Type) : Type :=
| Finished (a : A) (st : runState)
| Uncaught (message : str) (st : runState).
Arguments Finished {A} a st.
Arguments Uncaught {A} message st.

(** The slug of a file: [file.replace('.html', '')]. *)
Definition slugOf (file : str) : str := replaceStr (lit ".html") [] file.

(** The body of the loop over the files of one directory; [count] is the
    directory's counter.  The read stands before the [try]; the transform
    and the write stand inside it. *)
Definition fileStep (dir file : str) (count : nat) (st : runState)
    : outcome nat :=
  match readFileSync (disk st) dir file with
  | Throw message => Uncaught message st
  | Ok html =>
      let slug := slugOf file in
      let r := injectFaq html dir slug in
      if Out.injected r then
        let written' := written st ++ [(dir, file)] in
        match writeFileSync (disk st) dir file (Out.html r) with
        | Ok disk' =>
            Finished (S count)
              (mkRun disk' written' (total st) (skipped st) (errors st))
        | Throw message =>
            Finished count
              (mkRun (disk st) written' (total st) (skipped st)
                     (errors st ++ [dir ++ lit "/" ++ file ++ lit ": " ++ message]))
        end
      else
        Finished count
          (mkRun (disk st) (written st) (total st) (S (skipped st)) (errors st))
  end.

(** [for (const file of files)] *)
Fixpoint fileLoop (dir : str) (fileNames : list str) (count : nat)
    (st : runState) : outcome nat :=
  match fileNames with
  | [] => Finished count st
  | file :: more =>
      match fileStep dir file count st with
      | Finished count' st' => fileLoop dir more count' st'
      | Uncaught message st' => Uncaught message st'
      end
  end.

(** The files of a directory that the script treats as article pages. *)
Definition isArticleFile (f : str) : bool :=
  endsWith f (lit ".html") && negb (str_eqb f (lit "index.html")).

(** The body of the loop over [HTML_SOURCE_DIRS]. *)
Definition dirStep (dir : str) (st : runState) : outcome unit :=
  if negb (existsSync (disk st) dir) then Finished tt st
  else
    match readdirSync (disk st) dir with
    | Throw message => Uncaught message st
    | Ok names =>
        let fileNames := filter isArticleFile names in
        match fileLoop dir fileNames 0 st with
        | Finished count st' =>
            Finished tt
              (mkRun (disk st') (written st') (total st' + count) (skipped st')
                     (errors st'))
        | Uncaught message st' => Uncaught message st'
        end
    end.

(** [for (const dir of HTML_SOURCE_DIRS)] *)
Fixpoint dirLoop (dirNames : list str) (st : runState) : outcome unit :=
  match dirNames with
  | [] => Finished tt st
  | dir :: more =>
      match dirStep dir st with
      | Finished _ st' => dirLoop more st'
      | Uncaught message st' => Uncaught message st'
      end
  end.

(** [function run()].  The console output is not modelled: the counters
    and the error list it prints are in the final state. *)
Definition run (fs : FS) : outcome unit :=
  dirLoop HTML_SOURCE_DIRS (mkRun fs [] 0 0 []).

Definition finalState {A : Type} (o : outcome A) : runState :=
  match o with Finished _ st => st | Uncaught _ st => st end.

(** * Vocabulary of the statements

    What the lemmas and theorems below say about the script is said with
    the definitions of this part: none of them is used by the model. *)

(** ** Positions and occurrences *)

(** The code unit before a position, after [consumed] was read from a
    position whose previous code unit was [pv]. *)
Definition lastUnit (pv : option code) (consumed : str) : option code :=
  fold_left (fun _ c => Some c) consumed pv.

(** [e] is [st] after [consumed] was read. *)
Definition reaches (st e : mstate) : Prop :=
  exists consumed,
    rest st = consumed ++ rest e /\
    pos e = pos st + length consumed /\
    prev e = lastUnit (prev st) consumed.

(** The pattern characters [w] stand at the head of [s]. *)
Fixpoint litAt (ic : bool) (w s : str) : bool :=
  match w, s with
  | [], _ => true
  | x :: w', c :: s' => unitEq ic x c && litAt ic w' s'
  | _ :: _, [] => false
  end.

(** Some suffix of [s], the empty one included, satisfies [P]. *)
Fixpoint anySuffix (P : str -> bool) (s : str) : bool :=
  P s || match s with _ :: s' => anySuffix P s' | [] => false end.

(** [t'] is what is left of [t] after some first part of it. *)
Definition suffix (t' t : str) : Prop := exists x, t = x ++ t'.

(** The text after the first occurrence of [w]. *)
Definition afterFirst (w s : str) : option str := option_map snd (splitOn w s).

(** How often [w] occurs in [s]. *)
Fixpoint countOcc (w s : str) : nat :=
  (if startsWith s w then 1 else 0) +
  match s with _ :: s' => countOcc w s' | [] => 0 end.

(** [w] occurs somewhere in [s], letters compared without regard to case. *)
Definition occursNoCase (w s : str) : Prop :=
  exists pre mid post,
    s = pre ++ mid ++ post /\ map canonicalize mid = map canonicalize w.

(** A word boundary lies between the code units [a] and [b]. *)
Definition boundary (a b : option code) : bool := xorb (isWordAt a) (isWordAt b).

(** [w] occurs in [s] as a word of its own, letters compared without regard
    to case: a word boundary lies before and after the occurrence. *)
Definition wordOccursNoCase (w s : str) : Prop :=
  exists pre mid post,
    s = pre ++ mid ++ post /\
    map canonicalize mid = map canonicalize w /\
    boundary (lastUnit None pre) (hd_error (mid ++ post)) = true /\
    boundary (lastUnit None (pre ++ mid)) (hd_error post) = true.

(** ** The extractor *)

(** The words of the two drop tests of [extractH2Sections]. *)
Definition dropWords : list string :=
  ["references"; "bibliography"; "sources"; "citations";
   "frequently asked"; "faq"].

(** The section [s] is what the loop body makes of the match [m]: the
    heading passes both drop tests, and the answer is the stripped first
    match of the paragraph pattern, longer than 30 code units. *)
Definition fromMatch (m : found) (s : Sec.t) : Prop :=
  Sec.heading s = trim (stripTags (group 1 m)) /\
  test true re_references (Sec.heading s) = false /\
  test true re_faqHeading (Sec.heading s) = false /\
  exists pMatch,
    regexMatch false re_paragraph (group 2 m) = Some pMatch /\
    Sec.answer s = trim (stripTags (group 1 pMatch)) /\
    30 < length (Sec.answer s).

(** The text of the first paragraph element of [content], said without the
    pattern: what stands between the first [>] after the first [<p] and the
    first [</p>] after that. *)
Definition firstParagraph (content : str) : option str :=
  match splitOn (lit "<p") content with
  | Some (_, opened) =>
      match splitOn (lit ">") opened with
      | Some (_, body) => option_map fst (splitOn (lit "</p>") body)
      | None => None
      end
  | None => None
  end.

(** A tag stands at the head of [s]: a [<], one code unit that is not [>],
    and a [>] somewhere after it. *)
Definition tagAt (s : str) : bool :=
  match s with
  | c0 :: c :: s' => N.eqb c0 60 && notGt c && existsb (N.eqb 62) s'
  | _ => false
  end.

(** No part of [s] matches the tag pattern of [stripTags]. *)
Definition tagFree (s : str) : Prop := test false re_tag s = false.

(** No tag is left in [s]: nowhere in it stands a [<] with a code unit
    other than [>] behind it and a [>] somewhere after that. *)
Definition noTagLeft (s : str) : Prop := anySuffix tagAt s = false.

(** [s] without its tags, said without the pattern: the text is read from
    left to right; where a tag stands, everything up to and with the next
    [>] is left out.  [inside] says that the reading is inside a tag. *)
Fixpoint dropTags (inside : bool) (s : str) : str :=
  match s with
  | [] => []
  | c :: s' =>
      if inside then
        if N.eqb c 62 then dropTags false s' else dropTags true s'
      else if tagAt s then dropTags true s'
      else c :: dropTags false s'
  end.

(** The text of a piece of markup: its tags left out, and trimmed. *)
Definition plainText (s : str) : str := trim (dropTags false s).

(** One of the six words of the drop tests occurs in [heading], letters
    compared without regard to case. *)
Definition isDropped (heading : str) : bool :=
  anySuffix (fun t => existsb (fun w => litAt true (lit w) t) dropWords) heading.

(** The sections that one match of [h2Regex] gives, said without the
    patterns of the loop body: none when the text of the heading holds a
    word of the drop tests; else the text of the heading with the text of
    the first paragraph, when there is one and its text is longer than 30
    code units. *)
Definition sectionOf (m : found) : list Sec.t :=
  let heading := plainText (group 1 m) in
  if isDropped heading then []
  else
    match firstParagraph (group 2 m) with
    | Some inner =>
        let answer := plainText inner in
        if Nat.ltb 30 (length answer) then [Sec.mk heading answer] else []
    | None => []
    end.

(** ** The classifier *)

(** The lower-cased, trimmed heading on which every rule is tested. *)
Definition tested (heading : str) : str := trim (toLowerCase heading).

(** [function headingToQuestion(heading, category)] once more, with the
    lower-casing as a parameter: [headingToQuestion] is
    [headingToQuestionWith toLowerCase].  The model's [toLowerCase] is
    [String.prototype.toLowerCase] on U+0000..U+00FF and leaves the code
    units above as they are, which the script's does not (it turns the
    Kelvin sign U+212A into k).  What is proved of [headingToQuestionWith]
    for every [lower] holds of the script whatever its lower-casing makes
    of a heading. *)
Definition headingToQuestionWith (lower : str -> str) (heading category : str)
    : str :=
  let h := trim (lower heading) in
  if endsWith h (lit "?") then heading
  else
    let cleaned := cleanedForm heading in
    let lc := lower cleaned in
    if test true re_questionWord h then heading ++ lit "?"
    else if test true re_comparison h then
      lit "How does " ++ lc ++ lit " compare?"
    else if test true re_action h then
      lit "How does " ++ lc ++ lit " work?"
    else if test true re_plural h then
      lit "What are the " ++ lc ++ lit "?"
    else if test true re_and h && negb (test true re_dosingOnly h) then
      lit "What is the relationship between " ++ lc ++ lit "?"
    else if test true re_dosing h then
      lit "What is the recommended " ++ lc ++ lit "?"
    else if test true re_safety h then
      lit "Is " ++ lc ++ lit " safe?"
    else
      lit "What is the " ++ lc ++ lit "?".

(** After lower-casing, a text ends in a question mark, white space at its
    end aside, exactly when it did before: lower-casing maps neither a
    question mark nor white space to anything else, and nothing else to
    them. *)
Definition keepsFinalQuestionMark (lower : str -> str) : Prop :=
  forall s, endsWith (trim (lower s)) (lit "?") = endsWith (trim s) (lit "?").

(** ** The synthesizer and the batch *)

(** The article body that [injectFaq] reads: group 1 of the first match of
    the article pattern. *)
Definition articleOf (html : str) : option str :=
  option_map (group 1) (regexMatch false re_article html).

(** What a page keeps through one step of the batch when the transform
    does not inject into it: its text, and no write to its path. *)
Definition kept (dir file data : str) (st : runState) : Prop :=
  files (disk st) dir file = File data /\ ~ In (dir, file) (written st).

(** A disk with one directory of the batch and the given pages in it. *)
Definition diskOf (dir : str) (pages : list (str * fileEntry))
    (readOnly : list str) : FS :=
  mkFS (fun d => if str_eqb d dir then Dir (map fst pages) else NoDir)
       (fun d f =>
          match find (fun p => str_eqb (fst p) f) pages with
          | Some p => snd p
          | None => Unreadable (lit "ENOENT: no such file or directory")
          end)
       (fun d f => if existsb (str_eqb f) readOnly
                   then Some (lit "EACCES: permission denied") else None).

(** ** The escaping helper *)

(** What [escapeJsonString] makes of one code unit. *)
Definition escapeUnit (c : code) : str :=
  if N.eqb c 92 then lit "\\"
  else if N.eqb c 34 then q "\'"
  else if N.eqb c 10 then lit "\n"
  else if N.eqb c 13 then lit "\r"
  else if N.eqb c 9 then lit "\t"
  else [c].

(** Reading the two-character escapes back: a backslash and the code unit
    after it stand for a line feed, a carriage return, a tabulator, or the
    code unit itself. *)
Fixpoint unescapeJson (s : str) : str :=
  match s with
  | c :: s' =>
      if N.eqb c 92 then
        match s' with
        | d :: s'' =>
            (if N.eqb d 110 then 10%N
             else if N.eqb d 114 then 13%N
             else if N.eqb d 116 then 9%N
             else d) :: unescapeJson s''
        | [] => [c]
        end
      else c :: unescapeJson s'
  | [] => []
  end.

(** A code unit on which [escapeJsonString] and [JSON.stringify] agree: no
    control character other than tabulator, line feed and carriage
    return, and no surrogate. *)
Definition plainForJson (c : code) : bool :=
  (N.leb 32 c || N.eqb c 9 || N.eqb c 10 || N.eqb c 13) &&
  negb (isHighSurrogate c || isLowSurrogate c).

(** One of the three control characters that [escapeJsonString] escapes. *)
Definition isEscapedControl (c : code) : bool :=
  N.eqb c 10 || N.eqb c 13 || N.eqb c 9.

(** ** Matches and what they capture *)

(** No state whose text is a later part of [s] has a match of [r]. *)
Definition deadOn (ic : bool) (r : regex) (s : str) : Prop :=
  forall st, suffix (rest st) s -> rmatch ic r st = [].

(** Every captured text is made of code units of [S]. *)
Definition capsWithin (S : str) (cs : list (nat * str)) : Prop :=
  forall k v, In (k, v) cs -> incl v S.

(** The texts before which the content of a section ends: the next
    heading, the end of the article, the references and the call-to-action
    box. *)
Definition sectionEnds : list str :=
  [lit "<h2"; lit "</article>"; q "<section class='references";
   q "<div class='cta-box"].

(** The content of a section ends at the head of [t]: one of the texts
    stands there, in either case, or [t] is empty. *)
Definition endsHere (t : str) : bool :=
  existsb (fun w => litAt true w t) sectionEnds ||
  match t with [] => true | _ :: _ => false end.

(** [t] up to the first place where the content of a section ends. *)
Fixpoint untilEnd (t : str) : str :=
  if endsHere t then []
  else match t with
       | c :: t' => c :: untilEnd t'
       | [] => []
       end.

(** ** The FAQ block and the structured data *)

(** The tag [<body>]. *)
Definition tag (body : str) : str := 60%N :: body ++ [62%N].

(** The fixed text of one item of the FAQ block: before the question,
    between question and answer, and after the answer. *)
Definition itemHead : str :=
  nl ++ q "        <div class='faq-item'>" ++ nl ++ lit "          <h3>".
Definition itemMiddle : str := lit "</h3>" ++ nl ++ lit "          <p>".
Definition itemTail : str := lit "</p>" ++ nl ++ lit "        </div>".

(** The fixed text of the block before its first item and after its last. *)
Definition blockHead : str :=
  nl ++ q "      <section class='faq-section'>" ++
  nl ++ lit "        <h2>Frequently Asked Questions</h2>" ++
  nl ++ lit "        ".
Definition blockTail : str := nl ++ lit "      </section>".

(** The strings of a value: the keys of its objects and its texts. *)
Fixpoint jsonTexts (v : json) : list str :=
  match v with
  | JStr s => [s]
  | JArr vs => flat_map jsonTexts vs
  | JObj kvs => flat_map (fun kv => fst kv :: jsonTexts (snd kv)) kvs
  end.

(** [s] with [block] put in front of the first occurrence of [w]. *)
Definition insertBefore (w block s : str) : str :=
  match splitOn w s with
  | Some (a, b) => a ++ block ++ w ++ b
  | None => s
  end.

(** ** The pages of the batch *)

(** The article pages of one directory, as [run] lists them. *)
Definition articlesIn (fs : FS) (dir : str) : list str :=
  match dirs fs dir with
  | Dir names => filter isArticleFile names
  | _ => []
  end.

(** The article pages of the batch, each with its directory, in the order
    in which [run] comes to them. *)
Definition articleFiles (fs : FS) : list (str * str) :=
  flat_map (fun dir => map (pair dir) (articlesIn fs dir)) HTML_SOURCE_DIRS.

(** What one round of a loop of [run] keeps, and how it moves the counters:
    [k] pages more are accounted for, each as injected, skipped or failed,
    and every call of [writeFileSync] is an injected or a failed page. *)
Definition accounts (k : nat) (count : nat) (st : runState)
    (count' : nat) (st' : runState) : Prop :=
  dirs (disk st') = dirs (disk st) /\
  total st' = total st /\
  count' + skipped st' + length (errors st') =
  count + skipped st + length (errors st) + k /\
  length (written st') + count + length (errors st) =
  length (written st) + count' + length (errors st').

(** The text of a path can be read. *)
Definition readable (fs : FS) (dir file : str) : Prop :=
  exists data, files fs dir file = File data.

(** The directory can be listed, or is not there. *)
Definition listable (fs : FS) (dir : str) : Prop :=
  match dirs fs dir with BadDir _ => False | _ => True end.

(** One disk after another: the same directories, and the same paths can
    be read. *)
Definition sameShape (fs fs' : FS) : Prop :=
  dirs fs' = dirs fs /\
  forall dir file, readable fs' dir file <-> readable fs dir file.

(** What [run] makes of a page it comes to: the text that [injectFaq]
    returns, when it injects and the write does not throw; the text as it
    was otherwise. *)
Definition processed (fs : FS) (dir file : str) : fileEntry :=
  match files fs dir file with
  | File data =>
      let r := injectFaq data dir (slugOf file) in
      match writeError fs dir file with
      | None => if Out.injected r then File (Out.html r) else File data
      | Some _ => File data
      end
  | Unreadable message => Unreadable message
  end.

(** The disk [fs'] is the disk [fs] with the pages of [done] processed. *)
Definition upTo (fs : FS) (done : list (str * str)) (fs' : FS) : Prop :=
  dirs fs' = dirs fs /\ writeError fs' = writeError fs /\
  forall dir file,
    (In (dir, file) done -> files fs' dir file = processed fs dir file) /\
    (~ In (dir, file) done -> files fs' dir file = files fs dir file).

(** ** Reading JSON *)

(** White space between the tokens of a JSON text. *)
Definition isJsonSpace (c : code) : bool :=
  N.eqb c 32 || N.eqb c 10 || N.eqb c 13 || N.eqb c 9.

Fixpoint skipSpace (s : str) : str :=
  match s with
  | c :: s' => if isJsonSpace c then skipSpace s' else s
  | [] => []
  end.

(** The value of a hexadecimal digit. *)
Definition hexValue (c : code) : option N :=
  if inRange 48 57 c then Some (c - 48)%N
  else if inRange 97 102 c then Some (c - 87)%N
  else if inRange 65 70 c then Some (c - 55)%N
  else None.

(** The code unit that a backslash and [d] stand for. *)
Definition simpleEscape (d : code) : option code :=
  if N.eqb d 34 then Some 34%N
  else if N.eqb d 92 then Some 92%N
  else if N.eqb d 47 then Some 47%N
  else if N.eqb d 98 then Some 8%N
  else if N.eqb d 102 then Some 12%N
  else if N.eqb d 110 then Some 10%N
  else if N.eqb d 114 then Some 13%N
  else if N.eqb d 116 then Some 9%N
  else None.

(** A JSON string from behind its opening quote: its text, and what
    follows its closing quote. *)
Fixpoint parseString (s : str) : option (str * str) :=
  match s with
  | [] => None
  | c :: s1 =>
      if N.eqb c 34 then Some ([], s1)
      else if N.eqb c 92 then
        match s1 with
        | [] => None
        | d :: s2 =>
            if N.eqb d 117 then
              match s2 with
              | h1 :: h2 :: h3 :: h4 :: s3 =>
                  match hexValue h1, hexValue h2, hexValue h3, hexValue h4,
                        parseString s3 with
                  | Some n1, Some n2, Some n3, Some n4, Some (t, r) =>
                      Some ((4096 * n1 + 256 * n2 + 16 * n3 + n4)%N :: t, r)
                  | _, _, _, _, _ => None
                  end
              | _ => None
              end
            else
              match simpleEscape d, parseString s2 with
              | Some x, Some (t, r) => Some (x :: t, r)
              | _, _ => None
              end
        end
      else if N.ltb c 32 then None
      else
        match parseString s1 with
        | Some (t, r) => Some (c :: t, r)
        | None => None
        end
  end.

(** A JSON value made of strings, arrays and objects, read from the head
    of a text: the value and what follows it.  [fuel] bounds the depth of
    the value and the length of its arrays and objects. *)
Fixpoint parseValue (fuel : nat) (s : str) {struct fuel} : option (json * str) :=
  match fuel with
  | O => None
  | S fuel' =>
      match skipSpace s with
      | [] => None
      | c :: s1 =>
          if N.eqb c 34 then
            match parseString s1 with
            | Some (t, r) => Some (JStr t, r)
            | None => None
            end
          else if N.eqb c 91 then
            match skipSpace s1 with
            | [] => None
            | d :: s2 =>
                if N.eqb d 93 then Some (JArr [], s2)
                else
                  match parseElements fuel' s1 with
                  | Some (vs, r) => Some (JArr vs, r)
                  | None => None
                  end
            end
          else if N.eqb c 123 then
            match skipSpace s1 with
            | [] => None
            | d :: s2 =>
                if N.eqb d 125 then Some (JObj [], s2)
                else
                  match parseMembers fuel' s1 with
                  | Some (kvs, r) => Some (JObj kvs, r)
                  | None => None
                  end
            end
          else None
      end
  end
with parseElements (fuel : nat) (s : str) {struct fuel}
    : option (list json * str) :=
  match fuel with
  | O => None
  | S fuel' =>
      match parseValue fuel' s with
      | Some (v, s1) =>
          match skipSpace s1 with
          | [] => None
          | d :: s2 =>
              if N.eqb d 44 then
                match parseElements fuel' s2 with
                | Some (vs, r) => Some (v :: vs, r)
                | None => None
                end
              else if N.eqb d 93 then Some ([v], s2)
              else None
          end
      | None => None
      end
  end
with parseMembers (fuel : nat) (s : str) {struct fuel}
    : option (list (str * json) * str) :=
  match fuel with
  | O => None
  | S fuel' =>
      match skipSpace s with
      | [] => None
      | c :: s1 =>
          if N.eqb c 34 then
            match parseString s1 with
            | Some (k, s2) =>
                match skipSpace s2 with
                | [] => None
                | d :: s3 =>
                    if N.eqb d 58 then
                      match parseValue fuel' s3 with
                      | Some (v, s4) =>
                          match skipSpace s4 with
                          | [] => None
                          | e :: s5 =>
                              if N.eqb e 44 then
                                match parseMembers fuel' s5 with
                                | Some (kvs, r) => Some ((k, v) :: kvs, r)
                                | None => None
                                end
                              else if N.eqb e 125 then Some ([(k, v)], s5)
                              else None
                          end
                      | None => None
                      end
                    else None
                end
            | None => None
            end
          else None
      end
  end.

(** [JSON.parse] on a text of strings, arrays and objects: the value, if
    the text is one value with white space around it. *)
Definition parseJson (s : str) : option json :=
  match parseValue (length s) s with
  | Some (v, r) => match skipSpace r with [] => Some v | _ :: _ => None end
  | None => None
  end.

(** The object that [buildFaqSchema] serializes. *)
Definition faqSchemaValue (qaPairs : list QA.t) : json :=
  JObj [(lit "@context", JStr (lit "https://schema.org"));
        (lit "@type", JStr (lit "FAQPage"));
        (lit "mainEntity",
         JArr (map (fun qa =>
                      JObj [(lit "@type", JStr (lit "Question"));
                            (lit "name", JStr (QA.question qa));
                            (lit "acceptedAnswer",
                             JObj [(lit "@type", JStr (lit "Answer"));
                                   (lit "text", JStr (QA.answer qa))])])
                   qaPairs))].

(** The fuel that reading a value back takes. *)
Fixpoint jsonFuel (v : json) : nat :=
  match v with
  | JStr _ => 1
  | JArr vs => S (fold_right (fun x n => S (Nat.max (jsonFuel x) n)) 0 vs)
  | JObj kvs => S (fold_right (fun kv n => S (Nat.max (jsonFuel (snd kv)) n)) 0 kvs)
  end.

(** White space only. *)
Definition spaces (ws : str) : Prop := forallb isJsonSpace ws = true.

Definition needElements (vs : list json) : nat :=
  fold_right (fun x n => S (Nat.max (jsonFuel x) n)) 0 vs.

Definition needMembers (kvs : list (str * json)) : nat :=
  fold_right (fun kv n => S (Nat.max (jsonFuel (snd kv)) n)) 0 kvs.

(** The value reads back from its serialization at any indentation, with
    any text behind it. *)
Definition readsBack (v : json) : Prop :=
  forall indent rest fuel,
    spaces indent -> jsonFuel v <= fuel ->
    parseValue fuel (stringify indent v ++ rest) = Some (v, rest).

(** ** Quotation marks in the structured data *)

(** What stands before a quotation mark that opens a string or is
    escaped: a space or a backslash. *)
Definition opensQuote (c : code) : bool := N.eqb c 32 || N.eqb c 92.

(** What stands behind a quotation mark that closes a string: a colon, a
    comma or a line feed. *)
Definition closesQuote (c : code) : bool :=
  N.eqb c 58 || N.eqb c 44 || N.eqb c 10.

(** Every quotation mark of [s] has a space or a backslash before it, or a
    colon, a comma or a line feed behind it; [before] is the code unit
    before [s], [behind] the one behind it. *)
Fixpoint quotesGuarded (before : code) (s : str) (behind : code) : bool :=
  match s with
  | [] => true
  | c :: s' =>
      (negb (N.eqb c 34) || opensQuote before || closesQuote (hd behind s')) &&
      quotesGuarded c s' behind
  end.

(** The serialization of the value has its quotation marks guarded at
    every indentation. *)
Definition guardedValue (v : json) : Prop :=
  forall indent before behind,
    existsb (N.eqb 34) indent = false ->
    opensQuote before = true -> closesQuote behind = true ->
    quotesGuarded before (stringify indent v) behind = true.

(** ** Replacement patterns *)

(** The code units that make a replacement pattern of a dollar sign before
    them when [replace] is given a string to look for: [$$], [$&], [$`]
    and [$']. *)
Definition isPatternMark (c : code) : bool :=
  N.eqb c 36 || N.eqb c 38 || N.eqb c 96 || N.eqb c 39.

(** No dollar sign of [s] has such a code unit behind it; [behind] is the
    code unit behind [s]. *)
Fixpoint noPattern (s : str) (behind : code) : bool :=
  match s with
  | [] => true
  | c :: s' =>
      negb (N.eqb c 36 && isPatternMark (hd behind s')) && noPattern s' behind
  end.

(** [s] holds no replacement pattern. *)
Definition patternFree (s : str) : bool := noPattern s 0%N.

(** No question and no answer of the pairs holds a replacement pattern. *)
Definition pairsPatternFree (qaPairs : list QA.t) : bool :=
  forallb (fun qa => patternFree (QA.question qa) && patternFree (QA.answer qa))
          qaPairs.

(** The serialization of the value holds no replacement pattern before a
    code unit that makes none. *)
Definition patternFreeValue (v : json) : Prop :=
  forall indent behind,
    existsb (N.eqb 36) indent = false -> isPatternMark behind = false ->
    noPattern (stringify indent v) behind = true.

(** ** Pages for the evaluated statements *)

(** Three sections with answers of more than 30 characters. *)
Definition threeSections : str :=
  lit "<h2>Loading Phase</h2><p>Take twenty grams per day for one week.</p>" ++
  lit "<h2>Kidney Function</h2><p>Creatinine rises without kidney damage.</p>" ++
  lit "<h2>How Creatine Works</h2><p>It buffers ATP through phosphocreatine.</p>".

(** A page whose article closes right after its last paragraph. *)
Definition pagePlain : str :=
  lit "<html><head><title>Creatine</title></head><body><article>" ++
  threeSections ++ lit "</article></body></html>".

(** A page that carries a structured-data block of its own. *)
Definition pageWithArticleSchema : str :=
  q "<html><head><script type='application/ld+json'>{'@type': 'Article'}</script></head><body><article>" ++
  threeSections ++ nl ++ lit "      </article></body></html>".

(** A page with six sections. *)
Definition sixSections : str :=
  threeSections ++
  lit "<h2>Timing</h2><p>The time of day matters less than the daily habit.</p>" ++
  lit "<h2>Cost</h2><p>A month of creatine costs about $20 in most shops.</p>" ++
  lit "<h2>Vegetarians</h2><p>Low dietary intake makes the response larger.</p>".

Definition pageSixSections : str :=
  lit "<html><head><title>Creatine</title></head><body><article>" ++
  sixSections ++ nl ++ lit "      </article></body></html>".

(** A page with two sections only. *)
Definition pageTwoSections : str :=
  lit "<html><head><title>Creatine</title></head><body><article>" ++
  lit "<h2>Loading Phase</h2><p>Take twenty grams per day for one week.</p>" ++
  lit "<h2>Kidney Function</h2><p>Creatinine rises without kidney damage.</p>" ++
  lit "</article></body></html>".

(** * Properties of the matcher *)

Lemma matchLit_spec (ic : bool) (w : str) :
  forall n pv s cs,
    matchLit ic w n pv s cs =
    if litAt ic w s
    then [MState (n + length w) (lastUnit pv (firstn (length w) s))
                 (skipn (length w) s) cs]
    else [].
Proof.
  induction w as [|x w IH]; intros n pv s cs; simpl.
  - now rewrite Nat.add_0_r.
  - destruct s as [|c s]; [reflexivity|].
    destruct (unitEq ic x c); simpl; [|reflexivity].
    rewrite IH. now rewrite Nat.add_succ_r.
Qed.

Lemma rmatch_oneOf_nil (ic : bool) (ws : list string) (st : mstate) :
  rmatch ic (oneOf ws) st = [] <->
  existsb (fun w => litAt ic (lit w) (rest st)) ws = false.
Proof.
  induction ws as [|w ws IH].
  - simpl. destruct (rest st); tauto.
  - destruct ws as [|w' ws].
    + cbn [oneOf rmatch existsb]. rewrite matchLit_spec, orb_false_r.
      destruct (litAt ic (lit w) (rest st)); split; congruence.
    + change (oneOf (w :: w' :: ws)) with (Alt (Lit (lit w)) (oneOf (w' :: ws))).
      cbn [rmatch]. rewrite matchLit_spec.
      change (existsb (fun w0 => litAt ic (lit w0) (rest st)) (w :: w' :: ws))
        with (litAt ic (lit w) (rest st) ||
              existsb (fun w0 => litAt ic (lit w0) (rest st)) (w' :: ws)).
      destruct (litAt ic (lit w) (rest st)); simpl.
      * split; congruence.
      * exact IH.
Qed.

Lemma searchFrom_here (ic : bool) (r : regex) n pv s e :
  matchAt ic r n pv s = Some e -> searchFrom ic r n pv s = Some (Found n e).
Proof.
  intros H. destruct s; simpl; now rewrite H.
Qed.

Lemma hd_error_none_nil {A : Type} (l : list A) : hd_error l = None <-> l = [].
Proof. destruct l; simpl; split; congruence. Qed.

(** A pattern whose success at a position depends on the text from there
    on only is tested by looking at every suffix. *)
Lemma test_anySuffix (ic : bool) (r : regex) (P : str -> bool) :
  (forall n pv s, matchAt ic r n pv s = None <-> P s = false) ->
  forall s, test ic r s = anySuffix P s.
Proof.
  intros HP s. unfold test, regexMatch.
  generalize 0 at 1. generalize (@None code).
  induction s as [|c s IH]; intros pv n.
  - simpl. destruct (P []) eqn:EP.
    + destruct (matchAt ic r n pv []) eqn:E; [reflexivity|].
      apply (proj1 (HP n pv [])) in E. congruence.
    + apply (proj2 (HP n pv [])) in EP. now rewrite EP.
  - simpl. destruct (P (c :: s)) eqn:EP.
    + destruct (matchAt ic r n pv (c :: s)) eqn:E; [reflexivity|].
      apply (proj1 (HP n pv (c :: s))) in E. congruence.
    + apply (proj2 (HP n pv (c :: s))) in EP. rewrite EP. simpl. apply IH.
Qed.

Lemma test_oneOf (ic : bool) (ws : list string) (s : str) :
  test ic (oneOf ws) s =
  anySuffix (fun t => existsb (fun w => litAt ic (lit w) t) ws) s.
Proof.
  apply test_anySuffix. intros n pv t. unfold matchAt.
  rewrite hd_error_none_nil. apply rmatch_oneOf_nil.
Qed.

Lemma anySuffix_mono (P Q : str -> bool) (s : str) :
  (forall t, P t = true -> Q t = true) ->
  anySuffix P s = true -> anySuffix Q s = true.
Proof.
  intros HPQ. induction s as [|c s IH]; simpl.
  - rewrite !orb_false_r. apply HPQ.
  - intros H. apply orb_true_iff in H. apply orb_true_iff.
    destruct H as [H|H]; [left; now apply HPQ | right; now apply IH].
Qed.

Lemma existsb_incl {A : Type} (f : A -> bool) (l l' : list A) :
  incl l l' -> existsb f l = true -> existsb f l' = true.
Proof.
  intros Hi H. apply existsb_exists in H. destruct H as [x [Hx Hf]].
  apply existsb_exists. exists x. split; [now apply Hi | assumption].
Qed.

Lemma unitEq_refl (ic : bool) (x : code) : unitEq ic x x = true.
Proof. unfold unitEq. destruct ic; apply N.eqb_refl. Qed.

Lemma litAt_app (ic : bool) (w t : str) : litAt ic w (w ++ t) = true.
Proof.
  induction w as [|x w IH]; simpl; [reflexivity|].
  now rewrite unitEq_refl, IH.
Qed.

Lemma skipn_length_app {A : Type} (w t : list A) : skipn (length w) (w ++ t) = t.
Proof. induction w; simpl; auto. Qed.

Lemma firstn_length_app {A : Type} (w t : list A) : firstn (length w) (w ++ t) = w.
Proof. induction w; simpl; congruence. Qed.

(** One word of an alternation that stands at the position is one of the
    ways the alternation matches. *)
Lemma rmatch_oneOf_In (ic : bool) (ws : list string) (w : string) (st : mstate) :
  In w ws -> litAt ic (lit w) (rest st) = true ->
  In (MState (pos st + length (lit w))
             (lastUnit (prev st) (firstn (length (lit w)) (rest st)))
             (skipn (length (lit w)) (rest st)) (caps st))
     (rmatch ic (oneOf ws) st).
Proof.
  induction ws as [|w0 ws IH]; intros Hin Hlit; [contradiction|].
  destruct ws as [|w1 ws].
  - destruct Hin as [->|[]]. cbn [oneOf rmatch].
    rewrite matchLit_spec, Hlit. now left.
  - change (oneOf (w0 :: w1 :: ws)) with (Alt (Lit (lit w0)) (oneOf (w1 :: ws))).
    cbn [rmatch]. apply in_or_app. destruct Hin as [->|Hin].
    + left. rewrite matchLit_spec, Hlit. now left.
    + right. now apply IH.
Qed.

Lemma flat_map_nonempty {A B : Type} (f : A -> list B) (l : list A) (x : A) :
  In x l -> f x <> [] -> flat_map f l <> [].
Proof.
  intros Hin Hf Hnil. destruct (f x) as [|y ys] eqn:E; [congruence|].
  assert (Hy : In y (flat_map f l)).
  { apply in_flat_map. exists x. split; [assumption|]. rewrite E. now left. }
  rewrite Hnil in Hy. contradiction.
Qed.

(** ** Tests for words *)

Lemma anySuffix_true_iff (P : str -> bool) (s : str) :
  anySuffix P s = true <-> exists pre t, s = pre ++ t /\ P t = true.
Proof.
  induction s as [|c s IH]; simpl.
  - rewrite orb_false_r. split.
    + intros H. now exists [], [].
    + intros [pre [t [E H]]]. symmetry in E. apply app_eq_nil in E.
      destruct E as [_ ->]. exact H.
  - rewrite orb_true_iff, IH. split.
    + intros [H|[pre [t [E H]]]].
      * now exists [], (c :: s).
      * exists (c :: pre), t. now rewrite E.
    + intros [[|x pre] [t [E H]]]; simpl in E.
      * left. now rewrite E.
      * right. injection E as _ E. now exists pre, t.
Qed.

Lemma litAt_nocase_iff (w t : str) :
  litAt true w t = true <->
  exists mid post, t = mid ++ post /\ map canonicalize mid = map canonicalize w.
Proof.
  revert t. induction w as [|x w IH]; intros t; cbn [litAt map].
  - split; [|reflexivity]. intros _. now exists [], t.
  - destruct t as [|c t].
    + split; [discriminate|]. intros [mid [post [E Hm]]].
      symmetry in E. apply app_eq_nil in E. destruct E as [-> _]. discriminate.
    + unfold unitEq. rewrite andb_true_iff, N.eqb_eq, IH. split.
      * intros [Hx [mid [post [E Hm]]]]. exists (c :: mid), post. simpl.
        now rewrite E, Hm, Hx.
      * intros [[|y mid] [post [E Hm]]]; [discriminate|].
        simpl in E, Hm. injection E as -> ->. injection Hm as Hy Hm.
        split; [now symmetry|]. now exists mid, post.
Qed.

(** A case-insensitive alternation of words is a substring test. *)
Lemma test_oneOf_occurs (ws : list string) (s : str) :
  test true (oneOf ws) s = true <->
  exists w, In w ws /\ occursNoCase (lit w) s.
Proof.
  rewrite test_oneOf, anySuffix_true_iff. split.
  - intros [pre [t [E H]]]. apply existsb_exists in H.
    destruct H as [w [Hw Hl]]. apply litAt_nocase_iff in Hl.
    destruct Hl as [mid [post [Et Hm]]].
    exists w. split; [exact Hw|]. exists pre, mid, post. now rewrite E, Et.
  - intros [w [Hw [pre [mid [post [E Hm]]]]]].
    exists pre, (mid ++ post). split; [exact E|].
    apply existsb_exists. exists w. split; [exact Hw|].
    apply litAt_nocase_iff. now exists mid, post.
Qed.

(** The leftmost search finds a match exactly when some position has one. *)
Lemma searchFrom_some_iff (ic : bool) (r : regex) (s : str) :
  forall (n : nat) (pv : option code),
    searchFrom ic r n pv s <> None <->
    exists pre t,
      s = pre ++ t /\
      matchAt ic r (n + length pre) (lastUnit pv pre) t <> None.
Proof.
  induction s as [|c s IH]; intros n pv; cbn [searchFrom].
  - split.
    + intros H. exists [], []. split; [reflexivity|]. simpl.
      rewrite Nat.add_0_r. destruct (matchAt ic r n pv []); congruence.
    + intros [pre [t [E H]]]. symmetry in E. apply app_eq_nil in E.
      destruct E as [-> ->]. simpl in H. rewrite Nat.add_0_r in H.
      destruct (matchAt ic r n pv []); congruence.
  - split.
    + intros H. destruct (matchAt ic r n pv (c :: s)) eqn:E.
      * exists [], (c :: s). split; [reflexivity|]. simpl.
        rewrite Nat.add_0_r. congruence.
      * apply IH in H. destruct H as [pre [t [Es H]]].
        exists (c :: pre), t. split; [simpl; now rewrite Es|].
        simpl. now rewrite Nat.add_succ_r.
    + intros [pre [t [E H]]]. destruct pre as [|x pre].
      * simpl in E, H. subst t. rewrite Nat.add_0_r in H.
        destruct (matchAt ic r n pv (c :: s)); congruence.
      * simpl in E. injection E as <- ->.
        destruct (matchAt ic r n pv (c :: pre ++ t)); [discriminate|].
        apply IH. exists pre, t. split; [reflexivity|].
        simpl in H. now rewrite Nat.add_succ_r in H.
Qed.

Lemma test_true_iff (ic : bool) (r : regex) (s : str) :
  test ic r s = true <->
  exists pre t,
    s = pre ++ t /\ matchAt ic r (length pre) (lastUnit None pre) t <> None.
Proof.
  unfold test, regexMatch.
  pose proof (searchFrom_some_iff ic r s 0 None) as H. simpl in H.
  rewrite <- H. destruct (searchFrom ic r 0 None s); split; congruence.
Qed.

(** [\bw\b] at one position. *)
Lemma matchAt_word (w : str) (n : nat) (pv : option code) (t : str) :
  matchAt true (Wb ;; Lit w ;; Wb) n pv t <> None <->
  boundary pv (hd_error t) = true /\
  litAt true w t = true /\
  boundary (lastUnit pv (firstn (length w) t)) (hd_error (skipn (length w) t)) = true.
Proof.
  unfold matchAt, boundary. cbn [rmatch pos prev rest caps].
  destruct (xorb (isWordAt pv) (isWordAt (hd_error t))); cbn [flat_map].
  - rewrite app_nil_r, matchLit_spec. cbn [pos prev rest caps].
    destruct (litAt true w t); cbn [flat_map pos prev rest caps].
    + rewrite app_nil_r.
      destruct (xorb _ _); simpl; split; try tauto; try congruence.
      intros [_ [_ H]]. discriminate.
    + simpl. split; [congruence|]. intros [_ [H _]]. discriminate.
  - simpl. split; [congruence|]. intros [H _]. discriminate.
Qed.

Lemma map_canonicalize_length (a b : str) :
  map canonicalize a = map canonicalize b -> length a = length b.
Proof. intros H. apply (f_equal (@length N)) in H. now rewrite !length_map in H. Qed.

(** [/\bw\b/i] tests for [w] as a word of its own. *)
Lemma test_word (w s : str) :
  test true (Wb ;; Lit w ;; Wb) s = true <-> wordOccursNoCase w s.
Proof.
  rewrite test_true_iff. unfold wordOccursNoCase. split.
  - intros [pre [t [E H]]]. apply matchAt_word in H.
    destruct H as [B1 [L B2]]. apply litAt_nocase_iff in L.
    destruct L as [mid [post [Et Hm]]]. subst t.
    pose proof (map_canonicalize_length _ _ Hm) as Hlen.
    rewrite <- Hlen, firstn_length_app, skipn_length_app in B2.
    exists pre, mid, post. repeat split; auto.
    unfold lastUnit in *. now rewrite fold_left_app.
  - intros [pre [mid [post [E [Hm [B1 B2]]]]]].
    exists pre, (mid ++ post). split; [exact E|]. apply matchAt_word.
    pose proof (map_canonicalize_length _ _ Hm) as Hlen.
    rewrite <- Hlen, firstn_length_app, skipn_length_app.
    repeat split; auto.
    + apply litAt_nocase_iff. now exists mid, post.
    + unfold lastUnit in *. now rewrite fold_left_app in B2.
Qed.

(** ** Every match reads a stretch of the input *)

Lemma reaches_refl (st : mstate) : reaches st st.
Proof. exists []. simpl. auto. Qed.

Lemma reaches_trans (a b c : mstate) : reaches a b -> reaches b c -> reaches a c.
Proof.
  intros [x [Hx [Px Lx]]] [y [Hy [Py Ly]]]. exists (x ++ y).
  rewrite Hx, Hy, Py, Px, Ly, Lx, length_app, app_assoc.
  unfold lastUnit. rewrite fold_left_app. repeat split. lia.
Qed.

Lemma litAt_length (ic : bool) (w : str) :
  forall s, litAt ic w s = true -> length w <= length s.
Proof.
  induction w as [|x w IH]; intros [|c s] H; simpl in *; try lia; try discriminate.
  apply andb_true_iff in H. destruct H as [_ H]. apply IH in H. lia.
Qed.

Lemma matchLit_reaches (ic : bool) (w : str) n pv s cs e :
  In e (matchLit ic w n pv s cs) -> reaches (MState n pv s cs) e.
Proof.
  rewrite matchLit_spec. destruct (litAt ic w s) eqn:E; [|contradiction].
  intros [<-|[]]. exists (firstn (length w) s). simpl.
  rewrite firstn_skipn, length_firstn.
  apply litAt_length in E. repeat split. lia.
Qed.

Lemma matchRep_reaches (greedy : bool) (p : code -> bool) (cs : list (nat * str)) e :
  forall s n pv,
    In e (matchRep greedy p n pv s cs) -> reaches (MState n pv s cs) e.
Proof.
  induction s as [|c s IH]; intros n pv H.
  - destruct H as [<-|[]]. apply reaches_refl.
  - cbn [matchRep] in H.
    assert (Hmore : In e (matchRep greedy p (S n) (Some c) s cs) ->
                    reaches (MState n pv (c :: s) cs) e).
    { intros Hin. apply IH in Hin. destruct Hin as [x [Hx [Px Lx]]].
      exists (c :: x). simpl in *. rewrite Hx, Px, Lx. repeat split. lia. }
    destruct (p c).
    + destruct greedy.
      * apply in_app_or in H. destruct H as [H|[<-|[]]]; auto using reaches_refl.
      * destruct H as [<-|H]; auto using reaches_refl.
    + destruct H as [<-|[]]. apply reaches_refl.
Qed.

(** Whatever the pattern, the end of a match lies in the input at or after
    its start, by as many code units as the position moved. *)
Lemma rmatch_reaches (ic : bool) (r : regex) :
  forall st e, In e (rmatch ic r st) -> reaches st e.
Proof.
  induction r as [w|p|a IHa b IHb|a IHa b IHb|greedy p|a IHa|k a IHa| | | |a IHa];
    intros st e H; cbn [rmatch] in H.
  - destruct st as [n pv s cs]. now apply matchLit_reaches in H.
  - destruct st as [n pv [|c s] cs]; cbn in H; [contradiction|].
    destruct (p c); [|contradiction]. destruct H as [<-|[]].
    exists [c]. simpl. repeat split. lia.
  - apply in_flat_map in H. destruct H as [m [Hm He]].
    eapply reaches_trans; eauto.
  - apply in_app_or in H. destruct H; auto.
  - destruct st as [n pv s cs]. now apply matchRep_reaches in H.
  - apply in_app_or in H. destruct H as [H|[<-|[]]]; auto using reaches_refl.
  - apply in_map_iff in H. destruct H as [m [<- Hm]].
    destruct (IHa _ _ Hm) as [x Hx]. now exists x.
  - destruct (pos st); [|contradiction]. destruct H as [<-|[]]. apply reaches_refl.
  - destruct (rest st); [|contradiction]. destruct H as [<-|[]]. apply reaches_refl.
  - destruct (xorb _ _); [|contradiction]. destruct H as [<-|[]]. apply reaches_refl.
  - destruct (rmatch ic a st); [contradiction|]. destruct H as [<-|[]].
    exists []. simpl. auto.
Qed.

(** The two readings of a match agree: the text after it is the input
    without as many code units as the position moved.  [replaceFirst] uses
    the first reading, [replaceAllFrom] and [execAllFrom] the second. *)
Lemma matchAt_rest (ic : bool) (r : regex) n pv s e :
  matchAt ic r n pv s = Some e ->
  n <= pos e /\ rest e = skipn (pos e - n) s.
Proof.
  unfold matchAt. intros H.
  assert (Hin : In e (rmatch ic r (MState n pv s []))).
  { destruct (rmatch ic r (MState n pv s [])); [discriminate|].
    injection H as <-. now left. }
  apply rmatch_reaches in Hin. destruct Hin as [x [Hx [Px _]]]. simpl in *.
  split; [lia|]. rewrite Px, Hx.
  replace (n + length x - n) with (length x) by lia.
  now rewrite skipn_length_app.
Qed.

Lemma rmatch_Seq (ic : bool) (a b : regex) (st : mstate) :
  rmatch ic (Seq a b) st = flat_map (rmatch ic b) (rmatch ic a st).
Proof. reflexivity. Qed.

Lemma matchAt_In (ic : bool) (r : regex) n pv s e :
  matchAt ic r n pv s = Some e -> In e (rmatch ic r (MState n pv s [])).
Proof.
  unfold matchAt. destruct (rmatch ic r (MState n pv s [])); [discriminate|].
  intros H. injection H as <-. now left.
Qed.

Lemma matchLit_pos (ic : bool) (w : str) n pv s cs e :
  In e (matchLit ic w n pv s cs) -> pos e = n + length w.
Proof.
  rewrite matchLit_spec. destruct (litAt ic w s); [|contradiction].
  now intros [<-|[]].
Qed.

(** A pattern with a run of pattern characters between two parts moves the
    position by the length of the run at least. *)
Lemma seq_lit_moves (ic : bool) (a b : regex) (w : str) (st e : mstate) :
  In e (rmatch ic (Seq a (Seq (Lit w) b)) st) -> pos st + length w <= pos e.
Proof.
  rewrite rmatch_Seq. intros H. apply in_flat_map in H.
  destruct H as [m1 [H1 H]]. rewrite rmatch_Seq in H.
  apply in_flat_map in H. destruct H as [m2 [H2 H3]].
  apply rmatch_reaches in H1, H3.
  destruct H1 as [x1 [_ [P1 _]]]. destruct H3 as [x3 [_ [P3 _]]].
  cbn [rmatch] in H2. apply matchLit_pos in H2. lia.
Qed.

(** A match of [h2Regex] is never empty, so the [while] loop over
    [h2Regex.exec] moves on with every round. *)
Lemma h2Regex_match_not_empty (n : nat) (pv : option code) (s : str) (e : mstate) :
  matchAt true h2Regex n pv s = Some e -> n < pos e.
Proof.
  unfold matchAt. intros H.
  assert (Hin : In e (rmatch true h2Regex (MState n pv s []))).
  { destruct (rmatch true h2Regex (MState n pv s [])); [discriminate|].
    injection H as <-. now left. }
  clear H. unfold h2Regex in Hin. rewrite rmatch_Seq in Hin.
  apply in_flat_map in Hin. destruct Hin as [m [Hm He]].
  apply rmatch_reaches in He. destruct He as [x [_ [Px _]]].
  cbn [rmatch pos prev rest caps] in Hm. rewrite matchLit_spec in Hm.
  destruct (litAt true (lit "<h2") s); [|contradiction].
  destruct Hm as [<-|[]]. simpl in Px. lia.
Qed.

(** ** The walk of a global pattern is a repeated leftmost search *)

(** Dropping the rest of a match brings the walk to the end of the match. *)
Lemma replaceAllFrom_skip (ic : bool) (r : regex) (repl : str) (x : str) :
  forall (t s : str) (k n : nat) (pv : option code),
    s = x ++ t -> k = length x ->
    replaceAllFrom ic r repl k n pv s =
    replaceAllFrom ic r repl 0 (n + k) (lastUnit pv x) t.
Proof.
  induction x as [|c x IH]; intros t s k n pv -> ->.
  - simpl. now rewrite Nat.add_0_r.
  - cbn [length app replaceAllFrom].
    rewrite (IH t (x ++ t) (length x) (S n) (Some c) eq_refl eq_refl).
    now rewrite Nat.add_succ_comm.
Qed.

Lemma execAllFrom_skip (ic : bool) (r : regex) (x : str) :
  forall (t s : str) (k n : nat) (pv : option code),
    s = x ++ t -> k = length x ->
    execAllFrom ic r k n pv s =
    execAllFrom ic r 0 (n + k) (lastUnit pv x) t.
Proof.
  induction x as [|c x IH]; intros t s k n pv -> ->.
  - simpl. now rewrite Nat.add_0_r.
  - cbn [length app execAllFrom].
    rewrite (IH t (x ++ t) (length x) (S n) (Some c) eq_refl eq_refl).
    now rewrite Nat.add_succ_comm.
Qed.

Lemma matchAt_reaches (ic : bool) (r : regex) n pv s e :
  matchAt ic r n pv s = Some e -> reaches (MState n pv s []) e.
Proof.
  unfold matchAt. intros H. apply (rmatch_reaches ic r).
  destruct (rmatch ic r (MState n pv s [])); [discriminate|].
  injection H as <-. now left.
Qed.

Section Walk.

Variable ic : bool.
Variable r : regex.

(** No match of the pattern is empty. *)
Hypothesis not_empty :
  forall n pv s e, matchAt ic r n pv s = Some e -> n < pos e.

(** [r.exec(s)] with [lastIndex = n] finds the leftmost match from [n] on;
    the next call starts where that match ends. *)
Lemma execAllFrom_search (s : str) :
  forall (n : nat) (pv : option code),
    execAllFrom ic r 0 n pv s =
    match searchFrom ic r n pv s with
    | Some m =>
        m :: execAllFrom ic r 0 (pos (final m)) (prev (final m)) (rest (final m))
    | None => []
    end.
Proof.
  induction s as [|c s IH]; intros n pv; cbn [execAllFrom searchFrom].
  - destruct (matchAt ic r n pv []) as [e|] eqn:E; [|reflexivity].
    exfalso. pose proof (not_empty _ _ _ _ E) as Hlt.
    apply matchAt_reaches in E. destruct E as [x [Hx [Px _]]]. simpl in *.
    symmetry in Hx. apply app_eq_nil in Hx. destruct Hx as [-> _].
    simpl in Px. lia.
  - destruct (matchAt ic r n pv (c :: s)) as [e|] eqn:E; [|apply IH].
    cbn [final]. f_equal.
    pose proof (not_empty _ _ _ _ E) as Hlt.
    apply matchAt_reaches in E. destruct E as [x [Hx [Px Lx]]]. simpl in *.
    destruct x as [|c' x]; [simpl in Px; lia|].
    simpl in Hx. injection Hx as <- Hx.
    rewrite (execAllFrom_skip ic r x (rest e) s (pos e - n - 1) (S n) (Some c) Hx)
      by (rewrite Px; simpl; lia).
    rewrite Lx. f_equal. rewrite Px. simpl. lia.
Qed.

(** [s.replace(r, repl)] copies the text up to the leftmost match, puts
    the replacement, and goes on where the match ends. *)
Lemma replaceAllFrom_search (repl : str) (s : str) :
  forall (n : nat) (pv : option code),
    replaceAllFrom ic r repl 0 n pv s =
    match searchFrom ic r n pv s with
    | Some m =>
        firstn (index m - n) s ++ repl ++
        replaceAllFrom ic r repl 0 (pos (final m)) (prev (final m)) (rest (final m))
    | None => s
    end.
Proof.
  induction s as [|c s IH]; intros n pv; cbn [replaceAllFrom searchFrom].
  - destruct (matchAt ic r n pv []) as [e|] eqn:E; [|reflexivity].
    exfalso. pose proof (not_empty _ _ _ _ E) as Hlt.
    apply matchAt_reaches in E. destruct E as [x [Hx [Px _]]]. simpl in *.
    symmetry in Hx. apply app_eq_nil in Hx. destruct Hx as [-> _].
    simpl in Px. lia.
  - destruct (matchAt ic r n pv (c :: s)) as [e|] eqn:E.
    + cbn [final index]. rewrite Nat.sub_diag. cbn [firstn app].
      pose proof (not_empty _ _ _ _ E) as Hlt.
      apply matchAt_reaches in E. destruct E as [x [Hx [Px Lx]]]. simpl in *.
      destruct x as [|c' x]; [simpl in Px; lia|].
      simpl in Hx. injection Hx as <- Hx.
      destruct (pos e - n) as [|k] eqn:Ek; [lia|].
      rewrite (replaceAllFrom_skip ic r repl x (rest e) s k (S n) (Some c) Hx)
        by (rewrite Px in Ek; simpl in Ek; lia).
      rewrite Lx. do 2 f_equal. rewrite Px in *. simpl in *. lia.
    + rewrite IH. destruct (searchFrom ic r (S n) (Some c) s) as [m|] eqn:Es;
        [|reflexivity].
      assert (Hle : S n <= index m).
      { clear -Es. revert Es. generalize (S n), (Some c).
        induction s as [|d s IHs]; intros k pv' Es; cbn [searchFrom] in Es.
        - destruct (matchAt ic r k pv' []); [|discriminate].
          injection Es as <-. simpl. lia.
        - destruct (matchAt ic r k pv' (d :: s)).
          + injection Es as <-. simpl. lia.
          + apply IHs in Es. lia. }
      replace (index m - n) with (S (index m - S n)) by lia.
      reflexivity.
Qed.

End Walk.

(** The loop of [extractH2Sections], said with [lastIndex]. *)
Lemma h2Regex_exec_loop (s : str) (n : nat) (pv : option code) :
  execAllFrom true h2Regex 0 n pv s =
  match searchFrom true h2Regex n pv s with
  | Some m =>
      m :: execAllFrom true h2Regex 0 (pos (final m)) (prev (final m))
             (rest (final m))
  | None => []
  end.
Proof. apply execAllFrom_search. exact h2Regex_match_not_empty. Qed.

(** * The extractor *)

Lemma dropped_heading (heading : str) :
  (exists w, In w dropWords /\ occursNoCase (lit w) heading) <->
  test true re_references heading || test true re_faqHeading heading = true.
Proof.
  rewrite orb_true_iff. unfold re_references, re_faqHeading.
  rewrite !test_oneOf_occurs. unfold dropWords. simpl. split.
  - intros [w [Hw Ho]].
    destruct Hw as [<-|[<-|[<-|[<-|Hw]]]];
      try (left; eexists; split; [|exact Ho]; simpl; tauto).
    right. exists w. split; [exact Hw | exact Ho].
  - intros [[w [Hw Ho]]|[w [Hw Ho]]]; exists w; (split; [tauto | exact Ho]).
Qed.

Lemma sectionStep_dropped (sections : list Sec.t) (m : found) :
  test true re_references (trim (stripTags (group 1 m))) ||
  test true re_faqHeading (trim (stripTags (group 1 m))) = true ->
  sectionStep sections m = sections.
Proof.
  unfold sectionStep. intros H.
  destruct (test true re_references (trim (stripTags (group 1 m)))); [reflexivity|].
  simpl in H. now rewrite H.
Qed.

(** The loop body appends to the array, and what it appends does not
    depend on the array. *)
Lemma sectionStep_app (sections : list Sec.t) (m : found) :
  sectionStep sections m = sections ++ sectionStep [] m.
Proof.
  unfold sectionStep.
  destruct (test true re_references _); [now rewrite app_nil_r|].
  destruct (test true re_faqHeading _); [now rewrite app_nil_r|].
  destruct (regexMatch false re_paragraph (group 2 m));
    [|now rewrite app_nil_r].
  destruct (Nat.ltb 30 _); [reflexivity | now rewrite app_nil_r].
Qed.

(** The sections come in the order of the matches of [h2Regex], that is, in
    document order. *)
Lemma extractH2Sections_flat_map (articleHtml : str) :
  extractH2Sections articleHtml =
  flat_map (sectionStep []) (execAll true h2Regex articleHtml).
Proof.
  unfold extractH2Sections.
  assert (H : forall ms acc,
             fold_left sectionStep ms acc = acc ++ flat_map (sectionStep []) ms).
  { induction ms as [|m ms IH]; intros acc; simpl.
    - now rewrite app_nil_r.
    - rewrite IH, (sectionStep_app acc m). now rewrite app_assoc. }
  apply H.
Qed.

Lemma sectionStep_fromMatch (m : found) (s : Sec.t) :
  In s (sectionStep [] m) -> fromMatch m s.
Proof.
  unfold sectionStep, fromMatch.
  destruct (test true re_references (trim (stripTags (group 1 m)))) eqn:E1;
    [contradiction|].
  destruct (test true re_faqHeading (trim (stripTags (group 1 m)))) eqn:E2;
    [contradiction|].
  destruct (regexMatch false re_paragraph (group 2 m)) as [pMatch|];
    [|contradiction].
  destruct (Nat.ltb 30 _) eqn:E3; [|contradiction].
  intros [<-|[]]. cbn [Sec.heading Sec.answer]. repeat split; auto.
  exists pMatch. repeat split. now apply Nat.ltb_lt.
Qed.

(** Every section of the result comes from a match of [h2Regex]. *)
Lemma extractH2Sections_In (articleHtml : str) (s : Sec.t) :
  In s (extractH2Sections articleHtml) ->
  exists m, In m (execAll true h2Regex articleHtml) /\ fromMatch m s.
Proof.
  rewrite extractH2Sections_flat_map. intros H. apply in_flat_map in H.
  destruct H as [m [Hm Hs]]. exists m. split; [exact Hm|].
  now apply sectionStep_fromMatch.
Qed.

(** The extractor on a small article: tag names are in either case, the
    second paragraph and the short one are not used, and a section ends
    where the call-to-action box starts. *)
Example extract_small_article :
  extractH2Sections
    (q "<H2 class='x'>One <em>two</em></H2><p class='a'>This is the first paragraph of the section.</p>" ++
     lit "<p>A second paragraph of the same section, which is not used.</p>" ++
     q "<h2>Offer</h2><div class='cta-box'><p>This box is long enough but outside.</p></div>" ++
     lit "<h2>Short</h2><p>too short</p>") =
  [Sec.mk (lit "One two") (lit "This is the first paragraph of the section.")].
Proof. vm_compute. reflexivity. Qed.

(** C10.  The drop tests are case-insensitive substring tests.  A heading
    whose text holds one of the six words anywhere, as in "Resources",
    leaves the array of sections as it was, so that its content is never
    looked at; and no section that [extractH2Sections] returns has such a
    heading. *)
Theorem drop_tests_match_substrings :
  (forall (sections : list Sec.t) (m : found) (w : string),
     In w dropWords ->
     occursNoCase (lit w) (trim (stripTags (group 1 m))) ->
     sectionStep sections m = sections) /\
  (forall (articleHtml : str) (s : Sec.t) (w : string),
     In s (extractH2Sections articleHtml) ->
     In w dropWords ->
     ~ occursNoCase (lit w) (Sec.heading s)) /\
  extractH2Sections
    (lit "<h2>Resources</h2><p>Books and papers for readers who want more.</p>") = [].
Proof.
  split; [|split].
  - intros sections m w Hw Ho. apply sectionStep_dropped.
    apply dropped_heading. exists w. now split.
  - intros articleHtml s w Hs Hw Ho. apply extractH2Sections_In in Hs.
    destruct Hs as [m [_ [_ [Hr [Hf _]]]]].
    assert (Ht : test true re_references (Sec.heading s) ||
                 test true re_faqHeading (Sec.heading s) = true).
    { apply dropped_heading. exists w. now split. }
    rewrite Hr, Hf in Ht. discriminate.
  - vm_compute. reflexivity.
Qed.

(** The heading "Resources" holds "sources". *)
Lemma drop_tests_match_substrings_witness :
  let m := hd (Found 0 (MState 0 None [] []))
              (execAll true h2Regex
                 (lit "<h2>Resources</h2><p>Books and papers for readers who want more.</p>")) in
  group 1 m = lit "Resources" /\
  sectionStep [] m = [].
Proof.
  intros m. split; [vm_compute; reflexivity|].
  apply (proj1 drop_tests_match_substrings [] m "sources").
  - simpl. tauto.
  - exists (lit "Re"), (lit "sources"), []. split; vm_compute; reflexivity.
Defined.

(** ** The first paragraph *)

Lemma splitOn_eq (w s : str) :
  splitOn w s =
  if startsWith s w then Some ([], skipn (length w) s)
  else match s with
       | c :: s' =>
           match splitOn w s' with
           | Some (a, b) => Some (c :: a, b)
           | None => None
           end
       | [] => None
       end.
Proof. destruct s; reflexivity. Qed.

Lemma litAt_false_startsWith (w s : str) : litAt false w s = startsWith s w.
Proof.
  revert s. induction w as [|x w IH]; intros [|c s]; simpl; auto.
  now rewrite IH.
Qed.

Lemma startsWith_app (w s : str) :
  startsWith s w = true -> s = w ++ skipn (length w) s.
Proof.
  revert s. induction w as [|x w IH]; intros [|c s]; simpl; auto; try discriminate.
  intros H. apply andb_true_iff in H. destruct H as [Hx Hs].
  apply N.eqb_eq in Hx. subst. f_equal. now apply IH.
Qed.

Lemma splitOn_spec (w : str) :
  forall s a b, splitOn w s = Some (a, b) -> s = a ++ w ++ b.
Proof.
  induction s as [|c s IH]; intros a b; rewrite splitOn_eq.
  - destruct (startsWith [] w) eqn:E; [|discriminate].
    intros H. injection H as <- <-. now apply startsWith_app.
  - destruct (startsWith (c :: s) w) eqn:E.
    + intros H. injection H as <- <-. now apply startsWith_app.
    + destruct (splitOn w s) as [[a' b']|]; [|discriminate].
      intros H. injection H as <- <-. simpl. f_equal. now apply IH.
Qed.

Lemma suffix_refl (t : str) : suffix t t.
Proof. now exists []. Qed.

Lemma suffix_trans (a b c : str) : suffix a b -> suffix b c -> suffix a c.
Proof.
  intros [x ->] [y ->]. exists (y ++ x). now rewrite app_assoc.
Qed.

Lemma suffix_skipn (k : nat) (a b : str) :
  k <= length a -> suffix b (skipn k (a ++ b)).
Proof.
  intros Hk. exists (skipn k a). rewrite skipn_app.
  replace (k - length a) with 0 by lia. reflexivity.
Qed.

(** Going back in the text can only move the first occurrence of a word
    to the left: what follows it grows. *)
Lemma afterFirst_cons (w : str) (c : code) (s r : str) :
  afterFirst w s = Some r ->
  exists r', afterFirst w (c :: s) = Some r' /\ suffix r r'.
Proof.
  intros H. unfold afterFirst in *. rewrite (splitOn_eq w (c :: s)).
  destruct (splitOn w s) as [[a b]|] eqn:E; [|discriminate].
  simpl in H. injection H as <-.
  destruct (startsWith (c :: s) w) eqn:Es.
  - simpl. eexists. split; [reflexivity|].
    apply splitOn_spec in E. subst s.
    change (c :: a ++ w ++ b) with ((c :: a) ++ w ++ b).
    rewrite app_assoc. apply suffix_skipn. rewrite length_app. lia.
  - simpl. exists b. split; [reflexivity | apply suffix_refl].
Qed.

Lemma afterFirst_suffix (w : str) (t' t r' : str) :
  suffix t' t ->
  afterFirst w t' = Some r' ->
  exists r, afterFirst w t = Some r /\ suffix r' r.
Proof.
  intros [x ->]. revert r'. induction x as [|c x IH]; intros r' H.
  - exists r'. split; [exact H | apply suffix_refl].
  - destruct (IH r' H) as [r1 [H1 S1]].
    destruct (afterFirst_cons w c (x ++ t') r1 H1) as [r2 [H2 S2]].
    exists r2. split; [exact H2|]. eapply suffix_trans; eassumption.
Qed.

Lemma firstParagraph_some (content : str) :
  firstParagraph content <> None <->
  exists opened body rest',
    afterFirst (lit "<p") content = Some opened /\
    afterFirst (lit ">") opened = Some body /\
    afterFirst (lit "</p>") body = Some rest'.
Proof.
  unfold firstParagraph, afterFirst. split.
  - destruct (splitOn (lit "<p") content) as [[a1 opened]|]; [|congruence].
    destruct (splitOn (lit ">") opened) as [[a2 body]|] eqn:E2; [|congruence].
    destruct (splitOn (lit "</p>") body) as [[a3 rest']|] eqn:E3;
      [|simpl; congruence].
    intros _. exists opened, body, rest'. now rewrite E2, E3.
  - intros [opened [body [rest' [H1 [H2 H3]]]]].
    destruct (splitOn (lit "<p") content) as [[a1 o]|]; [|discriminate].
    simpl in H1. injection H1 as ->.
    destruct (splitOn (lit ">") opened) as [[a2 b]|]; [|discriminate].
    simpl in H2. injection H2 as ->.
    destruct (splitOn (lit "</p>") body) as [[a3 r]|]; [|discriminate].
    simpl. discriminate.
Qed.

(** If a text has no first paragraph, no later part of it has one. *)
Lemma firstParagraph_none_cons (c : code) (s : str) :
  firstParagraph (c :: s) = None -> firstParagraph s = None.
Proof.
  intros Hnone. destruct (firstParagraph s) eqn:E; [|reflexivity].
  exfalso. assert (H : firstParagraph s <> None) by congruence.
  apply firstParagraph_some in H. destruct H as [o [b [r [H1 [H2 H3]]]]].
  destruct (afterFirst_cons _ c s o H1) as [o' [H1' S1]].
  destruct (afterFirst_suffix _ o o' b S1 H2) as [b' [H2' S2]].
  destruct (afterFirst_suffix _ b b' r S2 H3) as [r' [H3' S3]].
  assert (H : firstParagraph (c :: s) <> None).
  { apply firstParagraph_some. now exists o', b', r'. }
  contradiction.
Qed.

(** ** Two idioms of the script's patterns *)

(** [[^>]*>]: the greedy class stops before the first [>], and no shorter
    stop is followed by a [>], so the matcher goes on from right after the
    first [>] or fails. *)
Lemma rep_notGt_then_gt (K : mstate -> list mstate) :
  forall (s : str) (n : nat) (pv : option code) (cs : list (nat * str)),
    flat_map (fun e => flat_map K (rmatch false (Lit (lit ">")) e))
             (matchRep true notGt n pv s cs) =
    match splitOn (lit ">") s with
    | Some (attrs, s2) => K (MState (n + length attrs + 1) (Some 62%N) s2 cs)
    | None => []
    end.
Proof.
  change (lit ">") with [62%N].
  induction s as [|c s IH]; intros n pv cs.
  - reflexivity.
  - rewrite splitOn_eq. cbn [matchRep startsWith]. unfold notGt at 1.
    rewrite (N.eqb_sym 62 c). destruct (N.eqb c 62) eqn:Ec.
    + apply N.eqb_eq in Ec. subst c. cbn.
      rewrite !app_nil_r. now rewrite Nat.add_0_r, Nat.add_1_r.
    + cbn [negb andb]. rewrite flat_map_app, IH. cbn [flat_map].
      cbn [rmatch rest matchLit]. unfold unitEq. rewrite (N.eqb_sym 62 c), Ec.
      cbn [flat_map]. rewrite !app_nil_r.
      destruct (splitOn [62%N] s) as [[a b]|]; [|reflexivity].
      cbn [length]. now rewrite Nat.add_succ_comm.
Qed.
(** [([\s\S]*?)w]: the lazy class stops at the first place where [w]
    follows, and the group holds what stands before it. *)
Lemma lazy_any_then_lit (w : str) (n0 : nat) (s0 : str) :
  forall (t a0 : str) (pv : option code) (cs : list (nat * str)),
    s0 = a0 ++ t ->
    option_map caps
      (hd_error
         (flat_map (rmatch false (Lit w))
            (map (fun e => MState (pos e) (prev e) (rest e)
                             ((1, firstn (pos e - n0) s0) :: caps e))
                 (matchRep false anyUnit (n0 + length a0) pv t cs)))) =
    option_map (fun ab => (1, a0 ++ fst ab) :: cs) (splitOn w t).
Proof.
  induction t as [|c t IH]; intros a0 pv cs Hs0.
  - assert (Hf : firstn (n0 + length a0 - n0) s0 = a0).
    { replace (n0 + length a0 - n0) with (length a0) by lia.
      rewrite Hs0. apply firstn_length_app. }
    rewrite splitOn_eq. cbn [matchRep map flat_map rmatch pos prev rest caps].
    rewrite matchLit_spec, litAt_false_startsWith, app_nil_r, Hf.
    destruct (startsWith [] w); cbn; [rewrite app_nil_r|]; reflexivity.
  - assert (Hf : firstn (n0 + length a0 - n0) s0 = a0).
    { replace (n0 + length a0 - n0) with (length a0) by lia.
      rewrite Hs0. apply firstn_length_app. }
    rewrite splitOn_eq.
    cbn [matchRep anyUnit map flat_map rmatch pos prev rest caps].
    rewrite matchLit_spec, litAt_false_startsWith, Hf.
    destruct (startsWith (c :: t) w).
    + cbn. now rewrite app_nil_r.
    + cbn [app].
      change (fun st : mstate => matchLit false w (pos st) (prev st) (rest st) (caps st))
        with (rmatch false (Lit w)).
      replace (S (n0 + length a0)) with (n0 + length (a0 ++ [c]))
        by (rewrite length_app; simpl; lia).
      rewrite (IH (a0 ++ [c]) (Some c) cs)
        by (rewrite <- app_assoc; exact Hs0).
      destruct (splitOn w t) as [[a b]|]; [|reflexivity].
      cbn. now rewrite <- app_assoc.
Qed.
(** The paragraph pattern at one position. *)
Lemma matchAt_paragraph (n : nat) (pv : option code) (s : str) :
  option_map (fun e => lookupCap 1 (caps e)) (matchAt false re_paragraph n pv s) =
  if startsWith s (lit "<p") then
    match splitOn (lit ">") (skipn 2 s) with
    | Some (_, body) => option_map fst (splitOn (lit "</p>") body)
    | None => None
    end
  else None.
Proof.
  unfold matchAt, re_paragraph. cbn [rmatch pos prev rest caps].
  rewrite matchLit_spec, litAt_false_startsWith.
  destruct (startsWith s (lit "<p")); [|reflexivity].
  cbn [flat_map]. rewrite app_nil_r. change (length (lit "<p")) with 2.
  cbn [rmatch pos prev rest caps].
  rewrite (rep_notGt_then_gt
             (rmatch false (Grp 1 (Rep false anyUnit) ;; Lit (lit "</p>")))).
  destruct (splitOn (lit ">") (skipn 2 s)) as [[attrs body]|]; [|reflexivity].
  cbn [rmatch pos prev rest caps].
  pose proof (lazy_any_then_lit (lit "</p>") (n + 2 + length attrs + 1) body
                body [] (Some 62%N) [] eq_refl) as H.
  cbn [length app] in H. rewrite Nat.add_0_r in H.
  change (fun st : mstate => matchLit false (lit "</p>") (pos st) (prev st) (rest st) (caps st))
    with (rmatch false (Lit (lit "</p>"))).
  destruct (hd_error _) as [e|]; simpl in H |- *.
  - destruct (splitOn (lit "</p>") body) as [[a b]|]; [|discriminate].
    simpl in H. injection H as ->. reflexivity.
  - destruct (splitOn (lit "</p>") body) as [[a b]|]; [discriminate|reflexivity].
Qed.

(** [content.match(/<p[^>]*>([\s\S]*?)<\/p>/)] finds the first paragraph:
    group 1 of the match is the text [firstParagraph] describes, and there
    is no match exactly when there is no such text. *)
Lemma searchFrom_paragraph (s : str) :
  forall (n : nat) (pv : option code),
    option_map (group 1) (searchFrom false re_paragraph n pv s) =
    firstParagraph s.
Proof.
  induction s as [|c s IH]; intros n pv.
  - cbn [searchFrom]. pose proof (matchAt_paragraph n pv []) as H.
    change (startsWith [] (lit "<p")) with false in H.
    destruct (matchAt false re_paragraph n pv []); simpl in H;
      [discriminate|reflexivity].
  - cbn [searchFrom]. pose proof (matchAt_paragraph n pv (c :: s)) as H.
    unfold firstParagraph at 1. rewrite (splitOn_eq (lit "<p") (c :: s)).
    change (length (lit "<p")) with 2.
    destruct (matchAt false re_paragraph n pv (c :: s)) as [e|];
      cbn [option_map] in H.
    + destruct (startsWith (c :: s) (lit "<p")); [|discriminate].
      unfold group. cbn [option_map final]. exact H.
    + destruct (startsWith (c :: s) (lit "<p")) eqn:Es.
      * rewrite IH, <- H. apply (firstParagraph_none_cons c).
        unfold firstParagraph. rewrite (splitOn_eq (lit "<p") (c :: s)), Es.
        change (length (lit "<p")) with 2. now symmetry.
      * rewrite IH. unfold firstParagraph.
        destruct (splitOn (lit "<p") s) as [[a b]|]; reflexivity.
Qed.

Lemma regexMatch_paragraph (content : str) :
  option_map (group 1) (regexMatch false re_paragraph content) =
  firstParagraph content.
Proof. apply searchFrom_paragraph. Qed.

(** The first paragraph is the first opening tag's: attributes are skipped,
    later paragraphs are not read.  The pattern takes every tag whose name
    starts with [p] for the opening of a paragraph, and only a lower-case
    one. *)
Example first_paragraphs :
  firstParagraph (q "<div><p class='lead'>one</p><p>two</p></div>") =
  Some (lit "one") /\
  firstParagraph (lit "<pre>code</pre><p>text</p>") =
  Some (lit "code</pre><p>text") /\
  firstParagraph (lit "<P>upper</P><p>lower</p>") = Some (lit "lower") /\
  firstParagraph (lit "<ul><li>no paragraph</li></ul>") = None.
Proof. vm_compute. repeat split; reflexivity. Qed.

(** ** Tags *)

Lemma splitOn_gt_none (s : str) :
  splitOn [62%N] s = None <-> existsb (N.eqb 62) s = false.
Proof.
  induction s as [|c s IH]; rewrite splitOn_eq; cbn [startsWith existsb].
  - split; reflexivity.
  - destruct (N.eqb 62 c); cbn [andb orb].
    + split; discriminate.
    + rewrite <- IH. destruct (splitOn [62%N] s) as [[a b]|]; split; congruence.
Qed.

Lemma flat_map_singleton {A : Type} (l : list A) : flat_map (fun x => [x]) l = l.
Proof. induction l; simpl; congruence. Qed.

(** The tag pattern at one position. *)
Lemma matchAt_tag (n : nat) (pv : option code) (s : str) :
  matchAt false re_tag n pv s =
  match s with
  | c0 :: c :: s' =>
      if N.eqb c0 60 && notGt c then
        match splitOn [62%N] s' with
        | Some (body, s2) =>
            Some (MState (n + 2 + length body + 1) (Some 62%N) s2 [])
        | None => None
        end
      else None
  | _ => None
  end.
Proof.
  unfold matchAt, re_tag, Plus.
  destruct s as [|c0 [|c s']]; cbn [rmatch pos prev rest caps lit matchLit];
    change (lit "<") with [60%N]; cbn [matchLit]; unfold unitEq.
  - reflexivity.
  - destruct (N.eqb 60 c0); reflexivity.
  - rewrite (N.eqb_sym 60 c0). destruct (N.eqb c0 60); [|reflexivity].
    cbn [flat_map rmatch pos prev rest caps andb]. rewrite app_nil_r.
    destruct (notGt c); [|reflexivity].
    cbn [flat_map rmatch pos prev rest caps]. rewrite app_nil_r.
    rewrite (flat_map_ext (rmatch false (Lit (lit ">")))
               (fun e => flat_map (fun x => [x]) (rmatch false (Lit (lit ">")) e)))
      by (intros e; now rewrite flat_map_singleton).
    rewrite (rep_notGt_then_gt (fun x => [x])).
    change (lit ">") with [62%N].
    destruct (splitOn [62%N] s') as [[body s2]|]; [|reflexivity].
    cbn [hd_error]. do 3 f_equal. lia.
Qed.

Lemma matchAt_tag_none (n : nat) (pv : option code) (s : str) :
  matchAt false re_tag n pv s = None <-> tagAt s = false.
Proof.
  rewrite matchAt_tag. unfold tagAt.
  destruct s as [|c0 [|c s']]; try (split; reflexivity).
  destruct (N.eqb c0 60 && notGt c); cbn [andb].
  - rewrite <- splitOn_gt_none.
    destruct (splitOn [62%N] s') as [[a b]|]; split; congruence.
  - split; reflexivity.
Qed.

Lemma test_tag (s : str) : test false re_tag s = anySuffix tagAt s.
Proof. apply test_anySuffix. intros n pv t. apply matchAt_tag_none. Qed.

(** With an empty replacement nothing new enters the text. *)
Lemma replaceAllFrom_In (ic : bool) (r : regex) (x : code) (s : str) :
  forall (k n : nat) (pv : option code),
    In x (replaceAllFrom ic r [] k n pv s) -> In x s.
Proof.
  induction s as [|c s IH]; intros k n pv.
  - destruct k; cbn [replaceAllFrom]; [|auto].
    destruct (matchAt ic r n pv []); auto.
  - destruct k; cbn [replaceAllFrom].
    + destruct (matchAt ic r n pv (c :: s)) as [e|].
      * destruct (pos e - n); cbn [app]; intros H.
        -- destruct H as [<-|H]; [now left | right; eapply IH; eassumption].
        -- right. eapply IH; eassumption.
      * intros [<-|H]; [now left | right; eapply IH; eassumption].
    + intros H. right. eapply IH; eassumption.
Qed.

Lemma existsb_not_In (x : code) (s : str) :
  existsb (N.eqb x) s = false <-> ~ In x s.
Proof.
  split.
  - intros H Hin. assert (E : existsb (N.eqb x) s = true).
    { apply existsb_exists. exists x. split; [exact Hin | apply N.eqb_refl]. }
    congruence.
  - intros H. destruct (existsb (N.eqb x) s) eqn:E; [|reflexivity].
    apply existsb_exists in E. destruct E as [y [Hy Exy]].
    apply N.eqb_eq in Exy. subst. contradiction.
Qed.

(** What [replace(/<[^>]+>/g, '')] returns holds no tag. *)
Lemma replaceAll_tag_free (len : nat) :
  forall (s : str) (n : nat) (pv : option code),
    length s <= len ->
    anySuffix tagAt (replaceAllFrom false re_tag [] 0 n pv s) = false.
Proof.
  induction len as [|len IH]; intros s n pv Hlen.
  - destruct s; [|simpl in Hlen; lia].
    cbn [replaceAllFrom]. rewrite matchAt_tag. reflexivity.
  - destruct s as [|c0 s]; [cbn [replaceAllFrom]; rewrite matchAt_tag; reflexivity|].
    cbn [replaceAllFrom]. pose proof (matchAt_tag_none n pv (c0 :: s)) as Hnone.
    rewrite matchAt_tag in *.
    destruct s as [|c s'].
    + reflexivity.
    + destruct (N.eqb c0 60 && notGt c) eqn:Ehead.
      * destruct (splitOn [62%N] s') as [[body s2]|] eqn:Esplit.
        -- (* a tag: the walk goes on after its [>] *)
           apply splitOn_spec in Esplit. subst s'.
           cbn [pos app].
           destruct (n + 2 + length body + 1 - n) as [|k] eqn:Ek; [lia|].
           rewrite (replaceAllFrom_skip false re_tag [] (c :: body ++ [62%N]) s2);
             [ apply IH
             | cbn [app]; now rewrite <- app_assoc
             | cbn [length]; rewrite length_app; simpl; lia ].
           simpl in Hlen. rewrite !length_app in Hlen. simpl in Hlen. lia.
        -- (* a [<] without a [>] after it *)
           cbn [anySuffix]. rewrite IH by (simpl in Hlen |- *; lia).
           rewrite orb_false_r.
           apply andb_true_iff in Ehead. destruct Ehead as [_ Hc].
           apply splitOn_gt_none in Esplit. apply existsb_not_In in Esplit.
           unfold tagAt.
           destruct (replaceAllFrom false re_tag [] 0 (S n) (Some c0) (c :: s'))
             as [|d out] eqn:Eout; [reflexivity|].
           assert (Hno : existsb (N.eqb 62) out = false).
           { apply existsb_not_In. intros Hin.
             assert (Hin' : In 62%N (c :: s')).
             { eapply replaceAllFrom_In. rewrite Eout. now right. }
             destruct Hin' as [E|Hin']; [subst c; discriminate Hc | contradiction]. }
           rewrite Hno. now rewrite andb_false_r.
      * (* no tag starts here *)
        cbn [anySuffix]. rewrite IH by (simpl in Hlen |- *; lia).
        rewrite orb_false_r. unfold tagAt.
        destruct (replaceAllFrom false re_tag [] 0 (S n) (Some c0) (c :: s'))
          as [|d out] eqn:Eout; [reflexivity|].
        destruct (N.eqb c0 60) eqn:E0; [|reflexivity].
        cbn [andb] in Ehead.
        (* the next code unit is [>], and it stays in place *)
        unfold notGt in Ehead. apply negb_false_iff in Ehead.
        apply N.eqb_eq in Ehead. subst c.
        cbn [replaceAllFrom] in Eout. rewrite matchAt_tag in Eout.
        assert (Hd : d = 62%N).
        { destruct s' as [|c1 s'']; [now injection Eout|].
          change (N.eqb 62 60) with false in Eout. cbn [andb] in Eout.
          now injection Eout. }
        subst d. reflexivity.
Qed.

Lemma tagAt_app (t z : str) : tagAt t = true -> tagAt (t ++ z) = true.
Proof.
  destruct t as [|c0 [|c t']]; try discriminate. cbn [tagAt app].
  rewrite existsb_app. intros H. apply andb_true_iff in H.
  destruct H as [-> ->]. reflexivity.
Qed.

Lemma anySuffix_false_suffix (P : str -> bool) (x t : str) :
  anySuffix P (x ++ t) = false -> anySuffix P t = false.
Proof.
  intros H. destruct (anySuffix P t) eqn:E; [|reflexivity].
  apply anySuffix_true_iff in E. destruct E as [pre [u [-> Hu]]].
  assert (Ht : anySuffix P (x ++ pre ++ u) = true).
  { apply anySuffix_true_iff. exists (x ++ pre), u. now rewrite app_assoc. }
  congruence.
Qed.

Lemma tagFree_prefix (p z : str) :
  anySuffix tagAt (p ++ z) = false -> anySuffix tagAt p = false.
Proof.
  intros H. destruct (anySuffix tagAt p) eqn:E; [|reflexivity].
  apply anySuffix_true_iff in E. destruct E as [pre [u [-> Hu]]].
  assert (Ht : anySuffix tagAt ((pre ++ u) ++ z) = true).
  { apply anySuffix_true_iff. exists pre, (u ++ z).
    split; [now rewrite app_assoc | now apply tagAt_app]. }
  congruence.
Qed.

Lemma trimStart_suffix (s : str) : exists x, s = x ++ trimStart s.
Proof.
  induction s as [|c s [x IH]]; [now exists []|]. simpl.
  destruct (isWhiteSpace c).
  - exists (c :: x). simpl. now f_equal.
  - now exists [].
Qed.

Lemma trimEnd_prefix (s : str) : exists z, s = trimEnd s ++ z.
Proof.
  unfold trimEnd. destruct (trimStart_suffix (rev s)) as [x Hx].
  exists (rev x). rewrite <- rev_app_distr, <- Hx. now rewrite rev_involutive.
Qed.

(** Trimming a text without tags leaves a text without tags. *)
Lemma trim_tagFree (s : str) : tagFree s -> tagFree (trim s).
Proof.
  unfold tagFree. rewrite !test_tag. intros H. unfold trim.
  destruct (trimEnd_prefix (trimStart s)) as [z Hz].
  apply (tagFree_prefix _ z). rewrite <- Hz.
  destruct (trimStart_suffix s) as [x Hx].
  apply (anySuffix_false_suffix _ x). now rewrite <- Hx.
Qed.

(** [stripTags] strips all tags: no part of its result matches the tag
    pattern. *)
Lemma stripTags_tagFree (html : str) : tagFree (stripTags html).
Proof.
  unfold stripTags. apply trim_tagFree. unfold tagFree, replaceAll.
  rewrite test_tag. now apply (replaceAll_tag_free (length html)).
Qed.

(** * The classifier *)

(** ** The vocabularies of the rules *)

(** The words that keep rule 7 from firing are among those of rule 8. *)
Lemma dosingOnly_dosing (h : str) :
  test true re_dosingOnly h = true -> test true re_dosing h = true.
Proof.
  unfold re_dosingOnly, re_dosing. rewrite !test_oneOf.
  apply anySuffix_mono. intros t. apply existsb_incl.
  intros w Hw. simpl in Hw. simpl. tauto.
Qed.

(** A heading that opens with a question word and a white space passes the
    test of the question-word rule. *)
Lemma questionWord_opens (w : string) (c : code) (tail : str) :
  In w questionWords -> isWhiteSpace c = true ->
  test true re_questionWord (lit w ++ c :: tail) = true.
Proof.
  intros Hw Hc. unfold test, regexMatch.
  destruct (matchAt true re_questionWord 0 None (lit w ++ c :: tail)) as [e|] eqn:E.
  - now rewrite (searchFrom_here _ _ _ _ _ _ E).
  - exfalso. unfold matchAt in E. apply hd_error_none_nil in E. revert E.
    unfold re_questionWord. cbn [rmatch pos flat_map]. rewrite app_nil_r.
    set (st0 := MState 0 None (lit w ++ c :: tail) []).
    pose proof (@rmatch_oneOf_In true questionWords w st0 Hw) as Hin.
    cbn [rest st0] in Hin. specialize (Hin (litAt_app _ _ _)).
    rewrite skipn_length_app in Hin.
    eapply flat_map_nonempty.
    + apply in_map. exact Hin.
    + cbn [rmatch rest]. rewrite Hc. discriminate.
Qed.

(** ** Lower-casing and trimming keep the last character in place *)

Ltac decide_cmp :=
  repeat match goal with
  | |- context [N.leb ?a ?b] =>
      let H := fresh in
      first [ assert (H : N.leb a b = true) by (apply N.leb_le; lia)
            | assert (H : N.leb a b = false) by (apply N.leb_gt; lia) ];
      rewrite H; clear H
  | |- context [N.eqb ?a ?b] =>
      let H := fresh in
      first [ assert (H : N.eqb a b = true) by (apply N.eqb_eq; lia)
            | assert (H : N.eqb a b = false) by (apply N.eqb_neq; lia) ];
      rewrite H; clear H
  end.

Lemma lowerUnit_cases (c : code) :
  lowerUnit c = c \/
  (lowerUnit c = (c + 32)%N /\ (65 <= c <= 90 \/ 192 <= c <= 222)%N).
Proof.
  unfold lowerUnit, inRange.
  destruct (N.leb_spec 65 c), (N.leb_spec c 90); simpl; try (right; split; [reflexivity|lia]).
  all: destruct (N.leb_spec 192 c), (N.leb_spec c 222); simpl; auto.
  all: destruct (N.eqb c 215); simpl; auto.
  all: right; split; [reflexivity|lia].
Qed.

Lemma lowerUnit_whiteSpace (c : code) :
  isWhiteSpace (lowerUnit c) = isWhiteSpace c.
Proof.
  destruct (lowerUnit_cases c) as [->|[-> H]]; [reflexivity|].
  unfold isWhiteSpace, inRange. destruct H; decide_cmp; reflexivity.
Qed.

Lemma lowerUnit_question (c : code) : lowerUnit c = 63%N -> c = 63%N.
Proof.
  destruct (lowerUnit_cases c) as [->|[-> H]]; [auto|]. lia.
Qed.

Lemma trimStart_last (s : str) (c : code) :
  isWhiteSpace c = false -> exists y, trimStart (s ++ [c]) = y ++ [c].
Proof.
  intros Hc. induction s as [|x s IH]; simpl.
  - rewrite Hc. now exists [].
  - destruct (isWhiteSpace x); [exact IH|]. now exists (x :: s).
Qed.

Lemma trim_last (s : str) (c : code) :
  isWhiteSpace c = false -> exists y, trim (s ++ [c]) = y ++ [c].
Proof.
  intros Hc. destruct (trimStart_last s c Hc) as [y Hy].
  exists y. unfold trim, trimEnd. rewrite Hy, rev_app_distr. simpl.
  rewrite Hc. simpl. now rewrite rev_involutive.
Qed.

Lemma endsWith_last (y : str) (c x : code) :
  endsWith (y ++ [c]) [x] = N.eqb x c.
Proof.
  unfold endsWith. rewrite rev_app_distr. simpl.
  destruct (rev y); apply andb_true_r.
Qed.

(** ** The rules *)

(** The scenarios of the specification that name a question. *)
Example benefits_of_creatine_loading :
  headingToQuestion (lit "Benefits of Creatine Loading") (lit "dosing") =
  lit "What are the benefits of creatine loading?".
Proof. vm_compute. reflexivity. Qed.

Example creatine_vs_beta_alanine :
  headingToQuestion (lit "Creatine vs Beta-Alanine") (lit "comparisons") =
  lit "How does creatine vs beta-alanine compare?".
Proof. vm_compute. reflexivity. Qed.

Example is_creatine_safe_for_the_kidneys :
  headingToQuestion (lit "Is Creatine Safe for the Kidneys?") (lit "safety") =
  lit "Is Creatine Safe for the Kidneys?".
Proof. vm_compute. reflexivity. Qed.

(** The cleaned form loses the article and the subtitle; a dash of the
    keyboard is no separator, and a subtitle ends at the end of the text,
    not of the line. *)
Example cleaned_forms :
  cleanedForm (lit "The Loading Phase: What to Expect") = lit "Loading Phase" /\
  cleanedForm (lit "An Overview - of Creatine") = lit "Overview - of Creatine" /\
  cleanedForm (lit "Another Look") = lit "Another Look" /\
  cleanedForm (lit "Dose: low" ++ nl ++ lit "Timing " ++ [8212%N] ++ lit " late") =
  lit "Dose: low" ++ nl ++ lit "Timing".
Proof. vm_compute. repeat split; reflexivity. Qed.

(** ** The classifier and the heap *)

(** A pattern object without the [g] flag, just made: [test] is the test
    of the pattern from the start of the text, and the heap stays as it
    is. *)
Lemma regexTest_fresh (hp : heap) (r : regex) (ic : bool) (s : str) :
  regexTest (length hp) s (hp ++ [RegExp.mk r ic false 0]) =
  (test ic r s, hp ++ [RegExp.mk r ic false 0]).
Proof.
  unfold regexTest, bind, regexExec, ret.
  rewrite nth_error_app2, Nat.sub_diag by lia.
  cbn [nth_error RegExp.global RegExp.ignoreCase RegExp.source Nat.ltb Nat.leb
       unitBefore skipn].
  unfold test, regexMatch.
  destruct (searchFrom ic r 0 None s); reflexivity.
Qed.

Lemma regexReplace_fresh (hp : heap) (r : regex) (ic : bool) (repl s : str) :
  regexReplace (length hp) repl s (hp ++ [RegExp.mk r ic false 0]) =
  (replaceFirst ic r repl s, hp ++ [RegExp.mk r ic false 0]).
Proof.
  unfold regexReplace, regexExec.
  rewrite nth_error_app2, Nat.sub_diag by lia.
  cbn [nth_error RegExp.global RegExp.ignoreCase RegExp.source Nat.ltb Nat.leb
       unitBefore skipn].
  unfold replaceFirst, regexMatch.
  destruct (searchFrom ic r 0 None s); reflexivity.
Qed.

(** One more object on a heap that has grown. *)
Lemma heap_grown (hp made : heap) (R : RegExp.t) :
  (hp ++ made) ++ [R] = hp ++ (made ++ [R]).
Proof. now rewrite app_assoc. Qed.

(** The heap a call leaves behind is the heap it found with the pattern
    objects it made. *)
Ltac heap_grew :=
  rewrite <- ?app_assoc; eexists; reflexivity.

(** A call of the classifier on any heap: it returns what the function
    [headingToQuestion] says, and leaves behind the heap it found with the
    pattern objects it made. *)
Lemma headingToQuestionOnHeap_runs (heading category : str) (hp : heap) :
  exists made,
    headingToQuestionOnHeap heading category hp =
    (headingToQuestion heading category, hp ++ made).
Proof.
  unfold headingToQuestionOnHeap, headingToQuestion, cleanedForm.
  set (h := trim (toLowerCase heading)).
  destruct (endsWith h (lit "?")); [exists []; now rewrite app_nil_r|].
  cbv beta iota delta [bind regexLiteral ret].
  rewrite !regexReplace_fresh. cbv beta iota.
  rewrite regexTest_fresh. cbv beta iota.
  destruct (test true re_questionWord h); cbv beta iota; [heap_grew|].
  rewrite regexTest_fresh. cbv beta iota.
  destruct (test true re_comparison h); cbv beta iota; [heap_grew|].
  rewrite regexTest_fresh. cbv beta iota.
  destruct (test true re_action h); cbv beta iota; [heap_grew|].
  rewrite regexTest_fresh. cbv beta iota.
  destruct (test true re_plural h); cbv beta iota; [heap_grew|].
  rewrite regexTest_fresh. cbv beta iota.
  destruct (test true re_and h); cbv beta iota.
  - rewrite regexTest_fresh. cbv beta iota.
    destruct (test true re_dosingOnly h); cbn [negb andb]; cbv beta iota.
    + rewrite regexTest_fresh. cbv beta iota.
      destruct (test true re_dosing h); cbv beta iota; [heap_grew|].
      rewrite regexTest_fresh. cbv beta iota.
      destruct (test true re_safety h); cbv beta iota; heap_grew.
    + heap_grew.
  - cbn [andb]. rewrite regexTest_fresh. cbv beta iota.
    destruct (test true re_dosing h); cbv beta iota; [heap_grew|].
    rewrite regexTest_fresh. cbv beta iota.
    destruct (test true re_safety h); cbv beta iota; heap_grew.
Qed.

(** C9.  The classifier is deterministic and reads the heading only.  A
    call may find any heap of pattern objects, left by whatever ran
    before, and be given any category: the question it returns is the
    same, the one that the function [headingToQuestion] of the heading
    gives; and the call leaves the pattern objects it found as they were.
    So two calls with the same heading, one after the other or not,
    return the same question. *)
Theorem headingToQuestion_is_deterministic :
  forall (heading category1 category2 : str) (heap1 heap2 : heap),
    fst (headingToQuestionOnHeap heading category1 heap1) =
    fst (headingToQuestionOnHeap heading category2 heap2) /\
    fst (headingToQuestionOnHeap heading category1 heap1) =
    headingToQuestion heading category1 /\
    fst (headingToQuestionOnHeap heading category2
           (snd (headingToQuestionOnHeap heading category1 heap1))) =
    fst (headingToQuestionOnHeap heading category1 heap1) /\
    exists made,
      snd (headingToQuestionOnHeap heading category1 heap1) = heap1 ++ made.
Proof.
  intros heading category1 category2 heap1 heap2.
  destruct (headingToQuestionOnHeap_runs heading category1 heap1) as [made1 E1].
  destruct (headingToQuestionOnHeap_runs heading category2 heap2) as [made2 E2].
  destruct (headingToQuestionOnHeap_runs heading category2 (heap1 ++ made1))
    as [made3 E3].
  rewrite E1, E2. cbn [fst snd]. rewrite E3. cbn [fst].
  repeat split. now exists made1.
Qed.

(** A pattern object with the [g] flag that two tests share tells them
    apart: the second test starts where the first match ended. *)
Example global_pattern_remembers :
  fst ((let* faq := regexLiteral re_faqHeading true true in
        let* first := regexTest faq (lit "faq") in
        let* second := regexTest faq (lit "faq") in
        ret (first, second)) []) = (true, false).
Proof. vm_compute. reflexivity. Qed.

(** The classifier of the model is the classifier with the lower-casing of
    the model. *)
Lemma headingToQuestionWith_toLowerCase (heading category : str) :
  headingToQuestionWith toLowerCase heading category =
  headingToQuestion heading category.
Proof. reflexivity. Qed.

(** C2, as the code has it.  Let [h] be the heading lower-cased and
    trimmed, whatever the lower-casing makes of it, and take a heading
    whose [h] no rule before rule 7 matches and holds "and" as a word of
    its own.  When [h] also holds one of dosing, dose, protocol anywhere,
    the heading gets the rule-8 question; when it holds none of them, it
    gets the relationship question of rule 7, whatever other word of rule
    8 (timing, loading, cycle, schedul) it holds. *)
Theorem and_with_dosing_word :
  forall (lower : str -> str) (heading category : str),
    let h := trim (lower heading) in
    let lc := lower (cleanedForm heading) in
    endsWith h (lit "?") = false ->
    test true re_questionWord h = false ->
    test true re_comparison h = false ->
    test true re_action h = false ->
    test true re_plural h = false ->
    wordOccursNoCase (lit "and") h ->
    ((exists w, In w dosingOnlyWords /\ occursNoCase (lit w) h) ->
     headingToQuestionWith lower heading category =
     lit "What is the recommended " ++ lc ++ lit "?") /\
    ((forall w, In w dosingOnlyWords -> ~ occursNoCase (lit w) h) ->
     headingToQuestionWith lower heading category =
     lit "What is the relationship between " ++ lc ++ lit "?").
Proof.
  intros lower heading category h lc H1 H3 H4 H5 H6 Hand.
  assert (Ht : test true re_and h = true) by now apply test_word.
  unfold headingToQuestionWith. fold h. fold lc.
  rewrite H1, H3, H4, H5, H6, Ht. split.
  - intros Hw. assert (Hd : test true re_dosingOnly h = true)
      by now apply test_oneOf_occurs.
    rewrite Hd. simpl. now rewrite (dosingOnly_dosing h Hd).
  - intros Hnone. destruct (test true re_dosingOnly h) eqn:Hd; [|reflexivity].
    apply test_oneOf_occurs in Hd. destruct Hd as [w [Hw Ho]].
    now destruct (Hnone w Hw).
Qed.

(** "Dosing and Timing" reaches rule 8: with the lower-casing of the model,
    which is the script's on this heading. *)
Lemma and_with_dosing_word_witness :
  headingToQuestion (lit "Dosing and Timing") (lit "dosing") =
  lit "What is the recommended dosing and timing?".
Proof.
  refine (proj1 (and_with_dosing_word toLowerCase (lit "Dosing and Timing")
                   (lit "dosing") eq_refl eq_refl eq_refl eq_refl eq_refl _) _).
  - exists (lit "dosing "), (lit "and"), (lit " timing").
    repeat split; reflexivity.
  - exists "dosing". split; [simpl; tauto|].
    exists [], (lit "dosing"), (lit " and timing"). split; reflexivity.
Defined.

(** C2 fails on its own example: "strategies" is a word of rule 6, which
    stands before rules 7 and 8. *)
Lemma dosing_and_timing_strategies_is_rule_6 :
  test true re_plural (tested (lit "Dosing and Timing Strategies")) = true /\
  headingToQuestion (lit "Dosing and Timing Strategies") (lit "dosing") =
  lit "What are the dosing and timing strategies?" /\
  str_eqb (headingToQuestion (lit "Dosing and Timing Strategies") (lit "dosing"))
          (lit "What is the recommended dosing and timing strategies?") = false.
Proof. repeat split; vm_compute; reflexivity. Qed.

(** C3, as the code has it.  The question-word rule reads the lower-cased,
    trimmed heading itself, not the cleaned form: a heading whose tested
    text does not end in a question mark and opens with a question word
    followed by white space is returned with a question mark appended. *)
Theorem question_word_heading :
  forall (heading category : str) (w : string) (c : code) (tail : str),
    endsWith (tested heading) (lit "?") = false ->
    In w questionWords ->
    isWhiteSpace c = true ->
    tested heading = lit w ++ c :: tail ->
    headingToQuestion heading category = heading ++ lit "?".
Proof.
  intros heading category w c tail Hend Hw Hc Hh.
  unfold headingToQuestion. fold (tested heading). rewrite Hend, Hh.
  now rewrite (questionWord_opens w c tail Hw Hc).
Qed.

(** "How Creatine Works" opens with a question word. *)
Lemma question_word_heading_witness :
  headingToQuestion (lit "How Creatine Works") (lit "science") =
  lit "How Creatine Works?".
Proof.
  apply (question_word_heading (lit "How Creatine Works") (lit "science")
           "how" 32%N (lit "creatine works")).
  - reflexivity.
  - simpl. tauto.
  - reflexivity.
  - reflexivity.
Defined.

(** C3 fails where only the cleaned form opens with a question word: the
    article of "The How of Creatine" is stripped for the cleaned form, but
    the rule is tested on the heading with its article. *)
Lemma question_word_after_article :
  endsWith (lit "The How of Creatine") (lit "?") = false /\
  cleanedForm (lit "The How of Creatine") = lit "How of Creatine" /\
  headingToQuestion (lit "The How of Creatine") (lit "science") =
  lit "What is the how of creatine?" /\
  str_eqb (headingToQuestion (lit "The How of Creatine") (lit "science"))
          (lit "The How of Creatine?") = false.
Proof. repeat split; vm_compute; reflexivity. Qed.

Lemma app_question (a b : str) : exists body, a ++ b ++ lit "?" = body ++ lit "?".
Proof. exists (a ++ b). now rewrite app_assoc. Qed.

(** When rule 1 fires on a heading that does not end in white space, the
    heading ends in a question mark. *)
Lemma rule1_question_mark (pre : str) (c : code) :
  isWhiteSpace c = false ->
  endsWith (tested (pre ++ [c])) (lit "?") = true ->
  c = 63%N.
Proof.
  intros Hc E1. unfold tested, toLowerCase in E1. rewrite map_app in E1.
  simpl in E1.
  assert (Hl : isWhiteSpace (lowerUnit c) = false)
    by now rewrite lowerUnit_whiteSpace.
  destruct (trim_last (map lowerUnit pre) (lowerUnit c) Hl) as [y Hy].
  rewrite Hy in E1. change (lit "?") with [63%N] in E1.
  rewrite endsWith_last in E1. apply N.eqb_eq in E1.
  symmetry in E1. now apply lowerUnit_question in E1.
Qed.

(** Every rule after rule 1 writes a question mark at the end. *)
Lemma later_rules_question_mark (heading category : str) :
  endsWith (tested heading) (lit "?") = false ->
  exists body, headingToQuestion heading category = body ++ lit "?".
Proof.
  intros E1. unfold headingToQuestion. fold (tested heading). rewrite E1.
  set (lc := toLowerCase (cleanedForm heading)).
  repeat match goal with
  | |- context [if ?b then _ else _] => destruct b
  end.
  - now exists heading.
  - change (lit " compare?") with (lit " compare" ++ lit "?").
    rewrite (app_assoc lc). apply app_question.
  - change (lit " work?") with (lit " work" ++ lit "?").
    rewrite (app_assoc lc). apply app_question.
  - exists (lit "What are the " ++ lc). now rewrite app_assoc.
  - exists (lit "What is the relationship between " ++ lc). now rewrite app_assoc.
  - exists (lit "What is the recommended " ++ lc). now rewrite app_assoc.
  - change (lit " safe?") with (lit " safe" ++ lit "?").
    rewrite (app_assoc lc). apply app_question.
  - exists (lit "What is the " ++ lc). now rewrite app_assoc.
Qed.

Lemma trimStart_map_lowerUnit (s : str) :
  trimStart (map lowerUnit s) = map lowerUnit (trimStart s).
Proof.
  induction s as [|c s IH]; [reflexivity|]. cbn [map trimStart].
  rewrite lowerUnit_whiteSpace. now destruct (isWhiteSpace c).
Qed.

Lemma trim_toLowerCase (s : str) : trim (toLowerCase s) = toLowerCase (trim s).
Proof.
  unfold trim, trimEnd, toLowerCase.
  now rewrite trimStart_map_lowerUnit, <- map_rev, trimStart_map_lowerUnit, map_rev.
Qed.

(** The lower-casing of the model keeps a final question mark in place. *)
Lemma toLowerCase_keepsFinalQuestionMark : keepsFinalQuestionMark toLowerCase.
Proof.
  intros s. rewrite trim_toLowerCase. unfold toLowerCase.
  induction (trim s) as [|x t _] using rev_ind; [reflexivity|].
  rewrite map_app. cbn [map]. change (lit "?") with [63%N].
  rewrite !endsWith_last.
  destruct (N.eqb_spec 63 x) as [<-|Hx]; [reflexivity|].
  apply N.eqb_neq. intros Hl. symmetry in Hl. apply lowerUnit_question in Hl.
  now apply Hx.
Qed.

(** Every rule after rule 1 writes a question mark at the end, whatever
    the lower-casing. *)
Lemma later_rules_write_question_mark (lower : str -> str)
    (heading category : str) :
  endsWith (trim (lower heading)) (lit "?") = false ->
  exists body, headingToQuestionWith lower heading category = body ++ lit "?".
Proof.
  intros E1. unfold headingToQuestionWith. rewrite E1.
  set (lc := lower (cleanedForm heading)).
  repeat match goal with
  | |- context [if ?b then _ else _] => destruct b
  end.
  - now exists heading.
  - change (lit " compare?") with (lit " compare" ++ lit "?").
    rewrite (app_assoc lc). apply app_question.
  - change (lit " work?") with (lit " work" ++ lit "?").
    rewrite (app_assoc lc). apply app_question.
  - exists (lit "What are the " ++ lc). now rewrite app_assoc.
  - exists (lit "What is the relationship between " ++ lc). now rewrite app_assoc.
  - exists (lit "What is the recommended " ++ lc). now rewrite app_assoc.
  - change (lit " safe?") with (lit " safe" ++ lit "?").
    rewrite (app_assoc lc). apply app_question.
  - exists (lit "What is the " ++ lc). now rewrite app_assoc.
Qed.

(** C4, as the code has it.  The classifier returns a non-empty string for
    every heading, the empty one included.  The string ends in a question
    mark unless the heading, trimmed, ends in a question mark and the
    heading itself does not, that is, unless white space follows the last
    question mark of the heading: rule 1 returns such a heading as it is.
    This holds for every lower-casing that keeps a final question mark in
    place. *)
Theorem headingToQuestion_ends_in_question_mark :
  forall lower : str -> str,
    keepsFinalQuestionMark lower ->
    forall heading category : str,
      let question := headingToQuestionWith lower heading category in
      question <> [] /\
      endsWith question (lit "?") =
      negb (endsWith (trim heading) (lit "?")) || endsWith heading (lit "?") /\
      (endsWith (trim heading) (lit "?") = true -> question = heading).
Proof.
  intros lower Hkeep heading category question.
  pose proof (Hkeep heading) as Hh.
  destruct (endsWith (trim heading) (lit "?")) eqn:Et.
  - assert (Eq : question = heading).
    { unfold question, headingToQuestionWith. now rewrite Hh. }
    rewrite Eq. split; [|split; [reflexivity | reflexivity]].
    intros ->. discriminate Et.
  - destruct (later_rules_write_question_mark lower heading category Hh)
      as [body Hbody].
    fold question in Hbody. rewrite Hbody. split; [|split].
    + destruct body; discriminate.
    + change (lit "?") with [63%N]. now rewrite endsWith_last.
    + discriminate.
Qed.

Lemma trimStart_head (s : str) :
  trimStart s = [] \/
  exists c t, trimStart s = c :: t /\ isWhiteSpace c = false.
Proof.
  induction s as [|x s IH]; simpl; [now left|].
  destruct (isWhiteSpace x) eqn:E; [exact IH|]. right. now exists x, s.
Qed.

(** A trimmed text is empty or ends in a character that is not white
    space. *)
Lemma trim_shape (s : str) :
  trim s = [] \/
  exists pre c, trim s = pre ++ [c] /\ isWhiteSpace c = false.
Proof.
  unfold trim, trimEnd.
  destruct (trimStart_head (rev (trimStart s))) as [->|[c [t [-> Hc]]]].
  - now left.
  - right. exists (rev t), c. now split.
Qed.

(** In the pipeline the classifier only sees trimmed headings: the question
    of every extracted section ends in a question mark. *)
Lemma extracted_questions_end_in_question_mark
    (articleHtml category : str) (s : Sec.t) :
  In s (extractH2Sections articleHtml) ->
  exists body, headingToQuestion (Sec.heading s) category = body ++ lit "?".
Proof.
  intros Hs. apply extractH2Sections_In in Hs.
  destruct Hs as [m [_ [Hh _]]]. rewrite Hh.
  destruct (trim_shape (stripTags (group 1 m))) as [->|[pre [c [-> Hc]]]].
  - now apply later_rules_question_mark.
  - destruct (endsWith (tested (pre ++ [c])) (lit "?")) eqn:E1.
    + exists pre. unfold headingToQuestion. fold (tested (pre ++ [c])).
      rewrite E1. now rewrite (rule1_question_mark pre c Hc E1).
    + now apply later_rules_question_mark.
Qed.

(** "Kidney Function " ends in a space, and its question in a question
    mark. *)
Lemma headingToQuestion_ends_in_question_mark_witness :
  headingToQuestion (lit "Kidney Function ") (lit "safety") =
  lit "Is kidney function  safe?" /\
  endsWith (headingToQuestion (lit "Kidney Function ") (lit "safety")) (lit "?") =
  true.
Proof.
  split; [vm_compute; reflexivity|].
  exact (proj1 (proj2 (headingToQuestion_ends_in_question_mark toLowerCase
                         toLowerCase_keepsFinalQuestionMark
                         (lit "Kidney Function ") (lit "safety")))).
Defined.

(** C4 fails on a heading with white space after its question mark: it is
    returned as it is, and its last character is the space. *)
Lemma trailing_space_after_question_mark :
  headingToQuestion (lit "Is it safe? ") (lit "safety") = lit "Is it safe? " /\
  endsWith (headingToQuestion (lit "Is it safe? ") (lit "safety")) (lit "?") = false.
Proof. split; vm_compute; reflexivity. Qed.

(** * The synthesizer *)

(** The patterns that the script applies with the [g] flag never match
    the empty string. *)
Lemma global_patterns_not_empty :
  (forall n pv s e, matchAt false re_tag n pv s = Some e -> n < pos e) /\
  (forall n pv s e, matchAt false re_faqSection n pv s = Some e -> n < pos e) /\
  (forall n pv s e, matchAt false re_faqSchema n pv s = Some e -> n < pos e).
Proof.
  split; [|split]; intros n pv s e H.
  - rewrite matchAt_tag in H. destruct s as [|c0 [|c s']]; try discriminate.
    destruct (N.eqb c0 60 && notGt c); [|discriminate].
    destruct (splitOn [62%N] s') as [[body s2]|]; [|discriminate].
    injection H as <-. simpl. lia.
  - apply matchAt_In in H. unfold re_faqSection in H.
    apply seq_lit_moves in H. simpl in H. lia.
  - apply matchAt_In in H. unfold re_faqSchema in H.
    apply seq_lit_moves in H. simpl in H. lia.
Qed.

(** [stripExistingFaq] removes, for each of its two patterns in turn, the
    leftmost match and then the leftmost match after it, to the end. *)
Lemma stripExistingFaq_search (r : regex) (s : str) (n : nat) (pv : option code) :
  r = re_faqSection \/ r = re_faqSchema ->
  replaceAllFrom false r [] 0 n pv s =
  match searchFrom false r n pv s with
  | Some m =>
      firstn (index m - n) s ++
      replaceAllFrom false r [] 0 (pos (final m)) (prev (final m)) (rest (final m))
  | None => s
  end.
Proof.
  intros Hr.
  assert (Hne : forall n pv s e, matchAt false r n pv s = Some e -> n < pos e).
  { destruct Hr as [->| ->].
    - exact (proj1 (proj2 global_patterns_not_empty)).
    - exact (proj2 (proj2 global_patterns_not_empty)). }
  now rewrite (replaceAllFrom_search false r Hne []).
Qed.

(** C1, evaluated.  On [pagePlain] the second run does not reproduce the
    first: the strip removes the white space the first run put before the
    FAQ block, the insertion adds it again after the white space it put
    before the closing tag, and the page grows by a blank line.  On
    [pageWithArticleSchema] the second run deletes the page's own
    structured-data block together with the FAQ one. *)
Theorem second_run_differs :
  let first := injectFaq pagePlain (lit "dosing") (lit "loading") in
  let second := injectFaq (Out.html first) (lit "dosing") (lit "loading") in
  let first' := injectFaq pageWithArticleSchema (lit "dosing") (lit "loading") in
  let second' := injectFaq (Out.html first') (lit "dosing") (lit "loading") in
  Out.injected first = true /\ Out.injected second = true /\
  str_eqb (Out.html second) (Out.html first) = false /\
  length (Out.html second) = length (Out.html first) + 7 /\
  countOcc (q "'@type': 'Article'") (Out.html first') = 1 /\
  countOcc (q "'@type': 'Article'") (Out.html second') = 0.
Proof. vm_compute. repeat split; reflexivity. Qed.

Lemma toQaPairs_length (sections : list Sec.t) (category : str) :
  length (toQaPairs sections category) = Nat.min (length sections) 5.
Proof.
  unfold toQaPairs. rewrite length_map, length_firstn. apply Nat.min_comm.
Qed.

Lemma injectFaq_skips (html category slug : str) :
  (articleOf (stripExistingFaq html) = None \/
   exists a, articleOf (stripExistingFaq html) = Some a /\
             length (extractH2Sections a) < 3) ->
  injectFaq html category slug = Out.mk (stripExistingFaq html) false.
Proof.
  unfold articleOf, injectFaq.
  destruct (regexMatch false re_article (stripExistingFaq html)) as [m|]; simpl.
  - intros [H|[a [Ha Hlt]]]; [discriminate|]. injection Ha as <-.
    apply Nat.ltb_lt in Hlt. now rewrite Hlt.
  - reflexivity.
Qed.


(** * The batch *)

Lemma str_eqb_eq (a b : str) : str_eqb a b = true <-> a = b.
Proof.
  revert b. induction a as [|x a IH]; intros [|y b]; simpl;
    try (split; congruence).
  rewrite andb_true_iff, N.eqb_eq, IH. split.
  - intros [-> ->]. reflexivity.
  - intros H. injection H as -> ->. auto.
Qed.

Section Untouched.

Variables dir0 file0 data : str.
Hypothesis not_injected :
  Out.injected (injectFaq data dir0 (slugOf file0)) = false.

Lemma fileStep_keeps (dir file : str) (count : nat) (st : runState) :
  kept dir0 file0 data st ->
  kept dir0 file0 data (finalState (fileStep dir file count st)).
Proof.
  unfold kept, fileStep, readFileSync, writeFileSync. intros [Hk Hw].
  destruct (files (disk st) dir file) as [html|message] eqn:Eread; simpl; auto.
  destruct (Out.injected (injectFaq html dir (slugOf file))) eqn:Einj; simpl; auto.
  assert (Hother : (dir0, file0) <> (dir, file)).
  { intros Hsame. injection Hsame as -> ->.
    rewrite Hk in Eread. injection Eread as <-. congruence. }
  assert (Hw' : ~ In (dir0, file0) (written st ++ [(dir, file)])).
  { intros Hin. apply in_app_or in Hin. destruct Hin as [Hin|[Hin|[]]]; auto. }
  destruct (writeError (disk st) dir file); simpl; auto.
  split; [|exact Hw'].
  destruct (str_eqb dir0 dir && str_eqb file0 file) eqn:Esame; auto.
  apply andb_true_iff in Esame. destruct Esame as [Hd Hf].
  apply str_eqb_eq in Hd. apply str_eqb_eq in Hf. subst dir file.
  now contradiction Hother.
Qed.

Lemma fileLoop_keeps (dir : str) (fileNames : list str) :
  forall (count : nat) (st : runState),
    kept dir0 file0 data st ->
    kept dir0 file0 data (finalState (fileLoop dir fileNames count st)).
Proof.
  induction fileNames as [|file more IH]; intros count st Hk; simpl; auto.
  pose proof (fileStep_keeps dir file count st Hk) as Hs.
  destruct (fileStep dir file count st) as [count' st'|message st']; simpl in *.
  - now apply IH.
  - exact Hs.
Qed.

Lemma dirStep_keeps (dir : str) (st : runState) :
  kept dir0 file0 data st ->
  kept dir0 file0 data (finalState (dirStep dir st)).
Proof.
  intros Hk. unfold dirStep.
  destruct (negb (existsSync (disk st) dir)); simpl; auto.
  destruct (readdirSync (disk st) dir) as [names|message]; simpl; auto.
  pose proof (fileLoop_keeps dir (filter isArticleFile names) 0 st Hk) as Hl.
  destruct (fileLoop dir (filter isArticleFile names) 0 st); simpl in *; exact Hl.
Qed.

Lemma dirLoop_keeps (dirNames : list str) :
  forall st : runState,
    kept dir0 file0 data st ->
    kept dir0 file0 data (finalState (dirLoop dirNames st)).
Proof.
  induction dirNames as [|dir more IH]; intros st Hk; simpl; auto.
  pose proof (dirStep_keeps dir st Hk) as Hs.
  destruct (dirStep dir st) as [u st'|message st']; simpl in *.
  - now apply IH.
  - exact Hs.
Qed.

End Untouched.

(** C6.  A page without an article container, or with fewer than three
    extracted sections, makes [injectFaq] report [injected = false]; [run]
    never calls [writeFileSync] on its path and leaves its text on disk as
    it was, however the run ends.  The other way round: a file that was
    written to, or whose text changed, had an article with at least three
    sections. *)
Theorem skipped_page_is_untouched :
  forall (fs : FS) (dir file data : str),
    files fs dir file = File data ->
    let stripped := stripExistingFaq data in
    let final := finalState (run fs) in
    ((articleOf stripped = None \/
      exists a, articleOf stripped = Some a /\ length (extractH2Sections a) < 3) ->
     Out.injected (injectFaq data dir (slugOf file)) = false /\
     files (disk final) dir file = File data /\
     ~ In (dir, file) (written final)) /\
    (In (dir, file) (written final) \/ files (disk final) dir file <> File data ->
     exists a, articleOf stripped = Some a /\ 3 <= length (extractH2Sections a)).
Proof.
  intros fs dir file data Hfile stripped final.
  assert (Hskip : Out.injected (injectFaq data dir (slugOf file)) = false ->
                  kept dir file data final).
  { intros Hinj. unfold final, run.
    apply (dirLoop_keeps dir file data Hinj). split; [exact Hfile|]. simpl. tauto. }
  assert (Hfew : (articleOf stripped = None \/
                  exists a, articleOf stripped = Some a /\
                            length (extractH2Sections a) < 3) ->
                 Out.injected (injectFaq data dir (slugOf file)) = false).
  { intros H. now rewrite (injectFaq_skips data dir (slugOf file) H). }
  split.
  - intros H. split; [now apply Hfew|]. now apply Hskip, Hfew.
  - intros Hchanged.
    assert (Hnot : ~ kept dir file data final).
    { intros [Hk Hw]. destruct Hchanged; contradiction. }
    destruct (articleOf stripped) as [a|] eqn:Ea.
    + exists a. split; [reflexivity|].
      destruct (Nat.lt_ge_cases (length (extractH2Sections a)) 3) as [Hlt|Hge];
        [|exact Hge].
      exfalso. apply Hnot, Hskip, Hfew. right. exists a. now split.
    + exfalso. apply Hnot, Hskip, Hfew. now left.
Qed.

(** A directory with a page of two sections and a page of three: the
    first is not written to. *)
Lemma skipped_page_is_untouched_witness :
  let fs := diskOf (lit "dosing")
              [(lit "loading.html", File pageTwoSections);
               (lit "timing.html", File pagePlain)] [] in
  Out.injected (injectFaq pageTwoSections (lit "dosing") (slugOf (lit "loading.html"))) = false /\
  files (disk (finalState (run fs))) (lit "dosing") (lit "loading.html") =
  File pageTwoSections /\
  ~ In (lit "dosing", lit "loading.html") (written (finalState (run fs))).
Proof.
  intros fs.
  refine (proj1 (skipped_page_is_untouched fs (lit "dosing") (lit "loading.html")
                   pageTwoSections _) _).
  - reflexivity.
  - right. exists (lit "<h2>Loading Phase</h2><p>Take twenty grams per day for one week.</p>" ++
                   lit "<h2>Kidney Function</h2><p>Creatinine rises without kidney damage.</p>").
    split; [vm_compute; reflexivity | vm_compute; lia].
Defined.

(** An exception of the write is caught: its message joins the error list
    and the loop goes on with the next file. *)
Lemma write_exception_is_caught (dir file html message : str) (count : nat)
    (st : runState) :
  readFileSync (disk st) dir file = Ok html ->
  Out.injected (injectFaq html dir (slugOf file)) = true ->
  writeError (disk st) dir file = Some message ->
  fileStep dir file count st =
  Finished count
    (mkRun (disk st) (written st ++ [(dir, file)]) (total st) (skipped st)
           (errors st ++ [dir ++ lit "/" ++ file ++ lit ": " ++ message])).
Proof.
  intros Hread Hinj Hwrite. unfold fileStep, writeFileSync.
  rewrite Hread. cbv zeta. now rewrite Hinj, Hwrite.
Qed.

(** An exception of the read is not: it ends the loop over the files. *)
Lemma read_exception_is_uncaught (dir file message : str) (more : list str)
    (count : nat) (st : runState) :
  readFileSync (disk st) dir file = Throw message ->
  fileLoop dir (file :: more) count st = Uncaught message st.
Proof.
  intros Hread. simpl. unfold fileStep. now rewrite Hread.
Qed.

(** C7, evaluated.  With a first entry whose read throws, [run] ends with
    that exception: no message reaches the error list, and the page after
    it is neither read nor rewritten.  With a first page whose write
    throws, the message is collected and the next page is rewritten. *)
Theorem read_failure_aborts_the_run :
  let message := lit "EISDIR: illegal operation on a directory, read" in
  let unreadable := diskOf (lit "dosing")
                      [(lit "a.html", Unreadable message);
                       (lit "b.html", File pagePlain)] [] in
  let readOnly := diskOf (lit "dosing")
                    [(lit "a.html", File pagePlain);
                     (lit "b.html", File pagePlain)] [lit "a.html"] in
  match run unreadable with
  | Uncaught thrown st =>
      thrown = message /\ errors st = [] /\ written st = [] /\
      files (disk st) (lit "dosing") (lit "b.html") = File pagePlain
  | Finished _ _ => False
  end /\
  match run readOnly with
  | Finished _ st =>
      errors st = [lit "dosing/a.html: EACCES: permission denied"] /\
      written st = [(lit "dosing", lit "a.html"); (lit "dosing", lit "b.html")] /\
      files (disk st) (lit "dosing") (lit "b.html") =
      File (Out.html (injectFaq pagePlain (lit "dosing") (lit "b")))
  | Uncaught _ _ => False
  end.
Proof. vm_compute. repeat split; reflexivity. Qed.

(** * The escaping helper *)

(** A global replace of one code unit goes through the text once and puts
    the replacement for every such code unit. *)
Lemma replaceAll_unit (x : code) (repl : str) (s : str) :
  forall (n : nat) (pv : option code),
    replaceAllFrom false (Lit [x]) repl 0 n pv s =
    flat_map (fun c => if N.eqb x c then repl else [c]) s.
Proof.
  induction s as [|c s IH]; intros n pv.
  - reflexivity.
  - cbn [replaceAllFrom flat_map]. unfold matchAt.
    cbn [rmatch pos prev rest caps matchLit]. unfold unitEq.
    destruct (N.eqb x c).
    + cbn [hd_error pos]. replace (S n - n) with 1 by lia.
      now rewrite IH.
    + cbn [hd_error]. now rewrite IH.
Qed.

Lemma flat_map_flat_map {A B C : Type} (f : A -> list B) (g : B -> list C)
    (l : list A) :
  flat_map g (flat_map f l) = flat_map (fun x => flat_map g (f x)) l.
Proof.
  induction l as [|x l IH]; simpl; [reflexivity|].
  now rewrite flat_map_app, IH.
Qed.

(** The five replacements of [escapeJsonString] are one pass: the text a
    replacement puts is not touched by a later one, because the backslash
    is replaced first. *)
Lemma escapeJsonString_flat_map (s : str) :
  escapeJsonString s = flat_map escapeUnit s.
Proof.
  unfold escapeJsonString, replaceAll, re_tabulator, re_carriageReturn,
    re_lineFeed, re_doubleQuote, re_backslash.
  rewrite !replaceAll_unit, !flat_map_flat_map.
  apply flat_map_ext. intros c. unfold escapeUnit.
  rewrite (N.eqb_sym 92 c).
  destruct (N.eqb_spec c 92) as [->|H92]; [reflexivity|].
  cbn [flat_map app]. rewrite (N.eqb_sym 34 c).
  destruct (N.eqb_spec c 34) as [->|H34]; [reflexivity|].
  cbn [flat_map app]. rewrite (N.eqb_sym 10 c).
  destruct (N.eqb_spec c 10) as [->|H10]; [reflexivity|].
  cbn [flat_map app]. rewrite (N.eqb_sym 13 c).
  destruct (N.eqb_spec c 13) as [->|H13]; [reflexivity|].
  cbn [flat_map app]. rewrite (N.eqb_sym 9 c).
  destruct (N.eqb_spec c 9) as [->|H9]; reflexivity.
Qed.

(** X1.  [escapeJsonString] does in five replacements what one pass over
    the text does: a backslash and a double quote get a backslash in
    front, a line feed, a carriage return and a tabulator become [\n],
    [\r] and [\t], every other code unit stays.  Its result holds none of
    the three control characters. *)
Theorem escapeJsonString_one_pass :
  forall s : str,
    escapeJsonString s = flat_map escapeUnit s /\
    existsb isEscapedControl (escapeJsonString s) = false.
Proof.
  intros s. split; [apply escapeJsonString_flat_map|].
  rewrite escapeJsonString_flat_map.
  induction s as [|c s IH]; [reflexivity|].
  cbn [flat_map]. rewrite existsb_app, IH, orb_false_r.
  unfold escapeUnit.
  destruct (N.eqb_spec c 92) as [->|H92]; [reflexivity|].
  destruct (N.eqb_spec c 34) as [->|H34]; [reflexivity|].
  destruct (N.eqb c 10) eqn:H10; [reflexivity|].
  destruct (N.eqb c 13) eqn:H13; [reflexivity|].
  destruct (N.eqb c 9) eqn:H9; [reflexivity|].
  cbn [existsb]. unfold isEscapedControl. now rewrite H10, H13, H9.
Qed.

(** X2.  Nothing is lost in [escapeJsonString]: reading the escapes back
    gives the text that went in, so two texts with the same result are
    the same text. *)
Theorem escapeJsonString_round_trip :
  forall s : str, unescapeJson (escapeJsonString s) = s.
Proof.
  intros s. rewrite escapeJsonString_flat_map.
  induction s as [|c s IH]; [reflexivity|].
  cbn [flat_map]. unfold escapeUnit at 1.
  destruct (N.eqb_spec c 92) as [->|H92]; [cbn -[flat_map]; now rewrite IH|].
  destruct (N.eqb_spec c 34) as [->|H34]; [cbn -[flat_map]; now rewrite IH|].
  destruct (N.eqb_spec c 10) as [->|H10]; [cbn -[flat_map]; now rewrite IH|].
  destruct (N.eqb_spec c 13) as [->|H13]; [cbn -[flat_map]; now rewrite IH|].
  destruct (N.eqb_spec c 9) as [->|H9]; [cbn -[flat_map]; now rewrite IH|].
  cbn [app unescapeJson].
  destruct (N.eqb_spec c 92) as [->|_]; [contradiction|]. now rewrite IH.
Qed.

(** X3.  On a text without surrogates and without control characters
    other than tabulator, line feed and carriage return,
    [escapeJsonString] writes what [JSON.stringify] writes between the
    quotes.  A backspace shows the limit: [JSON.stringify] escapes it, the
    helper leaves it as it is. *)
Theorem escapeJsonString_agrees_with_stringify :
  forall s : str,
    forallb plainForJson s = true ->
    quoteJSONString s = q "'" ++ escapeJsonString s ++ q "'".
Proof.
  intros s Hs. unfold quoteJSONString. do 2 f_equal.
  rewrite escapeJsonString_flat_map.
  induction s as [|c s IH]; [reflexivity|].
  cbn [forallb] in Hs. apply andb_true_iff in Hs. destruct Hs as [Hc Hs].
  specialize (IH Hs). cbn [quoteBody flat_map]. unfold escapeUnit at 1.
  rewrite IH.
  unfold plainForJson in Hc. apply andb_true_iff in Hc. destruct Hc as [Hctl Hsur].
  apply negb_true_iff, orb_false_iff in Hsur. destruct Hsur as [Hhi Hlo].
  rewrite Hhi, Hlo.
  destruct (N.eqb_spec c 8) as [->|H8]; [discriminate Hctl|].
  destruct (N.eqb_spec c 9) as [->|H9]; [reflexivity|].
  destruct (N.eqb_spec c 10) as [->|H10]; [reflexivity|].
  destruct (N.eqb_spec c 12) as [->|H12]; [discriminate Hctl|].
  destruct (N.eqb_spec c 13) as [->|H13]; [reflexivity|].
  destruct (N.eqb_spec c 34) as [->|H34]; [reflexivity|].
  destruct (N.eqb_spec c 92) as [->|H92]; [reflexivity|].
  rewrite !orb_false_r in Hctl. apply N.leb_le in Hctl.
  destruct (N.ltb_spec c 32); [lia|]. reflexivity.
Qed.

(** A text with a quotation, a backslash and a line break. *)
Lemma escapeJsonString_agrees_with_stringify_witness :
  let s := q "Take 'five' grams\day" ++ nl ++ lit "with water." in
  escapeJsonString s = q "Take \'five\' grams\\day\nwith water." /\
  quoteJSONString s = q "'" ++ escapeJsonString s ++ q "'".
Proof.
  intros s. split; [vm_compute; reflexivity|].
  apply (escapeJsonString_agrees_with_stringify s). reflexivity.
Defined.

Example backspace_is_not_escaped :
  escapeJsonString [8%N] = [8%N] /\ quoteJSONString [8%N] = q "'\b'".
Proof. vm_compute. split; reflexivity. Qed.

(** * More on the extractor *)

(** ** Stripping twice *)

(** Where the pattern matches nowhere, a global replace returns its input. *)
Lemma replaceAllFrom_no_match (ic : bool) (r : regex) (repl : str) (s : str) :
  forall (n : nat) (pv : option code),
    searchFrom ic r n pv s = None ->
    replaceAllFrom ic r repl 0 n pv s = s.
Proof.
  induction s as [|c s IH]; intros n pv H; cbn [searchFrom replaceAllFrom] in *.
  - destruct (matchAt ic r n pv []); [discriminate | reflexivity].
  - destruct (matchAt ic r n pv (c :: s)); [discriminate|].
    now rewrite IH.
Qed.

Lemma replaceAll_no_match (ic : bool) (r : regex) (repl : str) (s : str) :
  test ic r s = false -> replaceAll ic r repl s = s.
Proof.
  unfold test, regexMatch, replaceAll. intros H.
  apply replaceAllFrom_no_match.
  destruct (searchFrom ic r 0 None s); [discriminate | reflexivity].
Qed.

Lemma trimStart_fixed (c : code) (t : str) :
  isWhiteSpace c = false -> trimStart (c :: t) = c :: t.
Proof. intros H. simpl. now rewrite H. Qed.

Lemma trimStart_idempotent (s : str) : trimStart (trimStart s) = trimStart s.
Proof.
  destruct (trimStart_head s) as [->|[c [t [-> Hc]]]]; [reflexivity|].
  now apply trimStart_fixed.
Qed.

Lemma trimEnd_idempotent (s : str) : trimEnd (trimEnd s) = trimEnd s.
Proof.
  unfold trimEnd. now rewrite rev_involutive, trimStart_idempotent.
Qed.

Lemma trimEnd_head (c : code) (t : str) :
  isWhiteSpace c = false -> exists y, trimEnd (c :: t) = c :: y.
Proof.
  intros Hc. destruct (trimStart_last (rev t) c Hc) as [y Hy].
  exists (rev y). unfold trimEnd. cbn [rev]. rewrite Hy, rev_app_distr.
  reflexivity.
Qed.

(** [trim] of a trimmed text changes nothing. *)
Lemma trim_idempotent (s : str) : trim (trim s) = trim s.
Proof.
  unfold trim.
  destruct (trimStart_head s) as [->|[c [t [-> Hc]]]]; [reflexivity|].
  destruct (trimEnd_head c t Hc) as [y Hy].
  rewrite Hy, (trimStart_fixed c y Hc), <- Hy. apply trimEnd_idempotent.
Qed.

Lemma tagFree_stripTags (s : str) : tagFree s -> stripTags s = trim s.
Proof.
  intros H. unfold stripTags. now rewrite (replaceAll_no_match _ _ _ _ H).
Qed.

(** X4.  [stripTags] is idempotent, and its result is trimmed already: the
    [.trim()] that [extractH2Sections] applies to it changes nothing. *)
Theorem stripTags_idempotent :
  forall html : str,
    stripTags (stripTags html) = stripTags html /\
    trim (stripTags html) = stripTags html.
Proof.
  intros html.
  assert (Ht : trim (stripTags html) = stripTags html).
  { unfold stripTags. apply trim_idempotent. }
  split; [|exact Ht].
  rewrite (tagFree_stripTags _ (stripTags_tagFree html)). exact Ht.
Qed.

Lemma no_angle_tagFree (s : str) :
  ~ In 60%N s \/ ~ In 62%N s -> tagFree s.
Proof.
  intros H. unfold tagFree. rewrite test_tag.
  destruct (anySuffix tagAt s) eqn:E; [|reflexivity].
  exfalso. apply anySuffix_true_iff in E. destruct E as [pre [t [-> Ht]]].
  destruct t as [|c0 [|c t']]; try discriminate. cbn [tagAt] in Ht.
  apply andb_true_iff in Ht. destruct Ht as [Ht H62].
  apply andb_true_iff in Ht. destruct Ht as [H60 _].
  apply N.eqb_eq in H60. subst c0.
  apply existsb_exists in H62. destruct H62 as [x [Hx Ex]].
  apply N.eqb_eq in Ex. subst x.
  destruct H as [H|H]; apply H; apply in_or_app; right.
  - now left.
  - right. now right.
Qed.

(** X5.  Text that holds no [<], or no [>], holds no tag: [stripTags] only
    trims it. *)
Theorem stripTags_plain_text :
  forall s : str,
    ~ In 60%N s \/ ~ In 62%N s -> stripTags s = trim s.
Proof.
  intros s H. apply tagFree_stripTags. now apply no_angle_tagFree.
Qed.

(** A comparison in running text. *)
Lemma stripTags_plain_text_witness :
  stripTags (lit "  5 g > 3 g ") = lit "5 g > 3 g".
Proof.
  refine (eq_trans (stripTags_plain_text (lit "  5 g > 3 g ") _) _).
  - left. vm_compute. intuition discriminate.
  - vm_compute. reflexivity.
Defined.

(** ** The sections, said without the patterns of the loop body *)

Lemma splitOn_gt_body (s body s2 : str) :
  splitOn [62%N] s = Some (body, s2) -> existsb (N.eqb 62) body = false.
Proof.
  revert body s2. induction s as [|c s IH]; intros body s2; rewrite splitOn_eq;
    cbn [startsWith].
  - discriminate.
  - destruct (N.eqb 62 c) eqn:Ec; cbn [andb].
    + intros H. injection H as <- _. reflexivity.
    + destruct (splitOn [62%N] s) as [[a b]|]; [|discriminate].
      intros H. injection H as <- _. cbn [existsb]. rewrite Ec.
      now apply (IH a b).
Qed.

(** Inside a tag the reading goes on behind the first [>]. *)
Lemma dropTags_inside (body s2 : str) :
  existsb (N.eqb 62) body = false ->
  dropTags true (body ++ 62%N :: s2) = dropTags false s2.
Proof.
  induction body as [|x body IH]; intros H; [reflexivity|].
  cbn [existsb] in H. apply orb_false_iff in H. destruct H as [Hx Hb].
  cbn [app dropTags]. rewrite (N.eqb_sym x 62), Hx. now apply IH.
Qed.

(** [replace(/<[^>]+>/g, '')] leaves the tags out. *)
Lemma replaceAllFrom_dropTags (len : nat) :
  forall (s : str) (n : nat) (pv : option code),
    length s <= len ->
    replaceAllFrom false re_tag [] 0 n pv s = dropTags false s.
Proof.
  induction len as [|len IH]; intros s n pv Hlen.
  - destruct s; [|simpl in Hlen; lia].
    cbn [replaceAllFrom]. now rewrite matchAt_tag.
  - destruct s as [|c0 s]; [cbn [replaceAllFrom]; now rewrite matchAt_tag|].
    cbn [replaceAllFrom]. rewrite matchAt_tag.
    destruct s as [|c s'].
    + reflexivity.
    + cbn [dropTags tagAt].
      destruct (N.eqb c0 60 && notGt c) eqn:Ehead; cbn [andb].
      * destruct (splitOn [62%N] s') as [[body s2]|] eqn:Esplit.
        -- pose proof (splitOn_gt_body _ _ _ Esplit) as Hbody.
           apply splitOn_spec in Esplit. subst s'.
           replace (existsb (N.eqb 62) (body ++ [62%N] ++ s2)) with true
             by (rewrite existsb_app; cbn; now rewrite orb_true_r).
           cbn [pos app].
           destruct (n + 2 + length body + 1 - n) as [|k] eqn:Ek; [lia|].
           rewrite (replaceAllFrom_skip false re_tag [] (c :: body ++ [62%N]) s2);
             [ | cbn [app]; now rewrite <- app_assoc
               | cbn [length]; rewrite length_app; simpl; lia ].
           rewrite IH
             by (simpl in Hlen; rewrite !length_app in Hlen; simpl in Hlen; lia).
           apply andb_true_iff in Ehead. destruct Ehead as [_ Hc].
           unfold notGt in Hc. apply negb_true_iff in Hc.
           cbn [dropTags]. rewrite Hc. symmetry. now apply dropTags_inside.
        -- apply splitOn_gt_none in Esplit. rewrite Esplit.
           f_equal. apply IH. simpl in Hlen |- *. lia.
      * f_equal. apply IH. simpl in Hlen |- *. lia.
Qed.

(** [stripTags] gives the text of the markup. *)
Lemma stripTags_plainText (html : str) : stripTags html = plainText html.
Proof.
  unfold stripTags, plainText, replaceAll.
  now rewrite (replaceAllFrom_dropTags (length html)).
Qed.

Lemma anySuffix_orb (P Q : str -> bool) (s : str) :
  anySuffix (fun t => P t || Q t) s = anySuffix P s || anySuffix Q s.
Proof.
  induction s as [|c s IH]; cbn [anySuffix].
  - now rewrite !orb_false_r.
  - rewrite IH. destruct (P (c :: s)), (Q (c :: s)), (anySuffix P s); reflexivity.
Qed.

Lemma anySuffix_ext (P Q : str -> bool) (s : str) :
  (forall t, P t = Q t) -> anySuffix P s = anySuffix Q s.
Proof.
  intros H. induction s as [|c s IH]; cbn [anySuffix]; rewrite H; [reflexivity|].
  now rewrite IH.
Qed.

(** The two drop tests together. *)
Lemma drop_tests_isDropped (heading : str) :
  test true re_references heading || test true re_faqHeading heading =
  isDropped heading.
Proof.
  unfold re_references, re_faqHeading, isDropped. rewrite !test_oneOf.
  rewrite <- anySuffix_orb. apply anySuffix_ext. intros t.
  change dropWords with (["references"; "bibliography"; "sources"; "citations"] ++
                         ["frequently asked"; "faq"]).
  now rewrite existsb_app.
Qed.

Lemma sectionStep_sectionOf (m : found) : sectionStep [] m = sectionOf m.
Proof.
  unfold sectionStep, sectionOf.
  rewrite (stripTags_plainText (group 1 m)).
  assert (Ht : trim (plainText (group 1 m)) = plainText (group 1 m))
    by apply trim_idempotent.
  rewrite Ht. rewrite <- drop_tests_isDropped.
  destruct (test true re_references (plainText (group 1 m))); [reflexivity|].
  destruct (test true re_faqHeading (plainText (group 1 m))); [reflexivity|].
  cbn [orb app]. rewrite <- (regexMatch_paragraph (group 2 m)).
  destruct (regexMatch false re_paragraph (group 2 m)) as [pMatch|];
    [|reflexivity].
  cbn [option_map]. rewrite (stripTags_plainText (group 1 pMatch)).
  assert (Ha : trim (plainText (group 1 pMatch)) = plainText (group 1 pMatch))
    by apply trim_idempotent.
  now rewrite Ha.
Qed.




(** ** Articles without headings *)

(** Occurrence without regard to case, as a test. *)
Lemma occursNoCase_iff (w s : str) :
  occursNoCase w s <-> anySuffix (litAt true w) s = true.
Proof.
  rewrite anySuffix_true_iff. unfold occursNoCase. split.
  - intros [pre [mid [post [E Hm]]]]. exists pre, (mid ++ post).
    split; [exact E|]. apply litAt_nocase_iff. now exists mid, post.
  - intros [pre [t [E Ht]]]. apply litAt_nocase_iff in Ht.
    destruct Ht as [mid [post [Et Hm]]]. exists pre, mid, post.
    now rewrite E, Et.
Qed.

(** A pattern that opens with a run of pattern characters matches only
    where the run stands. *)
Lemma matchAt_opening_lit (ic : bool) (w : str) (b : regex) n pv s :
  matchAt ic (Lit w ;; b) n pv s <> None -> litAt ic w s = true.
Proof.
  unfold matchAt. rewrite rmatch_Seq. cbn [rmatch pos prev rest caps].
  rewrite matchLit_spec. destruct (litAt ic w s); [reflexivity|].
  cbn [flat_map hd_error]. congruence.
Qed.

Lemma searchFrom_none (ic : bool) (r : regex) (s : str) (n : nat) (pv : option code) :
  (forall pre t, s = pre ++ t ->
     matchAt ic r (n + length pre) (lastUnit pv pre) t = None) ->
  searchFrom ic r n pv s = None.
Proof.
  intros H. destruct (searchFrom ic r n pv s) eqn:E; [|reflexivity].
  exfalso. assert (Hs : searchFrom ic r n pv s <> None) by congruence.
  apply searchFrom_some_iff in Hs. destruct Hs as [pre [t [Es Hm]]].
  apply Hm. now apply H.
Qed.

Lemma execAll_without_h2 (articleHtml : str) :
  ~ occursNoCase (lit "<h2") articleHtml ->
  execAll true h2Regex articleHtml = [].
Proof.
  intros Hno. unfold execAll. rewrite h2Regex_exec_loop.
  rewrite searchFrom_none; [reflexivity|].
  intros pre t E.
  destruct (matchAt true h2Regex (0 + length pre) (lastUnit None pre) t) eqn:Em;
    [|reflexivity].
  exfalso. apply Hno. apply occursNoCase_iff, anySuffix_true_iff.
  exists pre, t. split; [exact E|].
  unfold h2Regex in Em.
  eapply matchAt_opening_lit. rewrite Em. discriminate.
Qed.

(** X6.  An article that nowhere holds [<h2], in either case, gives no
    section, and a page with such an article is returned without FAQ
    block. *)
Theorem article_without_h2 :
  forall articleHtml : str,
    ~ occursNoCase (lit "<h2") articleHtml ->
    extractH2Sections articleHtml = [] /\
    forall html category slug : str,
      articleOf (stripExistingFaq html) = Some articleHtml ->
      injectFaq html category slug = Out.mk (stripExistingFaq html) false.
Proof.
  intros articleHtml Hno.
  assert (He : extractH2Sections articleHtml = []).
  { rewrite extractH2Sections_flat_map, (execAll_without_h2 _ Hno). reflexivity. }
  split; [exact He|].
  intros html category slug Ha. apply injectFaq_skips. right.
  exists articleHtml. split; [exact Ha|]. rewrite He. simpl. lia.
Qed.

(** An article with a heading of the third level only. *)
Lemma article_without_h2_witness :
  extractH2Sections (lit "<h3>Loading</h3><p>Take twenty grams per day for one week.</p>") = [].
Proof.
  refine (proj1 (article_without_h2 _ _)).
  intros H. apply occursNoCase_iff in H. vm_compute in H. discriminate H.
Defined.

(** ** Where the content of a section ends *)

(** The lookahead of [h2Regex] at one position. *)
Lemma rmatch_sectionEnd (st : mstate) :
  rmatch true
    (Ahead (Lit (lit "<h2") <|> Lit (lit "</article>") <|>
            Lit (q "<section class='references") <|>
            Lit (q "<div class='cta-box") <|> Eol)) st =
  if endsHere (rest st) then [st] else [].
Proof.
  destruct st as [n pv t cs]. unfold endsHere, sectionEnds.
  cbn [rmatch pos prev rest caps existsb]. rewrite !matchLit_spec.
  destruct (litAt true (lit "<h2") t); [reflexivity|].
  destruct (litAt true (lit "</article>") t); [reflexivity|].
  destruct (litAt true (q "<section class='references") t); [reflexivity|].
  destruct (litAt true (q "<div class='cta-box") t); [reflexivity|].
  destruct t; reflexivity.
Qed.

(** [([\s\S]*?)(?=...)]: the lazy class stops at the first place where
    the content of a section ends, and group 2 holds what stands before
    it. *)
Lemma lazy_until_end (n0 : nat) (s0 : str) :
  forall (t a0 : str) (pv : option code) (cs : list (nat * str)),
    s0 = a0 ++ t ->
    option_map caps
      (hd_error
         (flat_map
            (rmatch true
               (Ahead (Lit (lit "<h2") <|> Lit (lit "</article>") <|>
                       Lit (q "<section class='references") <|>
                       Lit (q "<div class='cta-box") <|> Eol)))
            (map (fun e => MState (pos e) (prev e) (rest e)
                             ((2, firstn (pos e - n0) s0) :: caps e))
                 (matchRep false anyUnit (n0 + length a0) pv t cs)))) =
    Some ((2, a0 ++ untilEnd t) :: cs).
Proof.
  induction t as [|c t IH]; intros a0 pv cs Hs0.
  - cbn [matchRep map flat_map]. rewrite rmatch_sectionEnd. cbn.
    replace (n0 + length a0 - n0) with (length a0) by lia.
    rewrite Hs0, firstn_length_app, app_nil_r. reflexivity.
  - cbn [matchRep anyUnit map flat_map]. rewrite rmatch_sectionEnd.
    cbn [rest pos prev caps untilEnd].
    destruct (endsHere (c :: t)).
    + cbn. replace (n0 + length a0 - n0) with (length a0) by lia.
      rewrite Hs0, firstn_length_app, app_nil_r. reflexivity.
    + cbn [app].
      replace (S (n0 + length a0)) with (n0 + length (a0 ++ [c]))
        by (rewrite length_app; simpl; lia).
      rewrite (IH (a0 ++ [c]) (Some c) cs)
        by (rewrite <- app_assoc; exact Hs0).
      now rewrite <- app_assoc.
Qed.

Lemma hd_flat_map {A B : Type} (f : A -> list B) (l : list A) (e : B) :
  hd_error (flat_map f l) = Some e ->
  exists x, In x l /\ hd_error (f x) = Some e.
Proof.
  induction l as [|a l IH]; cbn [flat_map]; [discriminate|].
  destruct (f a) as [|b bs] eqn:E; cbn [app].
  - intros H. destruct (IH H) as [x [Hx He]]. exists x. split; [now right|exact He].
  - intros H. exists a. split; [now left|]. now rewrite E.
Qed.

(** Group 2 of a match of [h2Regex] is the text behind the heading, up to
    the first place where the content ends. *)
Lemma h2Regex_content (n : nat) (pv : option code) (s : str) (e : mstate) :
  matchAt true h2Regex n pv s = Some e ->
  exists t, lookupCap 2 (caps e) = untilEnd t.
Proof.
  unfold matchAt, h2Regex. intros H.
  do 5 (rewrite rmatch_Seq in H; apply hd_flat_map in H;
        destruct H as [? [_ H]]).
  rewrite rmatch_Seq in H.
  match type of H with
  | hd_error (flat_map _ (rmatch _ _ ?m)) = _ =>
      pose proof (lazy_until_end (pos m) (rest m) (rest m) [] (prev m) (caps m)
                    eq_refl) as Hl
  end.
  cbn [length app] in Hl. rewrite Nat.add_0_r in Hl. cbn [rmatch] in H, Hl.
  rewrite H in Hl. cbn [option_map] in Hl. injection Hl as Hl.
  eexists. rewrite Hl. cbn [lookupCap Nat.eqb]. reflexivity.
Qed.

Lemma execAllFrom_matchAt (ic : bool) (r : regex) (m : found) :
  forall (s : str) (skip n : nat) (pv : option code),
    In m (execAllFrom ic r skip n pv s) ->
    exists n' pv' t, matchAt ic r n' pv' t = Some (final m).
Proof.
  induction s as [|c s IH]; intros skip n pv H.
  - destruct skip; cbn [execAllFrom] in H; [|contradiction].
    destruct (matchAt ic r n pv []) as [e|] eqn:E; [|contradiction].
    destruct H as [<-|[]]. now exists n, pv, [].
  - destruct skip; cbn [execAllFrom] in H; [|now apply IH in H].
    destruct (matchAt ic r n pv (c :: s)) as [e|] eqn:E; [|now apply IH in H].
    destruct H as [<-|H]; [|now apply IH in H].
    now exists n, pv, (c :: s).
Qed.

Lemma litAt_prefix (ic : bool) (w y z : str) :
  litAt ic w y = true -> litAt ic w (y ++ z) = true.
Proof.
  revert y. induction w as [|x w IH]; intros [|c y] H; try reflexivity;
    try discriminate.
  cbn [litAt app] in *. apply andb_true_iff in H. destruct H as [-> H].
  now rewrite (IH y H).
Qed.

(** None of the texts stands anywhere in the text up to the first end. *)
Lemma untilEnd_holds_no_end (w : str) (t : str) :
  In w sectionEnds -> anySuffix (litAt true w) (untilEnd t) = false.
Proof.
  intros Hw.
  assert (Hnil : litAt true w [] = false).
  { destruct Hw as [<-|[<-|[<-|[<-|[]]]]]; reflexivity. }
  assert (Hpre : forall u, exists z, u = untilEnd u ++ z).
  { induction u as [|c u [z Hz]]; [now exists []|]. cbn [untilEnd].
    destruct (endsHere (c :: u)); [now exists (c :: u)|].
    exists z. cbn [app]. now rewrite <- Hz. }
  induction t as [|c t IH]; cbn [untilEnd].
  - destruct (endsHere []); cbn [anySuffix]; now rewrite Hnil.
  - destruct (endsHere (c :: t)) eqn:E.
    + cbn [anySuffix]. now rewrite Hnil.
    + cbn [anySuffix]. rewrite IH, orb_false_r.
      destruct (litAt true w (c :: untilEnd t)) eqn:El; [|reflexivity].
      destruct (Hpre t) as [z Hz].
      apply (litAt_prefix true w _ z) in El. cbn [app] in El. rewrite <- Hz in El.
      unfold endsHere in E. apply orb_false_iff in E. destruct E as [E _].
      assert (Ex : existsb (fun w0 => litAt true w0 (c :: t)) sectionEnds = true).
      { apply existsb_exists. now exists w. }
      congruence.
Qed.

(** X7.  The content that [extractH2Sections] reads for a heading ends
    where the next heading, the end of the article, the references or the
    call-to-action box begins: group 2 of a match of [h2Regex] holds none
    of these texts, in either case. *)
Theorem section_content_ends_in_time :
  forall (articleHtml : str) (m : found) (w : str),
    In m (execAll true h2Regex articleHtml) ->
    In w sectionEnds ->
    ~ occursNoCase w (group 2 m).
Proof.
  intros articleHtml m w Hm Hw Ho. unfold execAll in Hm.
  apply execAllFrom_matchAt in Hm. destruct Hm as [n [pv [t Hm]]].
  apply h2Regex_content in Hm. destruct Hm as [u Hu].
  apply occursNoCase_iff in Ho. unfold group in Ho.
  rewrite Hu, (untilEnd_holds_no_end w u Hw) in Ho. discriminate.
Qed.

(** The content of the first section of [threeSections]. *)
Lemma section_content_ends_in_time_witness :
  let m := hd (Found 0 (MState 0 None [] [])) (execAll true h2Regex threeSections) in
  group 2 m = lit "<p>Take twenty grams per day for one week.</p>" /\
  ~ occursNoCase (lit "<h2") (group 2 m).
Proof.
  intros m. split; [vm_compute; reflexivity|].
  apply (section_content_ends_in_time threeSections m (lit "<h2")).
  - vm_compute. left. reflexivity.
  - left. reflexivity.
Defined.

(** * More on the classifier *)

(** ** Questions stay questions *)

(** A heading that ends in a question mark is returned as it is. *)
Lemma question_is_kept (body category : str) :
  headingToQuestion (body ++ lit "?") category = body ++ lit "?".
Proof.
  unfold headingToQuestion, toLowerCase. rewrite map_app.
  change (map lowerUnit (lit "?")) with [63%N].
  destruct (trim_last (map lowerUnit body) 63%N eq_refl) as [y ->].
  change (lit "?") with [63%N]. now rewrite endsWith_last.
Qed.

(** X8.  The classifier is idempotent on headings that do not end in white
    space: the question it returns is a heading it returns unchanged. *)
Theorem headingToQuestion_idempotent :
  forall (pre : str) (c : code) (category : str),
    isWhiteSpace c = false ->
    headingToQuestion (headingToQuestion (pre ++ [c]) category) category =
    headingToQuestion (pre ++ [c]) category.
Proof.
  intros pre c category Hc.
  destruct (endsWith (tested (pre ++ [c])) (lit "?")) eqn:E1.
  - pose proof (rule1_question_mark pre c Hc E1) as ->.
    change [63%N] with (lit "?").
    now rewrite !(question_is_kept pre category).
  - destruct (later_rules_question_mark (pre ++ [c]) category E1) as [body ->].
    apply question_is_kept.
Qed.

(** The question made of "Kidney Function" is kept. *)
Lemma headingToQuestion_idempotent_witness :
  headingToQuestion
    (headingToQuestion (lit "Kidney Functio" ++ [110%N]) (lit "safety"))
    (lit "safety") =
  headingToQuestion (lit "Kidney Functio" ++ [110%N]) (lit "safety").
Proof.
  apply (headingToQuestion_idempotent (lit "Kidney Functio") 110%N (lit "safety")).
  reflexivity.
Defined.

(** ** The cleaned form *)

Lemma searchFrom_index_ge (ic : bool) (r : regex) (s : str) :
  forall (n : nat) (pv : option code) (m : found),
    searchFrom ic r n pv s = Some m -> n <= index m.
Proof.
  induction s as [|c s IH]; intros n pv m H; cbn [searchFrom] in H.
  - destruct (matchAt ic r n pv []); [|discriminate].
    injection H as <-. simpl. lia.
  - destruct (matchAt ic r n pv (c :: s)).
    + injection H as <-. simpl. lia.
    + apply IH in H. lia.
Qed.

(** The leftmost match stands at its index, and it is a match there. *)
Lemma searchFrom_matchAt (ic : bool) (r : regex) (s : str) :
  forall (n : nat) (pv : option code) (m : found),
    searchFrom ic r n pv s = Some m ->
    exists pre t,
      s = pre ++ t /\ index m = n + length pre /\
      matchAt ic r (index m) (lastUnit pv pre) t = Some (final m).
Proof.
  induction s as [|c s IH]; intros n pv m H; cbn [searchFrom] in H.
  - destruct (matchAt ic r n pv []) as [e|] eqn:E; [|discriminate].
    injection H as <-. exists [], []. simpl. rewrite Nat.add_0_r. auto.
  - destruct (matchAt ic r n pv (c :: s)) as [e|] eqn:E.
    + injection H as <-. exists [], (c :: s). simpl. rewrite Nat.add_0_r. auto.
    + apply IH in H. destruct H as [pre [t [Es [Hi Hm]]]].
      exists (c :: pre), t. simpl. rewrite Es. repeat split; [lia | exact Hm].
Qed.

(** What is left when the first match is deleted comes from the text. *)
Lemma replaceFirst_In (ic : bool) (r : regex) (x : code) (s : str) :
  In x (replaceFirst ic r [] s) -> In x s.
Proof.
  unfold replaceFirst, regexMatch.
  destruct (searchFrom ic r 0 None s) as [m|] eqn:E; [|auto].
  apply searchFrom_matchAt in E. destruct E as [pre [t [Es [Hi Hm]]]].
  apply matchAt_reaches in Hm. destruct Hm as [y [Hy _]]. simpl in Hy.
  simpl in Hi. intros H. cbn [app] in H. apply in_app_or in H.
  destruct H as [H|H].
  - rewrite Es, Hi, firstn_length_app in H. rewrite Es. apply in_or_app. now left.
  - rewrite Es, Hy. apply in_or_app. right. apply in_or_app. now right.
Qed.

Lemma matchRep_here (greedy : bool) (p : code -> bool) n pv s cs :
  In (MState n pv s cs) (matchRep greedy p n pv s cs).
Proof.
  destruct s as [|c s]; cbn [matchRep]; [now left|].
  destruct (p c); [|now left].
  destruct greedy; [apply in_or_app; right|]; now left.
Qed.

Lemma matchRep_all (greedy : bool) (p : code -> bool) (cs : list (nat * str)) :
  forall (s : str) (n : nat) (pv : option code),
    forallb p s = true ->
    In (MState (n + length s) (lastUnit pv s) [] cs) (matchRep greedy p n pv s cs).
Proof.
  induction s as [|c s IH]; intros n pv H.
  - simpl. rewrite Nat.add_0_r. now left.
  - cbn [forallb] in H. apply andb_true_iff in H. destruct H as [Hc Hs].
    cbn [matchRep]. rewrite Hc.
    specialize (IH (S n) (Some c) Hs).
    replace (n + length (c :: s)) with (S n + length s) by (simpl; lia).
    change (lastUnit pv (c :: s)) with (lastUnit (Some c) s).
    destruct greedy; [apply in_or_app; left|right]; exact IH.
Qed.

Lemma isSeparator_not_whiteSpace (c : code) :
  isSeparator c = true -> isWhiteSpace c = false.
Proof.
  unfold isSeparator. rewrite !orb_true_iff, !N.eqb_eq.
  intros [[->| ->]| ->]; reflexivity.
Qed.

(** On a text without line terminators the subtitle pattern matches at
    every separator. *)
Lemma matchAt_subtitle_separator (n : nat) (pv : option code) (c : code) (s : str) :
  isSeparator c = true -> forallb isDot s = true ->
  matchAt false re_subtitle n pv (c :: s) <> None.
Proof.
  intros Hc Hs. unfold matchAt. rewrite hd_error_none_nil.
  unfold re_subtitle. cbn [rmatch pos prev rest caps matchRep].
  rewrite (isSeparator_not_whiteSpace c Hc).
  cbn [flat_map pos prev rest caps]. rewrite Hc. cbn [flat_map].
  rewrite !app_nil_r.
  eapply flat_map_nonempty; [apply matchRep_here|].
  cbn [pos prev rest caps].
  eapply flat_map_nonempty; [apply matchRep_all; exact Hs|].
  cbn [rest]. discriminate.
Qed.

(** A match of the subtitle pattern runs to the end of the text. *)
Lemma subtitle_to_end (n : nat) (pv : option code) (s : str) (e : mstate) :
  matchAt false re_subtitle n pv s = Some e -> rest e = [].
Proof.
  intros H. apply matchAt_In in H. unfold re_subtitle in H.
  do 4 (rewrite rmatch_Seq in H; apply in_flat_map in H;
        destruct H as [? [_ H]]).
  cbn [rmatch] in H.
  match type of H with
  | In _ (match rest ?m with _ => _ end) =>
      destruct (rest m) eqn:E; [|contradiction]
  end.
  destruct H as [<-|[]]. exact E.
Qed.

Lemma subtitle_cut (s : str) :
  forall (n : nat) (pv : option code),
    forallb isDot s = true ->
    existsb isSeparator
      (match searchFrom false re_subtitle n pv s with
       | Some m => firstn (index m - n) s
       | None => s
       end) = false.
Proof.
  induction s as [|c s IH]; intros n pv Hs.
  - cbn [searchFrom]. destruct (matchAt false re_subtitle n pv []);
      [cbn [index]; now rewrite firstn_nil | reflexivity].
  - cbn [forallb] in Hs. apply andb_true_iff in Hs. destruct Hs as [Hc Hs].
    cbn [searchFrom].
    destruct (matchAt false re_subtitle n pv (c :: s)) as [e|] eqn:E.
    + cbn [index]. now rewrite Nat.sub_diag.
    + assert (Hsep : isSeparator c = false).
      { destruct (isSeparator c) eqn:Ec; [|reflexivity].
        now destruct (matchAt_subtitle_separator n pv c s Ec Hs). }
      specialize (IH (S n) (Some c) Hs).
      destruct (searchFrom false re_subtitle (S n) (Some c) s) as [m|] eqn:Em.
      * apply searchFrom_index_ge in Em.
        replace (index m - n) with (S (index m - S n)) by lia.
        cbn [firstn existsb]. now rewrite Hsep, IH.
      * cbn [existsb]. now rewrite Hsep, IH.
Qed.

Lemma existsb_false_In {A : Type} (p : A -> bool) (l : list A) :
  existsb p l = false <-> forall x, In x l -> p x = false.
Proof.
  induction l as [|a l IH]; simpl.
  - split; [intros _ x [] | reflexivity].
  - rewrite orb_false_iff, IH. split.
    + intros [Ha Hl] x [<-|Hx]; auto.
    + intros H. split; [apply H; now left | intros x Hx; apply H; now right].
Qed.

(** X9.  The cleaned form of a heading that holds no line terminator holds
    no colon, en dash or em dash: the subtitle is removed from the first
    separator on. *)
Theorem cleanedForm_drops_subtitle :
  forall heading : str,
    existsb isLineTerminator heading = false ->
    existsb isSeparator (cleanedForm heading) = false.
Proof.
  intros heading Hlt. unfold cleanedForm.
  set (t := replaceFirst true re_leadingArticle [] heading).
  assert (Ht : forallb isDot t = true).
  { apply forallb_forall. intros x Hx. apply replaceFirst_In in Hx.
    unfold isDot. apply negb_true_iff.
    now apply (proj1 (existsb_false_In isLineTerminator heading) Hlt). }
  pose proof (subtitle_cut t 0 None Ht) as Hcut.
  unfold replaceFirst, regexMatch.
  destruct (searchFrom false re_subtitle 0 None t) as [m|] eqn:Em; [|exact Hcut].
  apply searchFrom_matchAt in Em. destruct Em as [pre [u [_ [_ Hm]]]].
  rewrite (subtitle_to_end _ _ _ _ Hm). cbn [app]. rewrite app_nil_r.
  now rewrite Nat.sub_0_r in Hcut.
Qed.

(** A heading with an article and a subtitle. *)
Lemma cleanedForm_drops_subtitle_witness :
  cleanedForm (lit "The Loading Phase: What to Expect") = lit "Loading Phase" /\
  existsb isSeparator (cleanedForm (lit "The Loading Phase: What to Expect")) = false.
Proof.
  split; [vm_compute; reflexivity|].
  apply (cleanedForm_drops_subtitle (lit "The Loading Phase: What to Expect")).
  reflexivity.
Defined.

(** ** Tags in the question *)

(** Lower-casing leaves the angle brackets where they are. *)
Lemma lowerUnit_angle (c x : code) :
  x = 60%N \/ x = 62%N -> N.eqb (lowerUnit c) x = N.eqb c x.
Proof.
  intros Hx. destruct (lowerUnit_cases c) as [->|[-> H]]; [reflexivity|].
  destruct (N.eqb_spec (c + 32) x), (N.eqb_spec c x); try reflexivity; lia.
Qed.

Lemma existsb_gt_lower (s : str) :
  existsb (N.eqb 62) (map lowerUnit s) = existsb (N.eqb 62) s.
Proof.
  induction s as [|c s IH]; [reflexivity|]. cbn [map existsb].
  rewrite IH, (N.eqb_sym 62 (lowerUnit c)), (N.eqb_sym 62 c).
  now rewrite lowerUnit_angle by (now right).
Qed.

Lemma tagAt_lower (s : str) : tagAt (map lowerUnit s) = tagAt s.
Proof.
  destruct s as [|c0 [|c s']]; try reflexivity. cbn [map tagAt].
  unfold notGt. rewrite existsb_gt_lower.
  rewrite (lowerUnit_angle c0 60) by (now left).
  now rewrite (lowerUnit_angle c 62) by (now right).
Qed.

Lemma anySuffix_tagAt_lower (s : str) :
  anySuffix tagAt (toLowerCase s) = anySuffix tagAt s.
Proof.
  unfold toLowerCase. induction s as [|c s IH]; [reflexivity|].
  change (map lowerUnit (c :: s)) with (lowerUnit c :: map lowerUnit s).
  cbn [anySuffix]. rewrite IH.
  change (lowerUnit c :: map lowerUnit s) with (map lowerUnit (c :: s)).
  now rewrite tagAt_lower.
Qed.

(** Text without [<] in front of a text, or text without [<] and [>]
    behind it, brings no tag. *)
Lemma anySuffix_tagAt_prefix (p x : str) :
  existsb (N.eqb 60) p = false ->
  anySuffix tagAt (p ++ x) = anySuffix tagAt x.
Proof.
  induction p as [|c p IH]; intros H; [reflexivity|].
  cbn [existsb] in H. apply orb_false_iff in H. destruct H as [Hc Hp].
  cbn [app anySuffix]. rewrite (IH Hp).
  unfold tagAt. rewrite (N.eqb_sym c 60), Hc.
  destruct (p ++ x); reflexivity.
Qed.

Lemma anySuffix_tagAt_suffix (x z : str) :
  existsb (N.eqb 60) z = false -> existsb (N.eqb 62) z = false ->
  anySuffix tagAt (x ++ z) = anySuffix tagAt x.
Proof.
  intros H60 H62. induction x as [|c x IH].
  - cbn [app]. rewrite <- (app_nil_r z).
    rewrite (anySuffix_tagAt_prefix z [] H60). reflexivity.
  - cbn [app anySuffix]. rewrite IH. f_equal.
    destruct x as [|d x]; cbn [app tagAt].
    + destruct z as [|d z]; [reflexivity|].
      cbn [existsb] in H62. apply orb_false_iff in H62. destruct H62 as [_ ->].
      now rewrite andb_false_r.
    + now rewrite existsb_app, H62, orb_false_r.
Qed.

(** A pattern that opens with [^] matches at the start of the text only. *)
Lemma searchFrom_anchored (ic : bool) (b : regex) (s : str) :
  forall (n : nat) (pv : option code),
    searchFrom ic (Bol ;; b) (S n) pv s = None.
Proof.
  induction s as [|c s IH]; intros n pv; cbn [searchFrom];
    unfold matchAt; rewrite rmatch_Seq; cbn [rmatch pos flat_map hd_error];
    [reflexivity | apply IH].
Qed.

(** Deleting the leading article leaves the rest of the heading. *)
Lemma leadingArticle_suffix (heading : str) :
  exists a, heading = a ++ replaceFirst true re_leadingArticle [] heading.
Proof.
  unfold replaceFirst, regexMatch, re_leadingArticle.
  destruct heading as [|c s]; cbn [searchFrom].
  - destruct (matchAt true _ 0 None []) as [e|] eqn:E; [|now exists []].
    apply matchAt_reaches in E. destruct E as [x [Hx _]]. simpl in Hx.
    exists x. exact Hx.
  - destruct (matchAt true _ 0 None (c :: s)) as [e|] eqn:E.
    + apply matchAt_reaches in E. destruct E as [x [Hx _]]. simpl in Hx.
      exists x. exact Hx.
    + rewrite searchFrom_anchored. now exists [].
Qed.

(** Deleting the subtitle leaves the text before it. *)
Lemma subtitle_prefix (t : str) :
  exists b, t = replaceFirst false re_subtitle [] t ++ b.
Proof.
  unfold replaceFirst, regexMatch.
  destruct (searchFrom false re_subtitle 0 None t) as [m|] eqn:Em;
    [|exists []; now rewrite app_nil_r].
  apply searchFrom_matchAt in Em. destruct Em as [pre [u [Et [Hi Hm]]]].
  rewrite (subtitle_to_end _ _ _ _ Hm). cbn [app]. rewrite app_nil_r.
  exists u. simpl in Hi. now rewrite Et, Hi, firstn_length_app.
Qed.

(** The cleaned form is a part of the heading: what is cut off stands in
    front of it and behind it. *)
Lemma cleanedForm_part (heading : str) :
  exists a b, heading = a ++ cleanedForm heading ++ b.
Proof.
  unfold cleanedForm.
  destruct (leadingArticle_suffix heading) as [a Ha].
  destruct (subtitle_prefix (replaceFirst true re_leadingArticle [] heading))
    as [b Hb].
  exists a, b. now rewrite <- Hb.
Qed.

Lemma cleanedForm_tagFree (heading : str) :
  anySuffix tagAt heading = false ->
  anySuffix tagAt (cleanedForm heading) = false.
Proof.
  intros H. destruct (cleanedForm_part heading) as [a [b E]].
  rewrite E in H. apply anySuffix_false_suffix in H.
  now apply tagFree_prefix in H.
Qed.

(** A question built around the lower-cased cleaned form. *)
Lemma framed_tagFree (p z heading : str) :
  existsb (N.eqb 60) p = false ->
  existsb (N.eqb 60) z = false -> existsb (N.eqb 62) z = false ->
  anySuffix tagAt heading = false ->
  anySuffix tagAt (p ++ toLowerCase (cleanedForm heading) ++ z) = false.
Proof.
  intros Hp Hz60 Hz62 H.
  rewrite (anySuffix_tagAt_prefix p _ Hp), (anySuffix_tagAt_suffix _ z Hz60 Hz62).
  rewrite anySuffix_tagAt_lower. now apply cleanedForm_tagFree.
Qed.

(** The classifier brings no tag into a heading that holds none. *)
Lemma headingToQuestion_tagFree (heading category : str) :
  tagFree heading -> tagFree (headingToQuestion heading category).
Proof.
  unfold tagFree. rewrite !test_tag. intros H. unfold headingToQuestion.
  repeat match goal with
  | |- context [if ?b then _ else _] => destruct b
  end;
  first [ exact H
        | now apply framed_tagFree
        | now rewrite (anySuffix_tagAt_suffix heading (lit "?")) ].
Qed.

Lemma In_firstn {A : Type} (n : nat) (l : list A) (x : A) :
  In x (firstn n l) -> In x l.
Proof.
  intros H. rewrite <- (firstn_skipn n l). apply in_or_app. now left.
Qed.

(** X10.  Every question and every answer that [injectFaq] renders is free
    of tags: no part of it matches the tag pattern of [stripTags]. *)
Theorem qaPairs_hold_no_tag :
  forall (articleHtml category : str) (qa : QA.t),
    In qa (toQaPairs (extractH2Sections articleHtml) category) ->
    tagFree (QA.question qa) /\ tagFree (QA.answer qa).
Proof.
  intros articleHtml category qa Hqa. unfold toQaPairs in Hqa.
  apply in_map_iff in Hqa. destruct Hqa as [s [<- Hs]].
  apply In_firstn, extractH2Sections_In in Hs.
  destruct Hs as [m [_ [Hh [_ [_ [pMatch [_ [Ha _]]]]]]]].
  cbn [QA.question QA.answer]. split.
  - apply headingToQuestion_tagFree. rewrite Hh.
    apply trim_tagFree, stripTags_tagFree.
  - rewrite Ha. apply trim_tagFree, stripTags_tagFree.
Qed.

(** The first pair of [threeSections]. *)
Lemma qaPairs_hold_no_tag_witness :
  tagFree (lit "What is the recommended loading phase?") /\
  tagFree (lit "Take twenty grams per day for one week.").
Proof.
  apply (qaPairs_hold_no_tag threeSections (lit "dosing")
           (QA.mk (lit "What is the recommended loading phase?")
                  (lit "Take twenty grams per day for one week."))).
  vm_compute. left. reflexivity.
Defined.

(** * More on the synthesizer *)

(** ** What the output does not depend on *)

(** X11.  Neither the category nor the slug reaches the output of
    [injectFaq]: the classifier does not read the category, and
    [buildFaqSchema] does not read the address built from the two. *)
Theorem injectFaq_ignores_category_and_slug :
  forall html category1 slug1 category2 slug2 : str,
    injectFaq html category1 slug1 = injectFaq html category2 slug2.
Proof.
  intros html category1 slug1 category2 slug2. unfold injectFaq.
  destruct (regexMatch false re_article (stripExistingFaq html)) as [m|];
    [|reflexivity].
  destruct (Nat.ltb (length (extractH2Sections (group 1 m))) 3); [reflexivity|].
  cbv zeta.
  change (toQaPairs (extractH2Sections (group 1 m)) category1)
    with (toQaPairs (extractH2Sections (group 1 m)) category2).
  set (qaPairs := toQaPairs (extractH2Sections (group 1 m)) category2).
  change (buildFaqSchema qaPairs
            (lit "https://creatinepedia.com/" ++ category1 ++ lit "/" ++ slug1))
    with (buildFaqSchema qaPairs
            (lit "https://creatinepedia.com/" ++ category2 ++ lit "/" ++ slug2)).
  reflexivity.
Qed.

(** ** Pages without FAQ markup *)

Lemma flat_map_nil {A B : Type} (f : A -> list B) (l : list A) :
  (forall x, In x l -> f x = []) -> flat_map f l = [].
Proof.
  induction l as [|a l IH]; intros H; simpl; [reflexivity|].
  rewrite (H a) by now left. apply IH. intros x Hx. apply H. now right.
Qed.

Lemma deadOn_seq (ic : bool) (a b : regex) (s : str) :
  deadOn ic b s -> deadOn ic (a ;; b) s.
Proof.
  intros Hb st Hst. rewrite rmatch_Seq. apply flat_map_nil.
  intros m Hm. apply Hb. apply rmatch_reaches in Hm.
  destruct Hm as [x [Hx _]]. apply (suffix_trans _ (rest st)); [|exact Hst].
  now exists x.
Qed.

Lemma deadOn_lit (w : str) (b : regex) (s : str) :
  countOcc w s = 0 -> deadOn false (Lit w ;; b) s.
Proof.
  intros Hc st [x Hx]. rewrite rmatch_Seq. cbn [rmatch].
  rewrite matchLit_spec, litAt_false_startsWith.
  destruct (startsWith (rest st) w) eqn:E; [|reflexivity].
  exfalso. subst s. clear -Hc E. induction x as [|c x IH].
  - simpl in Hc. destruct (rest st); simpl in Hc; rewrite E in Hc; discriminate.
  - apply IH. cbn [app countOcc] in Hc. lia.
Qed.

Lemma deadOn_replaceAll (r : regex) (repl s : str) :
  deadOn false r s -> replaceAll false r repl s = s.
Proof.
  intros Hd. unfold replaceAll. apply replaceAllFrom_no_match, searchFrom_none.
  intros pre t E. unfold matchAt. rewrite Hd; [reflexivity|].
  now exists pre.
Qed.

(** X12.  A page that holds neither the opening tag of the FAQ section nor
    the text ["FAQPage"] comes out of [stripExistingFaq] as it went in,
    whatever other structured data it carries. *)
Theorem stripExistingFaq_fresh_page :
  forall html : str,
    countOcc (q "<section class='faq-section'>") html = 0 ->
    countOcc (q "'FAQPage'") html = 0 ->
    stripExistingFaq html = html.
Proof.
  intros html Hsection Hschema. unfold stripExistingFaq.
  rewrite (deadOn_replaceAll re_faqSection).
  - apply deadOn_replaceAll. unfold re_faqSchema.
    do 7 apply deadOn_seq. now apply deadOn_lit.
  - unfold re_faqSection. apply deadOn_seq. now apply deadOn_lit.
Qed.

(** A page with structured data of its own and no FAQ. *)
Lemma stripExistingFaq_fresh_page_witness :
  stripExistingFaq pageWithArticleSchema = pageWithArticleSchema.
Proof.
  apply (stripExistingFaq_fresh_page pageWithArticleSchema); reflexivity.
Defined.

(** ** Counting the tags of the FAQ block *)

Lemma section_tagFree (articleHtml : str) (s : Sec.t) :
  In s (extractH2Sections articleHtml) ->
  tagFree (Sec.heading s) /\ tagFree (Sec.answer s).
Proof.
  intros Hs. apply extractH2Sections_In in Hs.
  destruct Hs as [m [_ [Hh [_ [_ [pMatch [_ [Ha _]]]]]]]].
  rewrite Hh, Ha. split; apply trim_tagFree, stripTags_tagFree.
Qed.

Lemma countOcc_cons (w : str) (c : code) (s : str) :
  countOcc w (c :: s) =
  (if startsWith (c :: s) w then 1 else 0) + countOcc w s.
Proof. reflexivity. Qed.

Lemma startsWith_across_gt (u : str) :
  existsb (N.eqb 62) u = false ->
  forall t b, startsWith (t ++ 62%N :: b) (u ++ [62%N]) =
              startsWith (t ++ [62%N]) (u ++ [62%N]).
Proof.
  induction u as [|x u IH]; intros Hu t b.
  - destruct t; reflexivity.
  - cbn [existsb] in Hu. apply orb_false_iff in Hu. destruct Hu as [Hx Hu].
    destruct t as [|c t]; cbn [app startsWith].
    + rewrite (N.eqb_sym x 62), Hx. reflexivity.
    + now rewrite (IH Hu).
Qed.

Lemma startsWith_across_lt (u : str) :
  existsb (N.eqb 60) u = false ->
  forall t b, startsWith (t ++ 60%N :: b) u = startsWith t u.
Proof.
  induction u as [|x u IH]; intros Hu t b; [reflexivity|].
  cbn [existsb] in Hu. apply orb_false_iff in Hu. destruct Hu as [Hx Hu].
  destruct t as [|c t]; cbn [app startsWith].
  - rewrite (N.eqb_sym x 60), Hx. reflexivity.
  - now rewrite (IH Hu).
Qed.

(** Occurrences of a tag that holds no angle bracket inside: none of them
    lies across the end of a text that ends in [>], or across the start
    of a text that starts with [<]. *)
Section TagCount.

Variable body : str.
Hypothesis body_lt : existsb (N.eqb 60) body = false.
Hypothesis body_gt : existsb (N.eqb 62) body = false.
Hypothesis body_not_empty : body <> [].

Lemma countOcc_after_gt (a0 a b : str) :
  a = a0 ++ [62%N] ->
  countOcc (tag body) (a ++ b) = countOcc (tag body) a + countOcc (tag body) b.
Proof.
  intros ->.
  assert (Hu : existsb (N.eqb 62) (60%N :: body) = false) by exact body_gt.
  pose proof (startsWith_across_gt (60%N :: body) Hu) as K.
  change ((60%N :: body) ++ [62%N]) with (tag body) in K.
  induction a0 as [|c a0 IH].
  - pose proof (K [] b) as K0. cbn [app] in K0 |- *.
    rewrite !(countOcc_cons (tag body) 62%N), K0. simpl. lia.
  - pose proof (K (c :: a0) b) as Kc.
    rewrite <- app_assoc. cbn [app] in Kc |- *.
    rewrite !(countOcc_cons (tag body) c), Kc.
    rewrite <- app_assoc in IH. cbn [app] in IH. rewrite IH. lia.
Qed.

Lemma countOcc_before_lt (a b b0 : str) :
  b = 60%N :: b0 ->
  countOcc (tag body) (a ++ b) = countOcc (tag body) a + countOcc (tag body) b.
Proof.
  intros ->.
  assert (Hu : existsb (N.eqb 60) (body ++ [62%N]) = false)
    by (rewrite existsb_app, body_lt; reflexivity).
  pose proof (startsWith_across_lt (body ++ [62%N]) Hu) as K.
  induction a as [|c a IH].
  - reflexivity.
  - cbn [app]. rewrite !(countOcc_cons (tag body) c), IH.
    assert (Es : startsWith (c :: a ++ 60%N :: b0) (tag body) =
                 startsWith (c :: a) (tag body))
      by (unfold tag; cbn [startsWith]; now rewrite K).
    rewrite Es. lia.
Qed.

(** A text without tags holds no occurrence of the tag. *)
Lemma countOcc_tagFree (x : str) : tagFree x -> countOcc (tag body) x = 0.
Proof.
  unfold tagFree. rewrite test_tag.
  assert (Hw : forall z, tagAt (tag body ++ z) = true).
  { intros z. apply tagAt_app. unfold tag.
    destruct body as [|c body']; [contradiction|].
    cbn [app tagAt existsb] in *. apply orb_false_iff in body_gt.
    destruct body_gt as [Hc _]. unfold notGt. rewrite (N.eqb_sym c 62), Hc.
    rewrite existsb_app. simpl. now rewrite orb_true_r. }
  induction x as [|c x IH]; intros H.
  - reflexivity.
  - cbn [anySuffix] in H. apply orb_false_iff in H. destruct H as [Hc Hx].
    rewrite countOcc_cons, (IH Hx).
    destruct (startsWith (c :: x) (tag body)) eqn:E; [|reflexivity].
    apply startsWith_app in E. rewrite E, Hw in Hc. discriminate.
Qed.

(** A question and an answer without tags, set into the fixed text of an
    item behind a text [p] that ends in [>]. *)
Lemma countOcc_filled (p' p question answer r : str) :
  p = p' ++ [62%N] ->
  tagFree question -> tagFree answer ->
  countOcc (tag body) (p ++ question ++ itemMiddle ++ answer ++ itemTail ++ r) =
  countOcc (tag body) p + countOcc (tag body) itemMiddle +
  countOcc (tag body) itemTail + countOcc (tag body) r.
Proof.
  intros Hp Hq Ha.
  rewrite (countOcc_after_gt p' p _ Hp).
  rewrite (countOcc_before_lt question (itemMiddle ++ answer ++ itemTail ++ r)
             (tl itemMiddle ++ answer ++ itemTail ++ r) eq_refl).
  rewrite (countOcc_tagFree _ Hq).
  rewrite (countOcc_after_gt (removelast itemMiddle) itemMiddle _ eq_refl).
  rewrite (countOcc_before_lt answer (itemTail ++ r) (tl itemTail ++ r) eq_refl).
  rewrite (countOcc_tagFree _ Ha).
  rewrite (countOcc_after_gt (removelast itemTail) itemTail _ eq_refl).
  lia.
Qed.

Lemma countOcc_items (qaPairs : list QA.t) (r : str) :
  (forall qa, In qa qaPairs ->
     tagFree (QA.question qa) /\ tagFree (QA.answer qa)) ->
  countOcc (tag body) (concat (map faqItem qaPairs) ++ r) =
  length qaPairs *
  (countOcc (tag body) itemHead + countOcc (tag body) itemMiddle +
   countOcc (tag body) itemTail) +
  countOcc (tag body) r.
Proof.
  induction qaPairs as [|qa qaPairs IH]; intros H; [reflexivity|].
  destruct (H qa (or_introl eq_refl)) as [Hq Ha].
  cbn [map concat length].
  change (faqItem qa) with
    (itemHead ++ QA.question qa ++ itemMiddle ++ QA.answer qa ++ itemTail).
  rewrite <- !app_assoc.
  rewrite (countOcc_filled (removelast itemHead) itemHead _ _ _ eq_refl Hq Ha).
  rewrite IH by (intros qa' Hqa'; apply H; now right).
  lia.
Qed.

(** The occurrences in the block: those of its fixed text. *)
Lemma countOcc_block (qaPairs : list QA.t) :
  (forall qa, In qa qaPairs ->
     tagFree (QA.question qa) /\ tagFree (QA.answer qa)) ->
  countOcc (tag body) (buildFaqHtml qaPairs) =
  match qaPairs with
  | [] => countOcc (tag body) (blockHead ++ blockTail)
  | _ :: more =>
      countOcc (tag body) (blockHead ++ itemHead) +
      countOcc (tag body) itemMiddle + countOcc (tag body) itemTail +
      length more *
      (countOcc (tag body) itemHead + countOcc (tag body) itemMiddle +
       countOcc (tag body) itemTail) +
      countOcc (tag body) blockTail
  end.
Proof.
  intros H. destruct qaPairs as [|qa more]; [reflexivity|].
  destruct (H qa (or_introl eq_refl)) as [Hq Ha].
  replace (buildFaqHtml (qa :: more)) with
    ((blockHead ++ itemHead) ++ QA.question qa ++ itemMiddle ++
     QA.answer qa ++ itemTail ++ concat (map faqItem more) ++ blockTail).
  2:{ unfold buildFaqHtml. cbn [map concat].
      change (faqItem qa) with
        (itemHead ++ QA.question qa ++ itemMiddle ++ QA.answer qa ++ itemTail).
      unfold blockHead, blockTail. now rewrite <- !app_assoc. }
  rewrite (countOcc_filled (removelast (blockHead ++ itemHead))
             (blockHead ++ itemHead) _ _ _ eq_refl Hq Ha).
  rewrite countOcc_items by (intros qa' Hqa'; apply H; now right).
  lia.
Qed.

End TagCount.

(** X13.  The FAQ block that [injectFaq] builds holds one item for every
    pair and is one [section] element, whatever the text of the article:
    it opens once and closes once. *)
Theorem faq_block_is_one_section :
  forall articleHtml category : str,
    let qaPairs := toQaPairs (extractH2Sections articleHtml) category in
    let block := buildFaqHtml qaPairs in
    countOcc (q "<div class='faq-item'>") block = length qaPairs /\
    countOcc (q "<section class='faq-section'>") block = 1 /\
    countOcc (lit "</section>") block = 1.
Proof.
  intros articleHtml category qaPairs block.
  assert (H : forall qa, In qa qaPairs ->
                tagFree (QA.question qa) /\ tagFree (QA.answer qa)).
  { intros qa Hqa. unfold qaPairs, toQaPairs in Hqa.
    apply in_map_iff in Hqa. destruct Hqa as [s [<- Hs]].
    apply In_firstn, section_tagFree in Hs. destruct Hs as [Hh Ha].
    split; [now apply headingToQuestion_tagFree | exact Ha]. }
  pose proof (countOcc_block (q "div class='faq-item'") eq_refl eq_refl
                ltac:(discriminate) qaPairs H) as Hitem.
  pose proof (countOcc_block (q "section class='faq-section'") eq_refl eq_refl
                ltac:(discriminate) qaPairs H) as Hopen.
  pose proof (countOcc_block (lit "/section") eq_refl eq_refl
                ltac:(discriminate) qaPairs H) as Hclose.
  change (tag (q "div class='faq-item'"))
    with (q "<div class='faq-item'>") in Hitem.
  change (tag (q "section class='faq-section'"))
    with (q "<section class='faq-section'>") in Hopen.
  change (tag (lit "/section")) with (lit "</section>") in Hclose.
  unfold block. rewrite Hitem, Hopen, Hclose.
  destruct qaPairs as [|qa more]; [repeat split; reflexivity|].
  change (countOcc (q "<div class='faq-item'>") (blockHead ++ itemHead)) with 1.
  change (countOcc (q "<div class='faq-item'>") itemHead) with 1.
  change (countOcc (q "<div class='faq-item'>") itemMiddle) with 0.
  change (countOcc (q "<div class='faq-item'>") itemTail) with 0.
  change (countOcc (q "<div class='faq-item'>") blockTail) with 0.
  change (countOcc (q "<section class='faq-section'>") (blockHead ++ itemHead))
    with 1.
  change (countOcc (q "<section class='faq-section'>") itemHead) with 0.
  change (countOcc (q "<section class='faq-section'>") itemMiddle) with 0.
  change (countOcc (q "<section class='faq-section'>") itemTail) with 0.
  change (countOcc (q "<section class='faq-section'>") blockTail) with 0.
  change (countOcc (lit "</section>") (blockHead ++ itemHead)) with 0.
  change (countOcc (lit "</section>") itemHead) with 0.
  change (countOcc (lit "</section>") itemMiddle) with 0.
  change (countOcc (lit "</section>") itemTail) with 0.
  change (countOcc (lit "</section>") blockTail) with 1.
  cbn [length]. repeat split; lia.
Qed.

(** ** Captured text comes from the input *)

Lemma incl_firstn {A : Type} (n : nat) (l S : list A) :
  incl l S -> incl (firstn n l) S.
Proof. intros H x Hx. apply H. now apply In_firstn in Hx. Qed.

Lemma reaches_incl (S : str) (st e : mstate) :
  reaches st e -> incl (rest st) S -> incl (rest e) S.
Proof.
  intros [x [Hx _]] H y Hy. apply H. rewrite Hx. apply in_or_app. now right.
Qed.

Lemma rmatch_capsWithin (ic : bool) (S : str) (r : regex) :
  forall st e,
    In e (rmatch ic r st) ->
    incl (rest st) S -> capsWithin S (caps st) -> capsWithin S (caps e).
Proof.
  induction r as [w|p|a IHa b IHb|a IHa b IHb|greedy p|a IHa|k a IHa| | | |a IHa];
    intros st e H Hr Hc.
  - cbn [rmatch] in H. rewrite matchLit_spec in H.
    destruct (litAt ic w (rest st)); [|contradiction].
    destruct H as [<-|[]]. exact Hc.
  - cbn [rmatch] in H. destruct (rest st) as [|c s]; [contradiction|].
    destruct (p c); [|contradiction]. destruct H as [<-|[]]. exact Hc.
  - rewrite rmatch_Seq in H. apply in_flat_map in H. destruct H as [m [Hm He]].
    apply (IHb m e He).
    + apply (reaches_incl S st m); [now apply (rmatch_reaches ic a) | exact Hr].
    + now apply (IHa st m).
  - cbn [rmatch] in H. apply in_app_or in H. destruct H; eauto.
  - assert (Hcaps : caps e = caps st).
    { cbn [rmatch] in H. clear -H. destruct st as [n pv s cs]. cbn in H.
      revert n pv H. induction s as [|c s IH]; intros n pv H; cbn [matchRep] in H.
      - destruct H as [<-|[]]. reflexivity.
      - destruct (p c).
        + destruct greedy.
          * apply in_app_or in H. destruct H as [H|[<-|[]]]; [|reflexivity].
            now apply IH in H.
          * destruct H as [<-|H]; [reflexivity|]. now apply IH in H.
        + destruct H as [<-|[]]. reflexivity. }
    now rewrite Hcaps.
  - cbn [rmatch] in H. apply in_app_or in H. destruct H as [H|[<-|[]]]; eauto.
  - cbn [rmatch] in H. apply in_map_iff in H. destruct H as [m [<- Hm]].
    cbn [caps]. intros k' v [E|Hin].
    + injection E as _ <-. now apply incl_firstn.
    + revert k' v Hin. now apply (IHa st m).
  - cbn [rmatch] in H. destruct (pos st); [|contradiction].
    destruct H as [<-|[]]. exact Hc.
  - cbn [rmatch] in H. destruct (rest st); [|contradiction].
    destruct H as [<-|[]]. exact Hc.
  - cbn [rmatch] in H. destruct (xorb _ _); [|contradiction].
    destruct H as [<-|[]]. exact Hc.
  - cbn [rmatch] in H. destruct (rmatch ic a st) as [|m ms] eqn:E; [contradiction|].
    destruct H as [<-|[]]. cbn [caps]. apply (IHa st m); auto.
    rewrite E. now left.
Qed.

Lemma lookupCap_incl (S : str) (n : nat) (cs : list (nat * str)) :
  capsWithin S cs -> incl (lookupCap n cs) S.
Proof.
  induction cs as [|[k v] cs IH]; intros H; cbn [lookupCap].
  - intros x [].
  - destruct (Nat.eqb k n).
    + apply (H k v). now left.
    + apply IH. intros k' v' Hin. apply (H k' v'). now right.
Qed.

(** The text of a group of a match at a position of [S] is made of code
    units of [S]. *)
Lemma matchAt_group_incl (ic : bool) (r : regex) (S : str) n pv t e k :
  incl t S -> matchAt ic r n pv t = Some e -> incl (lookupCap k (caps e)) S.
Proof.
  intros Ht H. apply lookupCap_incl. apply matchAt_In in H.
  apply (rmatch_capsWithin ic S r _ e H); [exact Ht|].
  intros k' v [].
Qed.

Lemma regexMatch_group_incl (ic : bool) (r : regex) (s : str) (m : found) (k : nat) :
  regexMatch ic r s = Some m -> incl (group k m) s.
Proof.
  intros H. apply searchFrom_matchAt in H. destruct H as [pre [t [Es [_ Hm]]]].
  unfold group. eapply (matchAt_group_incl ic r s); [|exact Hm].
  rewrite Es. apply incl_appr, incl_refl.
Qed.

Lemma execAllFrom_group_incl (ic : bool) (r : regex) (S : str) (m : found) (k : nat) :
  forall (s : str) (skip n : nat) (pv : option code),
    incl s S -> In m (execAllFrom ic r skip n pv s) -> incl (group k m) S.
Proof.
  induction s as [|c s IH]; intros skip n pv Hs H.
  - destruct skip; cbn [execAllFrom] in H; [|contradiction].
    destruct (matchAt ic r n pv []) as [e|] eqn:E; [|contradiction].
    destruct H as [<-|[]]. unfold group. cbn [final].
    now apply (matchAt_group_incl ic r S n pv [] e k).
  - assert (Hs' : incl s S) by (intros x Hx; apply Hs; now right).
    destruct skip; cbn [execAllFrom] in H; [|now apply IH in H].
    destruct (matchAt ic r n pv (c :: s)) as [e|] eqn:E; [|now apply IH in H].
    destruct H as [<-|H]; [|now apply IH in H].
    unfold group. cbn [final].
    now apply (matchAt_group_incl ic r S n pv (c :: s) e k).
Qed.

(** ** Text without a dollar sign *)

Lemma trim_In (x : code) (s : str) : In x (trim s) -> In x s.
Proof.
  unfold trim. intros H.
  destruct (trimStart_suffix s) as [a Ha].
  destruct (trimEnd_prefix (trimStart s)) as [z Hz].
  rewrite Ha, Hz. apply in_or_app. right. apply in_or_app. now left.
Qed.

Lemma stripTags_In (x : code) (s : str) : In x (stripTags s) -> In x s.
Proof.
  unfold stripTags, replaceAll. intros H. apply trim_In in H.
  now apply replaceAllFrom_In in H.
Qed.

(** Heading and answer of an extracted section are made of code units of
    the article. *)
Lemma section_In (articleHtml : str) (s : Sec.t) (x : code) :
  In s (extractH2Sections articleHtml) ->
  In x (Sec.heading s) \/ In x (Sec.answer s) -> In x articleHtml.
Proof.
  intros Hs Hx. apply extractH2Sections_In in Hs.
  destruct Hs as [m [Hm [Hh [_ [_ [pMatch [Hp [Ha _]]]]]]]].
  assert (Hg : forall k, incl (group k m) articleHtml).
  { intros k. unfold execAll in Hm.
    apply (execAllFrom_group_incl true h2Regex articleHtml m k articleHtml 0 0 None);
      [apply incl_refl | exact Hm]. }
  destruct Hx as [Hx|Hx].
  - rewrite Hh in Hx. apply trim_In, stripTags_In in Hx. now apply (Hg 1).
  - rewrite Ha in Hx. apply trim_In, stripTags_In in Hx.
    apply (regexMatch_group_incl _ _ _ _ 1 Hp) in Hx. now apply (Hg 2).
Qed.

Lemma lowerUnit_dollar (c : code) : lowerUnit c = 36%N -> c = 36%N.
Proof.
  destruct (lowerUnit_cases c) as [->|[-> H]]; [auto|]. lia.
Qed.

Lemma toLowerCase_dollar (s : str) : In 36%N (toLowerCase s) -> In 36%N s.
Proof.
  unfold toLowerCase. intros H. apply in_map_iff in H.
  destruct H as [c [Hc Hin]]. apply lowerUnit_dollar in Hc. now subst c.
Qed.

Lemma cleanedForm_In (x : code) (heading : str) :
  In x (cleanedForm heading) -> In x heading.
Proof.
  unfold cleanedForm. intros H. now do 2 apply replaceFirst_In in H.
Qed.

Lemma framed_dollar (p z heading : str) :
  existsb (N.eqb 36) p = false -> existsb (N.eqb 36) z = false ->
  In 36%N (p ++ toLowerCase (cleanedForm heading) ++ z) -> In 36%N heading.
Proof.
  intros Hp Hz H. apply in_app_or in H. destruct H as [H|H].
  - now apply existsb_not_In in Hp.
  - apply in_app_or in H. destruct H as [H|H].
    + now apply cleanedForm_In, toLowerCase_dollar.
    + now apply existsb_not_In in Hz.
Qed.

Lemma headingToQuestion_dollar (heading category : str) :
  In 36%N (headingToQuestion heading category) -> In 36%N heading.
Proof.
  unfold headingToQuestion.
  repeat match goal with
  | |- context [if ?b then _ else _] => destruct b
  end;
  first [ exact (fun H => H)
        | now apply framed_dollar
        | intros H; apply in_app_or in H; destruct H as [H|H];
          [exact H | now apply (proj1 (existsb_not_In 36%N (lit "?")) eq_refl) in H] ].
Qed.

(** Induction on a value and on the values inside it. *)
Lemma json_nested_ind (P : json -> Prop) :
  (forall s, P (JStr s)) ->
  (forall vs, Forall P vs -> P (JArr vs)) ->
  (forall kvs, Forall (fun kv => P (snd kv)) kvs -> P (JObj kvs)) ->
  forall v, P v.
Proof.
  intros HS HA HO. fix IH 1. intros [s|vs|kvs].
  - apply HS.
  - apply HA. induction vs as [|x vs IHvs]; constructor; [apply IH | exact IHvs].
  - apply HO. induction kvs as [|[k x] kvs IHkvs]; constructor;
      [apply IH | exact IHkvs].
Qed.

(** A closed run of code units in front of a text. *)
Lemma In_app_closed (x : code) (p l : str) :
  existsb (N.eqb x) p = false -> In x (p ++ l) -> In x l.
Proof.
  intros Hp H. apply in_app_or in H. destruct H as [H|H]; [|exact H].
  now apply existsb_not_In in Hp.
Qed.

Lemma join_In (x : code) (sep : str) (xs : list str) :
  In x (join sep xs) -> In x sep \/ exists y, In y xs /\ In x y.
Proof.
  induction xs as [|y xs IH]; cbn [join]; [intros []|].
  destruct xs as [|y' xs].
  - intros H. right. exists y. split; [now left | exact H].
  - intros H. apply in_app_or in H. destruct H as [H|H].
    + right. exists y. split; [now left | exact H].
    + apply in_app_or in H. destruct H as [H|H]; [now left|].
      destruct (IH H) as [Hs|[z [Hz Hx]]]; [now left|].
      right. exists z. split; [now right | exact Hx].
Qed.

Lemma hexDigit_dollar (n : N) : hexDigit n <> 36%N.
Proof. unfold hexDigit. destruct (N.ltb n 10); lia. Qed.

Lemma unicodeEscape_dollar (c : code) : ~ In 36%N (unicodeEscape c).
Proof.
  unfold unicodeEscape. intros H. apply In_app_closed in H; [|reflexivity].
  repeat (destruct H as [H|H]; [now apply hexDigit_dollar in H|]).
  exact H.
Qed.

Ltac dollar_escape H IH :=
  apply in_app_or in H; destruct H as [H|H];
  [ exfalso; first [ now apply unicodeEscape_dollar in H
                   | revert H; now apply existsb_not_In ]
  | right; apply IH; [simpl in *; lia | exact H] ].

Lemma quoteBody_dollar (len : nat) :
  forall s, length s <= len -> In 36%N (quoteBody s) -> In 36%N s.
Proof.
  induction len as [|len IH]; intros s Hlen H.
  - destruct s; [exact H | simpl in Hlen; lia].
  - destruct s as [|c s]; [exact H|]. cbn [quoteBody] in H.
    destruct (N.eqb c 8); [dollar_escape H IH|].
    destruct (N.eqb c 9); [dollar_escape H IH|].
    destruct (N.eqb c 10); [dollar_escape H IH|].
    destruct (N.eqb c 12); [dollar_escape H IH|].
    destruct (N.eqb c 13); [dollar_escape H IH|].
    destruct (N.eqb c 34); [dollar_escape H IH|].
    destruct (N.eqb c 92); [dollar_escape H IH|].
    destruct (N.ltb c 32); [dollar_escape H IH|].
    destruct (isHighSurrogate c).
    + destruct s as [|d s]; [now apply unicodeEscape_dollar in H|].
      destruct (isLowSurrogate d).
      * destruct H as [H|[H|H]]; [now left | right; now left |].
        right. right. apply IH; [simpl in *; lia | exact H].
      * dollar_escape H IH.
    + destruct (isLowSurrogate c); [dollar_escape H IH|].
      destruct H as [H|H]; [now left|]. right.
      apply IH; [simpl in *; lia | exact H].
Qed.

Lemma quoteJSONString_dollar (s : str) :
  In 36%N (quoteJSONString s) -> In 36%N s.
Proof.
  unfold quoteJSONString. intros H. apply In_app_closed in H; [|reflexivity].
  apply in_app_or in H. destruct H as [H|H].
  - now apply (quoteBody_dollar (length s)).
  - exfalso. revert H. now apply existsb_not_In.
Qed.

Lemma indent_dollar (indent z : str) :
  existsb (N.eqb 36) z = false -> In 36%N (indent ++ z) -> In 36%N indent.
Proof.
  intros Hz H. apply in_app_or in H. destruct H as [H|H]; [exact H|].
  now apply existsb_not_In in Hz.
Qed.

(** A dollar sign in the serialization comes from the indentation or from
    a string of the value. *)
Lemma stringify_dollar (v : json) :
  forall indent,
    In 36%N (stringify indent v) ->
    In 36%N indent \/ exists s, In s (jsonTexts v) /\ In 36%N s.
Proof.
  induction v as [s|vs IH|kvs IH] using json_nested_ind; intros indent H.
  - right. exists s. split; [now left | now apply quoteJSONString_dollar].
  - destruct vs as [|v0 vs0]; [destruct H as [H|[H|[]]]; discriminate H|].
    set (vs := v0 :: vs0) in *.
    change (stringify indent (JArr vs)) with
      (lit "[" ++ nl ++ (indent ++ lit "  ") ++
       join (lit "," ++ nl ++ indent ++ lit "  ")
            (map (stringify (indent ++ lit "  ")) vs) ++
       nl ++ indent ++ lit "]") in H.
    do 2 (apply In_app_closed in H; [|reflexivity]).
    apply in_app_or in H. destruct H as [H|H];
      [left; now apply (indent_dollar indent (lit "  ")) |].
    apply in_app_or in H. destruct H as [H|H].
    + apply join_In in H. destruct H as [H|[y [Hy H]]].
      * do 2 (apply In_app_closed in H; [|reflexivity]).
        left. now apply (indent_dollar indent (lit "  ")).
      * apply in_map_iff in Hy. destruct Hy as [v [<- Hv]].
        rewrite Forall_forall in IH.
        destruct (IH v Hv _ H) as [Hi|[t [Ht H36]]].
        -- left. now apply (indent_dollar indent (lit "  ")).
        -- right. exists t. split; [|exact H36]. cbn [jsonTexts].
           apply in_flat_map. now exists v.
    + apply In_app_closed in H; [|reflexivity].
      left. now apply (indent_dollar indent (lit "]")).
  - destruct kvs as [|kv0 kvs0]; [destruct H as [H|[H|[]]]; discriminate H|].
    set (kvs := kv0 :: kvs0) in *.
    change (stringify indent (JObj kvs)) with
      (lit "{" ++ nl ++ (indent ++ lit "  ") ++
       join (lit "," ++ nl ++ indent ++ lit "  ")
            (map (fun kv => match kv with
                            | (k, x) =>
                                quoteJSONString k ++ lit ": " ++
                                stringify (indent ++ lit "  ") x
                            end) kvs) ++
       nl ++ indent ++ lit "}") in H.
    do 2 (apply In_app_closed in H; [|reflexivity]).
    apply in_app_or in H. destruct H as [H|H];
      [left; now apply (indent_dollar indent (lit "  ")) |].
    apply in_app_or in H. destruct H as [H|H].
    + apply join_In in H. destruct H as [H|[y [Hy H]]].
      * do 2 (apply In_app_closed in H; [|reflexivity]).
        left. now apply (indent_dollar indent (lit "  ")).
      * apply in_map_iff in Hy. destruct Hy as [[k x] [<- Hkx]].
        apply in_app_or in H. destruct H as [H|H].
        -- right. exists k. split; [|now apply quoteJSONString_dollar].
           cbn [jsonTexts]. apply in_flat_map. exists (k, x).
           split; [exact Hkx | now left].
        -- apply In_app_closed in H; [|reflexivity].
           rewrite Forall_forall in IH.
           destruct (IH (k, x) Hkx _ H) as [Hi|[t [Ht H36]]].
           ++ left. now apply (indent_dollar indent (lit "  ")).
           ++ right. exists t. split; [|exact H36]. cbn [jsonTexts].
              apply in_flat_map. exists (k, x). split; [exact Hkx | now right].
    + apply In_app_closed in H; [|reflexivity].
      left. now apply (indent_dollar indent (lit "}")).
Qed.

(** The structured data holds a dollar sign only where a question or an
    answer holds one. *)
Lemma buildFaqSchema_dollar (qaPairs : list QA.t) (url : str) :
  In 36%N (buildFaqSchema qaPairs url) ->
  exists qa, In qa qaPairs /\
             (In 36%N (QA.question qa) \/ In 36%N (QA.answer qa)).
Proof.
  unfold buildFaqSchema. intros H. apply stringify_dollar in H.
  destruct H as [[]|[s [Hs H36]]].
  cbn [jsonTexts flat_map fst snd app] in Hs.
  repeat (destruct Hs as [<-|Hs];
          [exfalso; revert H36; now apply existsb_not_In|]).
  rewrite app_nil_r in Hs. apply in_flat_map in Hs.
  destruct Hs as [v [Hv Hs]]. apply in_map_iff in Hv.
  destruct Hv as [qa [<- Hqa]]. exists qa. split; [exact Hqa|].
  cbn [jsonTexts flat_map fst snd app] in Hs.
  repeat (destruct Hs as [<-|Hs];
          [first [ exfalso; revert H36; now apply existsb_not_In
                 | now left | now right ]|]).
  destruct Hs.
Qed.

Lemma faqItem_dollar (qa : QA.t) :
  In 36%N (faqItem qa) -> In 36%N (QA.question qa) \/ In 36%N (QA.answer qa).
Proof.
  unfold faqItem. intros H.
  do 4 (apply In_app_closed in H; [|reflexivity]).
  apply in_app_or in H. destruct H as [H|H]; [now left|].
  do 3 (apply In_app_closed in H; [|reflexivity]).
  apply in_app_or in H. destruct H as [H|H]; [now right|].
  exfalso. revert H. now apply existsb_not_In.
Qed.

Lemma buildFaqHtml_dollar (qaPairs : list QA.t) :
  In 36%N (buildFaqHtml qaPairs) ->
  exists qa, In qa qaPairs /\
             (In 36%N (QA.question qa) \/ In 36%N (QA.answer qa)).
Proof.
  unfold buildFaqHtml. intros H.
  do 6 (apply In_app_closed in H; [|reflexivity]).
  apply in_app_or in H. destruct H as [H|H].
  - apply in_concat in H. destruct H as [item [Hitem H]].
    apply in_map_iff in Hitem. destruct Hitem as [qa [<- Hqa]].
    exists qa. split; [exact Hqa | now apply faqItem_dollar].
  - exfalso. revert H. now apply existsb_not_In.
Qed.

(** Without a dollar sign in the article no pair holds one. *)
Lemma toQaPairs_dollar (articleHtml category : str) (qa : QA.t) :
  ~ In 36%N articleHtml ->
  In qa (toQaPairs (extractH2Sections articleHtml) category) ->
  ~ (In 36%N (QA.question qa) \/ In 36%N (QA.answer qa)).
Proof.
  intros Hno Hqa H. apply Hno. unfold toQaPairs in Hqa.
  apply in_map_iff in Hqa. destruct Hqa as [s [<- Hs]].
  apply In_firstn in Hs. cbn [QA.question QA.answer] in H.
  apply (section_In articleHtml s 36%N Hs).
  destruct H as [H|H]; [left; now apply headingToQuestion_dollar in H | now right].
Qed.

(** A replacement text without a dollar sign is put as it is. *)
Lemma getSubstitution_plain (matched before after template : str) :
  ~ In 36%N template ->
  getSubstitution matched before after template = template.
Proof.
  induction template as [|c t IH]; intros H; [reflexivity|].
  cbn [getSubstitution].
  destruct (N.eqb_spec c 36) as [->|Hc]; [exfalso; apply H; now left|].
  f_equal. apply IH. intros Hin. apply H. now right.
Qed.

Lemma replaceStr_plain (w block s : str) :
  ~ In 36%N (block ++ w) ->
  replaceStr w (block ++ w) s = insertBefore w block s.
Proof.
  intros H. unfold replaceStr, insertBefore.
  destruct (splitOn w s) as [[a b]|]; [|reflexivity].
  rewrite (getSubstitution_plain _ _ _ _ H). now rewrite <- app_assoc.
Qed.


(** ** A page without a head *)

Lemma startsWith_across_foreign (z : code) (w : str) :
  existsb (N.eqb z) w = false ->
  forall t b, startsWith (t ++ z :: b) w = startsWith t w.
Proof.
  induction w as [|x w IH]; intros Hw t b; [reflexivity|].
  cbn [existsb] in Hw. apply orb_false_iff in Hw. destruct Hw as [Hx Hw].
  destruct t as [|c t]; cbn [app startsWith].
  - rewrite (N.eqb_sym x z), Hx. reflexivity.
  - now rewrite (IH Hw).
Qed.

(** No occurrence of [w] lies across a code unit that [w] does not hold. *)
Lemma countOcc_before_foreign (z : code) (w a b : str) :
  existsb (N.eqb z) w = false -> w <> [] ->
  countOcc w (a ++ z :: b) = countOcc w a + countOcc w (z :: b).
Proof.
  intros Hz Hw. induction a as [|c a IH].
  - cbn [app]. destruct w; [contradiction | reflexivity].
  - cbn [app]. rewrite !(countOcc_cons w c), IH.
    pose proof (startsWith_across_foreign z w Hz (c :: a) b) as K.
    cbn [app] in K. rewrite K. lia.
Qed.

Lemma countOcc_splitOn (w s : str) : countOcc w s = 0 -> splitOn w s = None.
Proof.
  induction s as [|c s IH]; rewrite splitOn_eq; cbn [countOcc].
  - destruct (startsWith [] w); [discriminate | reflexivity].
  - destruct (startsWith (c :: s) w); [discriminate|].
    intros H. now rewrite IH.
Qed.

(** The page with the FAQ block in it holds no [</head>] that the page did
    not hold. *)
Lemma block_brings_no_head (qaPairs : list QA.t) (s : str) :
  (forall qa, In qa qaPairs ->
     tagFree (QA.question qa) /\ tagFree (QA.answer qa)) ->
  countOcc (lit "</head>") s = 0 ->
  countOcc (lit "</head>")
    (insertBefore (lit "</article>") (buildFaqHtml qaPairs ++ nl ++ lit "      ") s) = 0.
Proof.
  intros Hfree Hs. unfold insertBefore.
  destruct (splitOn (lit "</article>") s) as [[a b]|] eqn:E; [|exact Hs].
  apply splitOn_spec in E. subst s.
  pose proof (countOcc_before_lt (lit "/head") eq_refl a
                (lit "</article>" ++ b) (lit "/article>" ++ b) eq_refl) as Hab.
  change (tag (lit "/head")) with (lit "</head>") in Hab.
  rewrite Hab in Hs.
  pose proof (countOcc_block (lit "/head") eq_refl eq_refl ltac:(discriminate)
                qaPairs Hfree) as Hblock.
  change (tag (lit "/head")) with (lit "</head>") in Hblock.
  assert (Hb : countOcc (lit "</head>") (buildFaqHtml qaPairs) = 0).
  { rewrite Hblock. destruct qaPairs as [|qa more]; [reflexivity|].
    change (countOcc (lit "</head>") (blockHead ++ itemHead)) with 0.
    change (countOcc (lit "</head>") itemHead) with 0.
    change (countOcc (lit "</head>") itemMiddle) with 0.
    change (countOcc (lit "</head>") itemTail) with 0.
    change (countOcc (lit "</head>") blockTail) with 0.
    lia. }
  assert (Hshape : exists b0 b1, buildFaqHtml qaPairs = 10%N :: b0 /\
                                 buildFaqHtml qaPairs = b1 ++ [62%N]).
  { exists (tl (buildFaqHtml qaPairs)).
    exists (nl ++ q "      <section class='faq-section'>" ++
            nl ++ lit "        <h2>Frequently Asked Questions</h2>" ++
            nl ++ lit "        " ++ concat (map faqItem qaPairs) ++
            nl ++ lit "      </section").
    split; [reflexivity|]. unfold buildFaqHtml.
    change (lit "      </section>") with (lit "      </section" ++ [62%N]).
    now rewrite <- !app_assoc. }
  destruct Hshape as [b0 [b1 [E0 E1]]].
  rewrite <- app_assoc.
  set (after := (nl ++ lit "      ") ++ lit "</article>" ++ b).
  replace (a ++ buildFaqHtml qaPairs ++ after) with (a ++ 10%N :: b0 ++ after)
    by (now rewrite E0).
  rewrite (countOcc_before_foreign 10%N (lit "</head>") a _ eq_refl ltac:(discriminate)).
  replace (10%N :: b0 ++ after) with (buildFaqHtml qaPairs ++ after)
    by (now rewrite E0).
  unfold after.
  pose proof (countOcc_after_gt (lit "/head") eq_refl b1 (buildFaqHtml qaPairs)
                ((nl ++ lit "      ") ++ lit "</article>" ++ b) E1) as Hgt.
  change (tag (lit "/head")) with (lit "</head>") in Hgt.
  rewrite Hgt, Hb.
  pose proof (countOcc_before_lt (lit "/head") eq_refl (nl ++ lit "      ")
                (lit "</article>" ++ b) (lit "/article>" ++ b) eq_refl) as Hlt.
  change (tag (lit "/head")) with (lit "</head>") in Hlt.
  rewrite Hlt. change (countOcc (lit "</head>") (nl ++ lit "      ")) with 0.
  lia.
Qed.

(** ** Where the block and the structured data go *)

(** X14.  Where the article holds no dollar sign, [injectFaq] puts the FAQ
    block, as [buildFaqHtml] wrote it, in front of the first [</article>]
    of the stripped page, and the structured data in front of the first
    [</head>] of the result; the rest of the page is not touched.  A page
    without [</head>] gets the block and no structured data, and still
    counts as injected. *)
Theorem injectFaq_inserts_verbatim :
  forall html category slug articleContent : str,
    articleOf (stripExistingFaq html) = Some articleContent ->
    3 <= length (extractH2Sections articleContent) ->
    ~ In 36%N articleContent ->
    let qaPairs := toQaPairs (extractH2Sections articleContent) category in
    let url := lit "https://creatinepedia.com/" ++ category ++ lit "/" ++ slug in
    let withBlock :=
      insertBefore (lit "</article>") (buildFaqHtml qaPairs ++ nl ++ lit "      ")
                   (stripExistingFaq html) in
    injectFaq html category slug =
    Out.mk
      (insertBefore (lit "</head>")
         (q "  <script type='application/ld+json'>" ++ nl ++ lit "  " ++
          buildFaqSchema qaPairs url ++ nl ++ lit "  </script>" ++ nl)
         withBlock)
      true /\
    (countOcc (lit "</head>") (stripExistingFaq html) = 0 ->
     injectFaq html category slug = Out.mk withBlock true).
Proof.
  intros html category slug articleContent Ha Hlen Hno qaPairs url withBlock.
  assert (Hpairs : forall qa, In qa qaPairs ->
                     ~ (In 36%N (QA.question qa) \/ In 36%N (QA.answer qa)))
    by (intros qa; now apply toQaPairs_dollar).
  assert (Hblock : ~ In 36%N (buildFaqHtml qaPairs)).
  { intros H. apply buildFaqHtml_dollar in H. destruct H as [qa [Hqa H]].
    now apply (Hpairs qa Hqa). }
  assert (Hschema : ~ In 36%N (buildFaqSchema qaPairs url)).
  { intros H. apply buildFaqSchema_dollar in H. destruct H as [qa [Hqa H]].
    now apply (Hpairs qa Hqa). }
  assert (Hout : injectFaq html category slug =
                 Out.mk
                   (insertBefore (lit "</head>")
                      (q "  <script type='application/ld+json'>" ++ nl ++
                       lit "  " ++ buildFaqSchema qaPairs url ++ nl ++
                       lit "  </script>" ++ nl)
                      withBlock)
                   true).
  { unfold articleOf in Ha. unfold injectFaq.
    destruct (regexMatch false re_article (stripExistingFaq html)) as [m|];
      [|discriminate].
    cbn [option_map] in Ha. injection Ha as Ha. cbv zeta. rewrite Ha.
    apply Nat.ltb_ge in Hlen. rewrite Hlen. fold qaPairs. fold url. f_equal.
    replace (buildFaqHtml qaPairs ++ nl ++ lit "      </article>")
      with ((buildFaqHtml qaPairs ++ nl ++ lit "      ") ++ lit "</article>")
      by (now rewrite <- !app_assoc).
    rewrite (replaceStr_plain (lit "</article>")).
    - rewrite (replaceStr_plain (lit "</head>")); [reflexivity|].
      intros H. rewrite <- !app_assoc in H.
      do 3 (apply In_app_closed in H; [|reflexivity]).
      apply in_app_or in H. destruct H as [H|H]; [now apply Hschema|].
      revert H. now apply existsb_not_In.
    - intros H. rewrite <- !app_assoc in H. apply in_app_or in H.
      destruct H as [H|H]; [now apply Hblock|].
      revert H. now apply existsb_not_In. }
  split; [exact Hout|].
  intros Hhead. rewrite Hout. f_equal. unfold insertBefore at 1.
  rewrite countOcc_splitOn; [reflexivity|].
  apply block_brings_no_head; [|exact Hhead].
  intros qa Hqa. unfold qaPairs, toQaPairs in Hqa.
  apply in_map_iff in Hqa. destruct Hqa as [s [<- Hs]].
  apply In_firstn, section_tagFree in Hs. destruct Hs as [Hh Hans].
  split; [now apply headingToQuestion_tagFree | exact Hans].
Qed.

(** [pagePlain]: the block goes in front of [</article>], the structured
    data in front of [</head>]. *)
Lemma injectFaq_inserts_verbatim_witness :
  let qaPairs := toQaPairs (extractH2Sections threeSections) (lit "dosing") in
  let url := lit "https://creatinepedia.com/" ++ lit "dosing" ++ lit "/" ++ lit "loading" in
  injectFaq pagePlain (lit "dosing") (lit "loading") =
  Out.mk
    (insertBefore (lit "</head>")
       (q "  <script type='application/ld+json'>" ++ nl ++ lit "  " ++
        buildFaqSchema qaPairs url ++ nl ++ lit "  </script>" ++ nl)
       (insertBefore (lit "</article>")
          (buildFaqHtml qaPairs ++ nl ++ lit "      ")
          (stripExistingFaq pagePlain)))
    true.
Proof.
  refine (proj1 (injectFaq_inserts_verbatim pagePlain (lit "dosing")
                   (lit "loading") threeSections _ _ _)).
  - vm_compute. reflexivity.
  - vm_compute. lia.
  - apply existsb_not_In. vm_compute. reflexivity.
Defined.

(** A dollar sign in an answer is read as a replacement pattern: here the
    answer's [$&] comes out as the text that was matched, [</article>].
    The page has no [</head>], and gets no structured data. *)
Example dollar_in_answer :
  let page :=
    lit "<article>" ++
    lit "<h2>Cost</h2><p>One serving costs about $& per day in most shops.</p>" ++
    lit "<h2>Kidney Function</h2><p>Creatinine rises without kidney damage.</p>" ++
    lit "<h2>How Creatine Works</h2><p>It buffers ATP through phosphocreatine.</p>" ++
    lit "</article>" in
  let out := injectFaq page (lit "dosing") (lit "cost") in
  Out.injected out = true /\
  countOcc (lit "costs about $& per day") page = 1 /\
  countOcc (lit "costs about $& per day") (Out.html out) = 1 /\
  countOcc (lit "costs about </article> per day") (Out.html out) = 1 /\
  countOcc (q "'FAQPage'") (Out.html out) = 0.
Proof. vm_compute. repeat split; reflexivity. Qed.

(** * More on the batch *)

(** ** The counters *)

Lemma fileStep_accounts (dir file : str) (count count' : nat) (st st' : runState) :
  fileStep dir file count st = Finished count' st' ->
  accounts 1 count st count' st'.
Proof.
  unfold fileStep, writeFileSync, accounts.
  destruct (readFileSync (disk st) dir file) as [html|message]; [|discriminate].
  cbv zeta. destruct (Out.injected (injectFaq html dir (slugOf file))).
  - destruct (writeError (disk st) dir file); intros H; injection H as <- <-;
      cbn [disk total skipped errors written dirs]; rewrite !length_app;
      simpl; repeat split; lia.
  - intros H; injection H as <- <-. simpl. repeat split; lia.
Qed.

Lemma fileLoop_accounts (dir : str) (fileNames : list str) :
  forall (count count' : nat) (st st' : runState),
    fileLoop dir fileNames count st = Finished count' st' ->
    accounts (length fileNames) count st count' st'.
Proof.
  induction fileNames as [|file more IH]; intros count count' st st' H;
    cbn [fileLoop] in H.
  - injection H as <- <-. unfold accounts. simpl. repeat split; lia.
  - destruct (fileStep dir file count st) as [count1 st1|] eqn:E; [|discriminate].
    apply fileStep_accounts in E. apply IH in H. unfold accounts in *.
    destruct E as [E1 [E2 [E3 E4]]], H as [H1 [H2 [H3 H4]]].
    cbn [length]. repeat split; try congruence; lia.
Qed.

Lemma dirStep_accounts (dir : str) (st st' : runState) :
  dirStep dir st = Finished tt st' ->
  dirs (disk st') = dirs (disk st) /\
  total st' + skipped st' + length (errors st') =
  total st + skipped st + length (errors st) + length (articlesIn (disk st) dir) /\
  length (written st') + total st + length (errors st) =
  length (written st) + total st' + length (errors st').
Proof.
  unfold dirStep, existsSync, readdirSync, articlesIn.
  destruct (dirs (disk st) dir) as [|names|message]; cbn [negb].
  - intros H; injection H as <-. simpl. repeat split; lia.
  - destruct (fileLoop dir (filter isArticleFile names) 0 st)
      as [count st1|] eqn:E; [|discriminate].
    intros H; injection H as <-. apply fileLoop_accounts in E.
    destruct E as [E1 [E2 [E3 E4]]]. cbn [disk total skipped errors written].
    split; [exact E1|split; lia].
  - discriminate.
Qed.

Lemma dirLoop_accounts (fs : FS) (dirNames : list str) :
  forall (st st' : runState),
    dirs (disk st) = dirs fs ->
    dirLoop dirNames st = Finished tt st' ->
    dirs (disk st') = dirs fs /\
    total st' + skipped st' + length (errors st') =
    total st + skipped st + length (errors st) +
    length (flat_map (fun dir => map (pair dir) (articlesIn fs dir)) dirNames) /\
    length (written st') + total st + length (errors st) =
    length (written st) + total st' + length (errors st').
Proof.
  induction dirNames as [|dir more IH]; intros st st' Hd H; cbn [dirLoop] in H.
  - injection H as <-. simpl. split; [exact Hd|split; lia].
  - destruct (dirStep dir st) as [[] st1|] eqn:E; [|discriminate].
    apply dirStep_accounts in E. destruct E as [E1 [E2 E3]].
    assert (Hd1 : dirs (disk st1) = dirs fs) by congruence.
    destruct (IH st1 st' Hd1 H) as [H1 [H2 H3]].
    cbn [flat_map]. rewrite length_app, length_map.
    assert (Ea : articlesIn (disk st) dir = articlesIn fs dir)
      by (unfold articlesIn; now rewrite Hd).
    rewrite Ea in E2. split; [exact H1|split; lia].
Qed.

(** X15.  When [run] comes to its end, every article page it listed is
    counted exactly once, as injected, as skipped or as failed, and
    [writeFileSync] was called once for every injected and every failed
    page. *)
Theorem run_counts_every_page :
  forall (fs : FS) (st : runState),
    run fs = Finished tt st ->
    total st + skipped st + length (errors st) = length (articleFiles fs) /\
    length (written st) = total st + length (errors st).
Proof.
  intros fs st H. unfold run in H.
  apply (dirLoop_accounts fs) in H; [|reflexivity].
  destruct H as [_ [H1 H2]]. cbn [total skipped errors written length] in H1, H2.
  unfold articleFiles. split; lia.
Qed.

(** A directory with a page of two sections, a page of three and an
    index page. *)
Lemma run_counts_every_page_witness :
  let fs := diskOf (lit "dosing")
              [(lit "loading.html", File pageTwoSections);
               (lit "timing.html", File pagePlain);
               (lit "index.html", File pagePlain)] [] in
  let st := finalState (run fs) in
  (total st = 1 /\ skipped st = 1 /\ errors st = []) /\
  total st + skipped st + length (errors st) = length (articleFiles fs) /\
  length (written st) = total st + length (errors st).
Proof.
  intros fs st. split; [vm_compute; repeat split; reflexivity|].
  apply (run_counts_every_page fs st). vm_compute. reflexivity.
Defined.

(** ** Where [run] writes *)

Lemma fileStep_written (dir file : str) (count : nat) (st : runState) (p : str * str) :
  In p (written (finalState (fileStep dir file count st))) ->
  In p (written st) \/ p = (dir, file).
Proof.
  unfold fileStep, writeFileSync.
  destruct (readFileSync (disk st) dir file) as [html|message]; [|now left].
  cbv zeta. destruct (Out.injected (injectFaq html dir (slugOf file)));
    [|now left].
  destruct (writeError (disk st) dir file); cbn [finalState written];
    intros H; apply in_app_or in H; destruct H as [H|[<-|[]]]; auto.
Qed.

Lemma fileStep_dirs (dir file : str) (count : nat) (st : runState) :
  dirs (disk (finalState (fileStep dir file count st))) = dirs (disk st).
Proof.
  unfold fileStep, writeFileSync.
  destruct (readFileSync (disk st) dir file) as [html|message]; [|reflexivity].
  cbv zeta. destruct (Out.injected (injectFaq html dir (slugOf file)));
    [|reflexivity].
  destruct (writeError (disk st) dir file); reflexivity.
Qed.

Lemma fileLoop_written (dir : str) (fileNames : list str) (p : str * str) :
  forall (count : nat) (st : runState),
    In p (written (finalState (fileLoop dir fileNames count st))) ->
    In p (written st) \/ In p (map (pair dir) fileNames).
Proof.
  induction fileNames as [|file more IH]; intros count st H; cbn [fileLoop] in H.
  - now left.
  - pose proof (fileStep_written dir file count st p) as Hs.
    destruct (fileStep dir file count st) as [count1 st1|message st1];
      cbn [finalState] in Hs.
    + apply IH in H. destruct H as [H|H]; [|right; now right].
      destruct (Hs H) as [Hw| ->]; [now left | right; now left].
    + destruct (Hs H) as [Hw| ->]; [now left | right; now left].
Qed.

Lemma fileLoop_dirs (dir : str) (fileNames : list str) :
  forall (count : nat) (st : runState),
    dirs (disk (finalState (fileLoop dir fileNames count st))) = dirs (disk st).
Proof.
  induction fileNames as [|file more IH]; intros count st; cbn [fileLoop];
    [reflexivity|].
  pose proof (fileStep_dirs dir file count st) as Hs.
  destruct (fileStep dir file count st) as [count1 st1|message st1];
    cbn [finalState] in Hs |- *; [now rewrite IH | exact Hs].
Qed.

Lemma dirStep_written (dir : str) (st : runState) (p : str * str) :
  In p (written (finalState (dirStep dir st))) ->
  In p (written st) \/ In p (map (pair dir) (articlesIn (disk st) dir)).
Proof.
  unfold dirStep, existsSync, readdirSync, articlesIn.
  destruct (dirs (disk st) dir) as [|names|message]; cbn [negb finalState];
    [now left | | now left].
  pose proof (fileLoop_written dir (filter isArticleFile names) p 0 st) as Hl.
  destruct (fileLoop dir (filter isArticleFile names) 0 st); exact Hl.
Qed.

Lemma dirStep_dirs (dir : str) (st : runState) :
  dirs (disk (finalState (dirStep dir st))) = dirs (disk st).
Proof.
  unfold dirStep, existsSync, readdirSync.
  destruct (dirs (disk st) dir) as [|names|message]; cbn [negb finalState];
    try reflexivity.
  pose proof (fileLoop_dirs dir (filter isArticleFile names) 0 st) as Hl.
  destruct (fileLoop dir (filter isArticleFile names) 0 st); exact Hl.
Qed.

Lemma dirLoop_written (fs : FS) (dirNames : list str) (p : str * str) :
  forall st : runState,
    dirs (disk st) = dirs fs ->
    In p (written (finalState (dirLoop dirNames st))) ->
    In p (written st) \/
    In p (flat_map (fun dir => map (pair dir) (articlesIn fs dir)) dirNames).
Proof.
  induction dirNames as [|dir more IH]; intros st Hd H; cbn [dirLoop] in H.
  - now left.
  - pose proof (dirStep_written dir st p) as Hs.
    pose proof (dirStep_dirs dir st) as Hsd.
    assert (Ea : articlesIn (disk st) dir = articlesIn fs dir)
      by (unfold articlesIn; now rewrite Hd).
    rewrite Ea in Hs. cbn [flat_map].
    destruct (dirStep dir st) as [u st1|message st1]; cbn [finalState] in *.
    + apply IH in H; [|congruence]. destruct H as [H|H].
      * destruct (Hs H) as [Hw|Hw]; [now left | right; apply in_or_app; now left].
      * right. apply in_or_app. now right.
    + destruct (Hs H) as [Hw|Hw]; [now left | right; apply in_or_app; now left].
Qed.

Lemma articleFiles_In (fs : FS) (dir file : str) :
  In (dir, file) (articleFiles fs) <->
  In dir HTML_SOURCE_DIRS /\
  exists names, dirs fs dir = Dir names /\ In file names /\
                isArticleFile file = true.
Proof.
  unfold articleFiles. rewrite in_flat_map. split.
  - intros [d [Hd H]]. apply in_map_iff in H. destruct H as [f [E Hf]].
    injection E as -> ->. split; [exact Hd|]. unfold articlesIn in Hf.
    destruct (dirs fs dir) as [|names|]; try contradiction.
    apply filter_In in Hf. exists names. tauto.
  - intros [Hd [names [Hn [Hf Ha]]]]. exists dir. split; [exact Hd|].
    apply in_map. unfold articlesIn. rewrite Hn. apply filter_In. tauto.
Qed.

(** X16.  [run] calls [writeFileSync] on listed article pages only: a path
    it writes to lies in one of the six directories, is an entry of the
    directory's listing, ends in [.html] and is not [index.html]; and this
    is so however the run ends. *)
Theorem run_writes_only_article_files :
  forall (fs : FS) (dir file : str),
    In (dir, file) (written (finalState (run fs))) ->
    In dir HTML_SOURCE_DIRS /\
    (exists names, dirs fs dir = Dir names /\ In file names) /\
    endsWith file (lit ".html") = true /\
    str_eqb file (lit "index.html") = false.
Proof.
  intros fs dir file H. unfold run in H.
  apply (dirLoop_written fs) in H; [|reflexivity].
  destruct H as [[]|H]. apply articleFiles_In in H.
  destruct H as [Hd [names [Hn [Hf Ha]]]]. unfold isArticleFile in Ha.
  apply andb_true_iff in Ha. destruct Ha as [He Hi].
  apply negb_true_iff in Hi. split; [exact Hd|]. split; [|now split].
  now exists names.
Qed.

(** The index page of the directory is not written to. *)
Lemma run_writes_only_article_files_witness :
  let fs := diskOf (lit "dosing")
              [(lit "timing.html", File pagePlain);
               (lit "index.html", File pagePlain)] [] in
  written (finalState (run fs)) = [(lit "dosing", lit "timing.html")] /\
  endsWith (lit "timing.html") (lit ".html") = true /\
  str_eqb (lit "timing.html") (lit "index.html") = false.
Proof.
  intros fs. split; [vm_compute; reflexivity|].
  refine (proj2 (proj2 (run_writes_only_article_files fs (lit "dosing")
                          (lit "timing.html") _))).
  vm_compute. left. reflexivity.
Defined.

(** ** How [run] ends *)

Lemma sameShape_refl (fs : FS) : sameShape fs fs.
Proof. split; [reflexivity | intros; reflexivity]. Qed.

Lemma sameShape_trans (a b c : FS) :
  sameShape a b -> sameShape b c -> sameShape a c.
Proof.
  intros [D1 R1] [D2 R2]. split; [congruence|].
  intros dir file. now rewrite R2, R1.
Qed.

Lemma fileStep_shape (dir file : str) (count : nat) (st : runState) :
  sameShape (disk st) (disk (finalState (fileStep dir file count st))).
Proof.
  unfold fileStep, readFileSync, writeFileSync.
  destruct (files (disk st) dir file) as [html|message] eqn:Er;
    [|apply sameShape_refl].
  cbv zeta. destruct (Out.injected (injectFaq html dir (slugOf file)));
    [|apply sameShape_refl].
  destruct (writeError (disk st) dir file); [apply sameShape_refl|].
  cbn [finalState disk]. split; [reflexivity|].
  intros d f. unfold readable. cbn [files].
  destruct (str_eqb d dir && str_eqb f file) eqn:E; [|reflexivity].
  apply andb_true_iff in E. destruct E as [Ed Ef].
  apply str_eqb_eq in Ed. apply str_eqb_eq in Ef. subst d f.
  split; intros _; eauto.
Qed.

Lemma fileStep_finishes (dir file : str) (count : nat) (st : runState) :
  (exists count' st', fileStep dir file count st = Finished count' st') <->
  readable (disk st) dir file.
Proof.
  unfold fileStep, readFileSync, writeFileSync, readable.
  destruct (files (disk st) dir file) as [html|message].
  - split; [eauto|]. intros _. cbv zeta.
    destruct (Out.injected (injectFaq html dir (slugOf file))); [|eauto].
    destruct (writeError (disk st) dir file); eauto.
  - split; [intros [c [s H]]; discriminate | intros [d H]; discriminate].
Qed.

Lemma fileLoop_finishes (dir : str) (fileNames : list str) :
  forall (count : nat) (st : runState),
    (exists count' st', fileLoop dir fileNames count st = Finished count' st') <->
    (forall file, In file fileNames -> readable (disk st) dir file).
Proof.
  induction fileNames as [|file more IH]; intros count st; cbn [fileLoop].
  - split; [intros _ f [] | eauto].
  - pose proof (fileStep_finishes dir file count st) as Hf.
    pose proof (fileStep_shape dir file count st) as [_ Hs].
    destruct (fileStep dir file count st) as [count1 st1|message st1];
      cbn [finalState] in Hs.
    + rewrite IH. split.
      * intros H f [<-|Hin]; [apply Hf; eauto | apply Hs; now apply H].
      * intros H f Hin. apply Hs. apply H. now right.
    + split; [intros [c [s H]]; discriminate|].
      intros H. exfalso. assert (Hr : readable (disk st) dir file)
        by (apply H; now left).
      apply Hf in Hr. destruct Hr as [c [s Hr]]. discriminate.
Qed.

Lemma fileLoop_shape (dir : str) (fileNames : list str) :
  forall (count : nat) (st : runState),
    sameShape (disk st) (disk (finalState (fileLoop dir fileNames count st))).
Proof.
  induction fileNames as [|file more IH]; intros count st; cbn [fileLoop];
    [apply sameShape_refl|].
  pose proof (fileStep_shape dir file count st) as Hs.
  destruct (fileStep dir file count st) as [count1 st1|message st1];
    cbn [finalState] in Hs |- *; [|exact Hs].
  eapply sameShape_trans; [exact Hs | apply IH].
Qed.

Lemma dirStep_shape (dir : str) (st : runState) :
  sameShape (disk st) (disk (finalState (dirStep dir st))).
Proof.
  unfold dirStep, existsSync, readdirSync.
  destruct (dirs (disk st) dir) as [|names|message]; cbn [negb finalState];
    try apply sameShape_refl.
  pose proof (fileLoop_shape dir (filter isArticleFile names) 0 st) as Hl.
  destruct (fileLoop dir (filter isArticleFile names) 0 st); exact Hl.
Qed.

Lemma dirStep_finishes (dir : str) (st : runState) :
  (exists st', dirStep dir st = Finished tt st') <->
  listable (disk st) dir /\
  (forall file, In file (articlesIn (disk st) dir) -> readable (disk st) dir file).
Proof.
  unfold dirStep, existsSync, readdirSync, listable, articlesIn.
  destruct (dirs (disk st) dir) as [|names|message]; cbn [negb].
  - split; [intros _; split; [exact I | intros f []] | eauto].
  - pose proof (fileLoop_finishes dir (filter isArticleFile names) 0 st) as Hl.
    destruct (fileLoop dir (filter isArticleFile names) 0 st) as [count st1|].
    + split; [|eauto]. intros _. split; [exact I|]. apply Hl. eauto.
    + split; [intros [s H]; discriminate|]. intros [_ H].
      apply Hl in H. destruct H as [c [s H]]. discriminate.
  - split; [intros [s H]; discriminate | intros [[] _]].
Qed.

Lemma dirLoop_finishes (fs : FS) (dirNames : list str) :
  forall st : runState,
    sameShape fs (disk st) ->
    (exists st', dirLoop dirNames st = Finished tt st') <->
    (forall dir, In dir dirNames ->
       listable fs dir /\
       forall file, In file (articlesIn fs dir) -> readable fs dir file).
Proof.
  induction dirNames as [|dir more IH]; intros st Hst; cbn [dirLoop].
  - split; [intros _ d [] | eauto].
  - pose proof (dirStep_finishes dir st) as Hf.
    pose proof (dirStep_shape dir st) as Hs.
    assert (Hhere : (listable (disk st) dir /\
                     (forall file, In file (articlesIn (disk st) dir) ->
                                   readable (disk st) dir file)) <->
                    (listable fs dir /\
                     (forall file, In file (articlesIn fs dir) ->
                                   readable fs dir file))).
    { destruct Hst as [Hd Hr]. unfold listable, articlesIn. rewrite Hd.
      split; intros [Hl H]; (split; [exact Hl|]); intros f Hin;
        apply Hr; now apply H. }
    destruct (dirStep dir st) as [[] st1|message st1]; cbn [finalState] in Hs.
    + rewrite (IH st1 (sameShape_trans _ _ _ Hst Hs)). split.
      * intros H d [<-|Hin]; [apply Hhere, Hf; eauto | now apply H].
      * intros H d Hin. apply H. now right.
    + split; [intros [s H]; discriminate|].
      intros H. exfalso. assert (Hd : exists st', Uncaught message st1 = Finished tt st').
      { apply Hf, Hhere, H. now left. }
      destruct Hd as [s Hd]. discriminate.
Qed.

(** X17.  [run] comes to its end exactly when each of the six directories
    is missing or can be listed, and every article page listed can be
    read.  No failure of a write ends it; a listing or a read that fails
    always does. *)
Theorem run_finishes_iff :
  forall fs : FS,
    (exists st, run fs = Finished tt st) <->
    (forall dir, In dir HTML_SOURCE_DIRS -> listable fs dir) /\
    (forall dir file, In (dir, file) (articleFiles fs) -> readable fs dir file).
Proof.
  intros fs. unfold run.
  rewrite (dirLoop_finishes fs HTML_SOURCE_DIRS (mkRun fs [] 0 0 [])
             (sameShape_refl fs)). split.
  - intros H. split; [intros d Hd; now apply H|].
    intros d f Hin. unfold articleFiles in Hin. apply in_flat_map in Hin.
    destruct Hin as [d' [Hd Hf]]. apply in_map_iff in Hf.
    destruct Hf as [f' [E Hf]]. injection E as -> ->. now apply (H d Hd).
  - intros [Hl Hr] d Hd. split; [now apply Hl|]. intros f Hf. apply Hr.
    unfold articleFiles. apply in_flat_map. exists d. split; [exact Hd|].
    now apply in_map.
Qed.

(** ** What [run] leaves on the disk *)

Lemma pair_eqb (d f dir file : str) :
  str_eqb d dir && str_eqb f file = true <-> (d, f) = (dir, file).
Proof.
  rewrite andb_true_iff, !str_eqb_eq. split.
  - intros [-> ->]. reflexivity.
  - intros H. injection H as -> ->. auto.
Qed.

Lemma fileStep_upTo (fs : FS) (done : list (str * str)) (dir file : str)
    (count count' : nat) (st st' : runState) :
  upTo fs done (disk st) -> ~ In (dir, file) done ->
  fileStep dir file count st = Finished count' st' ->
  upTo fs (done ++ [(dir, file)]) (disk st').
Proof.
  intros [Hd [Hw Hf]] Hnew. unfold fileStep, readFileSync, writeFileSync.
  pose proof (proj2 (Hf dir file) Hnew) as Hread.
  destruct (files (disk st) dir file) as [html|message] eqn:Er; [|discriminate].
  cbv zeta.
  assert (Hp : processed fs dir file =
               match writeError fs dir file with
               | None => if Out.injected (injectFaq html dir (slugOf file))
                         then File (Out.html (injectFaq html dir (slugOf file)))
                         else File html
               | Some _ => File html
               end)
    by (unfold processed; now rewrite <- Hread).
  assert (Hsame : forall fs1 : FS,
            dirs fs1 = dirs fs -> writeError fs1 = writeError fs ->
            (forall d f, files fs1 d f =
                         if str_eqb d dir && str_eqb f file
                         then processed fs dir file else files (disk st) d f) ->
            upTo fs (done ++ [(dir, file)]) fs1).
  { intros fs1 H1 H2 H3. split; [exact H1|]. split; [exact H2|].
    intros d f. rewrite H3.
    destruct (str_eqb d dir && str_eqb f file) eqn:E.
    - apply pair_eqb in E. injection E as -> ->. split; [reflexivity|].
      intros Hn. exfalso. apply Hn. apply in_or_app. right. now left.
    - assert (Hne : (d, f) <> (dir, file)).
      { intros Heq. apply pair_eqb in Heq. congruence. }
      split.
      + intros Hin. apply in_app_or in Hin.
        destruct Hin as [Hin|[Heq|[]]]; [now apply Hf | now destruct Hne].
      + intros Hn. apply Hf. intros Hin. apply Hn. apply in_or_app. now left. }
  rewrite Hw.
  destruct (Out.injected (injectFaq html dir (slugOf file))) eqn:Ei.
  - destruct (writeError fs dir file) as [message|] eqn:Ee;
      intros H; injection H as <- <-; cbn [disk]; apply Hsame; auto.
    + intros d f. rewrite Hp.
      destruct (str_eqb d dir && str_eqb f file) eqn:E; [|reflexivity].
      apply pair_eqb in E. injection E as -> ->. exact Er.
    + intros d f. cbn [files]. now rewrite Hp.
  - intros H; injection H as <- <-. cbn [disk]. apply Hsame; auto.
    intros d f. rewrite Hp.
    destruct (str_eqb d dir && str_eqb f file) eqn:E.
    + apply pair_eqb in E. injection E as -> ->. rewrite Er.
      now destruct (writeError fs dir file).
    + reflexivity.
Qed.

Lemma fileLoop_upTo (fs : FS) (dir : str) (fileNames : list str) :
  forall (done : list (str * str)) (count count' : nat) (st st' : runState),
    upTo fs done (disk st) -> NoDup fileNames ->
    (forall file, In file fileNames -> ~ In (dir, file) done) ->
    fileLoop dir fileNames count st = Finished count' st' ->
    upTo fs (done ++ map (pair dir) fileNames) (disk st').
Proof.
  induction fileNames as [|file more IH];
    intros done count count' st st' Hup Hnd Hnew H; cbn [fileLoop] in H.
  - injection H as _ <-. cbn [map]. now rewrite app_nil_r.
  - destruct (fileStep dir file count st) as [count1 st1|] eqn:E; [|discriminate].
    apply (fileStep_upTo fs done) in E; [|exact Hup|apply Hnew; now left].
    inversion Hnd as [|x l Hx Hl]; subst.
    cbn [map]. change (done ++ (dir, file) :: map (pair dir) more)
      with (done ++ [(dir, file)] ++ map (pair dir) more).
    rewrite app_assoc. apply (IH _ count1 count' st1 st' E Hl); [|exact H].
    intros f Hf Hin. apply in_app_or in Hin.
    destruct Hin as [Hin|[Heq|[]]].
    + apply (Hnew f); [now right | exact Hin].
    + injection Heq as <-. contradiction.
Qed.

Lemma dirStep_upTo (fs : FS) (done : list (str * str)) (dir : str)
    (st st' : runState) :
  upTo fs done (disk st) ->
  (forall names, dirs fs dir = Dir names -> NoDup names) ->
  (forall file, ~ In (dir, file) done) ->
  dirStep dir st = Finished tt st' ->
  upTo fs (done ++ map (pair dir) (articlesIn fs dir)) (disk st').
Proof.
  intros Hup Hnd Hnew. pose proof Hup as [Hd _].
  unfold dirStep, existsSync, readdirSync, articlesIn. rewrite Hd.
  destruct (dirs fs dir) as [|names|message]; cbn [negb].
  - intros H; injection H as <-. cbn [map]. now rewrite app_nil_r.
  - destruct (fileLoop dir (filter isArticleFile names) 0 st)
      as [count st1|] eqn:E; [|discriminate].
    intros H; injection H as <-. cbn [disk].
    apply (fileLoop_upTo fs dir _ done 0 count st st1 Hup); [| |exact E].
    + apply NoDup_filter. now apply Hnd.
    + intros f _. apply Hnew.
  - discriminate.
Qed.

Lemma dirLoop_upTo (fs : FS) (dirNames : list str) :
  forall (done : list (str * str)) (st st' : runState),
    upTo fs done (disk st) ->
    (forall dir names, dirs fs dir = Dir names -> NoDup names) ->
    NoDup dirNames ->
    (forall dir file, In dir dirNames -> ~ In (dir, file) done) ->
    dirLoop dirNames st = Finished tt st' ->
    upTo fs (done ++ flat_map (fun dir => map (pair dir) (articlesIn fs dir))
                              dirNames)
         (disk st').
Proof.
  induction dirNames as [|dir more IH];
    intros done st st' Hup Hlist Hnd Hnew H; cbn [dirLoop] in H.
  - injection H as <-. cbn [flat_map]. now rewrite app_nil_r.
  - destruct (dirStep dir st) as [[] st1|] eqn:E; [|discriminate].
    apply (dirStep_upTo fs done) in E;
      [|exact Hup|apply Hlist|intros f; apply Hnew; now left].
    inversion Hnd as [|x l Hx Hl]; subst.
    cbn [flat_map]. rewrite app_assoc.
    apply (IH _ st1 st' E Hlist Hl); [|exact H].
    intros d f Hd Hin. apply in_app_or in Hin. destruct Hin as [Hin|Hin].
    + apply (Hnew d f); [now right | exact Hin].
    + apply in_map_iff in Hin. destruct Hin as [f' [Heq _]].
      injection Heq as <- _. contradiction.
Qed.

(** X18.  What a run that comes to its end leaves on the disk, given that no
    listing names a file twice: every listed article page holds the text
    that [injectFaq] made of it, when that injected and the write did not
    throw, and its old text otherwise; every other path holds what it
    held. *)
Theorem run_rewrites_article_files :
  forall (fs : FS) (st : runState),
    run fs = Finished tt st ->
    (forall dir names, dirs fs dir = Dir names -> NoDup names) ->
    forall dir file,
      (In (dir, file) (articleFiles fs) ->
       files (disk st) dir file = processed fs dir file) /\
      (~ In (dir, file) (articleFiles fs) ->
       files (disk st) dir file = files fs dir file).
Proof.
  intros fs st H Hlist. unfold run in H.
  apply (dirLoop_upTo fs HTML_SOURCE_DIRS []) in H.
  - destruct H as [_ [_ H]]. exact H.
  - split; [reflexivity|]. split; [reflexivity|]. intros d f.
    split; [intros [] | reflexivity].
  - exact Hlist.
  - unfold HTML_SOURCE_DIRS.
    repeat (constructor; [simpl; intuition discriminate|]). constructor.
  - intros d f _ [].
Qed.

(** The page of three sections holds what [injectFaq] made of it. *)
Lemma run_rewrites_article_files_witness :
  let fs := diskOf (lit "dosing")
              [(lit "loading.html", File pageTwoSections);
               (lit "timing.html", File pagePlain)] [lit "readonly.html"] in
  let st := finalState (run fs) in
  processed fs (lit "dosing") (lit "timing.html") =
  File (Out.html (injectFaq pagePlain (lit "dosing") (lit "timing"))) /\
  files (disk st) (lit "dosing") (lit "timing.html") =
  processed fs (lit "dosing") (lit "timing.html").
Proof.
  intros fs st. split; [vm_compute; reflexivity|].
  refine (proj1 (run_rewrites_article_files fs st _ _ (lit "dosing")
                   (lit "timing.html")) _).
  - vm_compute. reflexivity.
  - intros dir names H. cbn [fs diskOf dirs] in H.
    destruct (str_eqb dir (lit "dosing")); [|discriminate].
    injection H as <-. cbn [map fst].
    repeat (constructor; [simpl; intuition discriminate|]). constructor.
  - vm_compute. tauto.
Defined.

(** * Reading the structured data back *)

Lemma parseValue_S (fuel : nat) (s : str) :
  parseValue (S fuel) s =
  match skipSpace s with
  | [] => None
  | c :: s1 =>
      if N.eqb c 34 then
        match parseString s1 with
        | Some (t, r) => Some (JStr t, r)
        | None => None
        end
      else if N.eqb c 91 then
        match skipSpace s1 with
        | [] => None
        | d :: s2 =>
            if N.eqb d 93 then Some (JArr [], s2)
            else
              match parseElements fuel s1 with
              | Some (vs, r) => Some (JArr vs, r)
              | None => None
              end
        end
      else if N.eqb c 123 then
        match skipSpace s1 with
        | [] => None
        | d :: s2 =>
            if N.eqb d 125 then Some (JObj [], s2)
            else
              match parseMembers fuel s1 with
              | Some (kvs, r) => Some (JObj kvs, r)
              | None => None
              end
        end
      else None
  end.
Proof. reflexivity. Qed.

Lemma parseElements_S (fuel : nat) (s : str) :
  parseElements (S fuel) s =
  match parseValue fuel s with
  | Some (v, s1) =>
      match skipSpace s1 with
      | [] => None
      | d :: s2 =>
          if N.eqb d 44 then
            match parseElements fuel s2 with
            | Some (vs, r) => Some (v :: vs, r)
            | None => None
            end
          else if N.eqb d 93 then Some ([v], s2)
          else None
      end
  | None => None
  end.
Proof. reflexivity. Qed.

Lemma parseMembers_S (fuel : nat) (s : str) :
  parseMembers (S fuel) s =
  match skipSpace s with
  | [] => None
  | c :: s1 =>
      if N.eqb c 34 then
        match parseString s1 with
        | Some (k, s2) =>
            match skipSpace s2 with
            | [] => None
            | d :: s3 =>
                if N.eqb d 58 then
                  match parseValue fuel s3 with
                  | Some (v, s4) =>
                      match skipSpace s4 with
                      | [] => None
                      | e :: s5 =>
                          if N.eqb e 44 then
                            match parseMembers fuel s5 with
                            | Some (kvs, r) => Some ((k, v) :: kvs, r)
                            | None => None
                            end
                          else if N.eqb e 125 then Some ([(k, v)], s5)
                          else None
                      end
                  | None => None
                  end
                else None
            end
        | None => None
        end
      else None
  end.
Proof. reflexivity. Qed.

Lemma skipSpace_app (ws s : str) :
  forallb isJsonSpace ws = true -> skipSpace (ws ++ s) = skipSpace s.
Proof.
  induction ws as [|c ws IH]; [reflexivity|]. cbn [forallb app skipSpace].
  intros H. apply andb_true_iff in H. destruct H as [Hc Hws].
  rewrite Hc. now apply IH.
Qed.

Lemma parseValue_skip (fuel : nat) (ws s : str) :
  forallb isJsonSpace ws = true ->
  parseValue fuel (ws ++ s) = parseValue fuel s.
Proof.
  intros H. destruct fuel as [|fuel]; [reflexivity|].
  now rewrite !parseValue_S, (skipSpace_app ws s H).
Qed.

Lemma hexValue_hexDigit (n : N) : (n < 16)%N -> hexValue (hexDigit n) = Some n.
Proof.
  intros H. unfold hexDigit, hexValue, inRange.
  destruct (N.ltb_spec n 10).
  - replace ((48 <=? 48 + n)%N && (48 + n <=? 57)%N) with true.
    + f_equal. lia.
    + symmetry. apply andb_true_iff. split; apply N.leb_le; lia.
  - replace ((48 <=? 87 + n)%N && (87 + n <=? 57)%N) with false.
    + replace ((97 <=? 87 + n)%N && (87 + n <=? 102)%N) with true.
      * f_equal. lia.
      * symmetry. apply andb_true_iff. split; apply N.leb_le; lia.
    + symmetry. apply andb_false_iff. right. apply N.leb_gt. lia.
Qed.

Lemma hex_digits_value (c : code) :
  (c < 65536)%N ->
  (4096 * ((c / 4096) mod 16) + 256 * ((c / 256) mod 16) +
   16 * ((c / 16) mod 16) + c mod 16)%N = c.
Proof.
  intros H.
  pose proof (N.div_mod c 16 ltac:(lia)).
  pose proof (N.div_mod (c / 16) 16 ltac:(lia)).
  pose proof (N.div_mod (c / 256) 16 ltac:(lia)).
  pose proof (N.div_mod (c / 4096) 16 ltac:(lia)).
  assert (E1 : (c / 256 = c / 16 / 16)%N) by (rewrite N.Div0.div_div; reflexivity).
  assert (E2 : (c / 4096 = c / 256 / 16)%N) by (rewrite N.Div0.div_div; reflexivity).
  assert (E3 : (c / 4096 / 16 = 0)%N).
  { rewrite N.Div0.div_div. apply N.div_small. exact H. }
  rewrite E3 in *. rewrite <- E2 in *. rewrite <- E1 in *. lia.
Qed.

Section ParseString.
Variables (s t r : str).
Hypothesis tail : parseString s = Some (t, r).

Lemma parseString_simple (d x : code) :
  simpleEscape d = Some x -> d <> 117%N ->
  parseString (92%N :: d :: s) = Some (x :: t, r).
Proof.
  intros Hx Hd. cbn [parseString]. cbn [N.eqb Pos.eqb].
  destruct (N.eqb_spec d 117); [contradiction|]. now rewrite Hx, tail.
Qed.

Lemma parseString_unicode (c : code) :
  (c < 65536)%N -> parseString (unicodeEscape c ++ s) = Some (c :: t, r).
Proof.
  intros Hc. unfold unicodeEscape. cbn [lit app String.length].
  change (lit "\u") with [92%N; 117%N]. cbn [app parseString N.eqb Pos.eqb].
  rewrite !hexValue_hexDigit by (apply N.mod_lt; lia).
  rewrite tail. now rewrite hex_digits_value.
Qed.

Lemma parseString_plain (c : code) :
  c <> 34%N -> c <> 92%N -> (32 <= c)%N ->
  parseString (c :: s) = Some (c :: t, r).
Proof.
  intros H1 H2 H3. cbn [parseString].
  destruct (N.eqb_spec c 34); [contradiction|].
  destruct (N.eqb_spec c 92); [contradiction|].
  destruct (N.ltb_spec c 32); [lia|]. now rewrite tail.
Qed.

End ParseString.

Lemma surrogate_range (c : code) :
  isHighSurrogate c = true \/ isLowSurrogate c = true ->
  c <> 34%N /\ c <> 92%N /\ (32 <= c)%N /\ (c < 65536)%N.
Proof.
  unfold isHighSurrogate, isLowSurrogate, inRange.
  intros [H|H]; apply andb_true_iff in H; destruct H as [H1 H2];
    apply N.leb_le in H1, H2; lia.
Qed.

(** A quoted string reads back as the text that was quoted. *)
Lemma parseString_quoteBody (len : nat) :
  forall s rest, length s <= len ->
    parseString (quoteBody s ++ 34%N :: rest) = Some (s, rest).
Proof.
  induction len as [|len IH]; intros s rest Hlen.
  - destruct s; [reflexivity | simpl in Hlen; lia].
  - destruct s as [|c s]; [reflexivity|]. cbn [quoteBody].
    assert (Hs : parseString (quoteBody s ++ 34%N :: rest) = Some (s, rest))
      by (apply IH; simpl in Hlen; lia).
    destruct (N.eqb_spec c 8) as [->|H8];
      [now apply parseString_simple|].
    destruct (N.eqb_spec c 9) as [->|H9];
      [now apply parseString_simple|].
    destruct (N.eqb_spec c 10) as [->|H10];
      [now apply parseString_simple|].
    destruct (N.eqb_spec c 12) as [->|H12];
      [now apply parseString_simple|].
    destruct (N.eqb_spec c 13) as [->|H13];
      [now apply parseString_simple|].
    destruct (N.eqb_spec c 34) as [->|H34];
      [now apply parseString_simple|].
    destruct (N.eqb_spec c 92) as [->|H92];
      [now apply parseString_simple|].
    destruct (N.ltb_spec c 32) as [H32|H32].
    { rewrite <- app_assoc. apply parseString_unicode; [exact Hs | lia]. }
    destruct (isHighSurrogate c) eqn:Hhigh.
    + destruct (surrogate_range c (or_introl Hhigh)) as [_ [_ [_ Hc]]].
      destruct s as [|d s].
      * now apply (parseString_unicode (34%N :: rest) [] rest).
      * destruct (isLowSurrogate d) eqn:Hlow.
        -- destruct (surrogate_range d (or_intror Hlow)) as [D1 [D2 [D3 _]]].
           cbn [app]. apply parseString_plain; try assumption.
           apply parseString_plain; try assumption.
           apply IH. simpl in Hlen. lia.
        -- rewrite <- app_assoc. now apply parseString_unicode.
    + destruct (isLowSurrogate c) eqn:Hlow.
      * destruct (surrogate_range c (or_intror Hlow)) as [_ [_ [_ Hc]]].
        rewrite <- app_assoc. now apply parseString_unicode.
      * cbn [app]. now apply parseString_plain.
Qed.

Lemma parseString_quoteJSONString (s rest : str) :
  parseString (quoteBody s ++ q "'" ++ rest) = Some (s, rest).
Proof. now apply (parseString_quoteBody (length s)). Qed.

Lemma spaces_app (a b : str) : spaces a -> spaces b -> spaces (a ++ b).
Proof. unfold spaces. intros Ha Hb. rewrite forallb_app. now rewrite Ha, Hb. Qed.

Lemma skipSpace_token (c : code) (s : str) :
  isJsonSpace c = false -> skipSpace (c :: s) = c :: s.
Proof. intros H. cbn [skipSpace]. now rewrite H. Qed.

(** The token in front of the text that is read. *)
Ltac skip_token w :=
  let c := eval vm_compute in (hd 0%N w) in
  let w' := eval vm_compute in (tl w) in
  match goal with
  | |- context [skipSpace (w ++ ?x)] =>
      change (skipSpace (w ++ x)) with (skipSpace (c :: w' ++ x));
      rewrite (skipSpace_token c (w' ++ x) eq_refl); cbv beta iota;
      try change (@nil code ++ x) with x;
      repeat match goal with
             | |- context [N.eqb c ?k] =>
                 let b := eval vm_compute in (N.eqb c k) in
                 change (N.eqb c k) with b; cbv beta iota
             end
  end.

Lemma parseElements_join (indent rest tail : str) :
  spaces indent -> skipSpace tail = 93%N :: rest ->
  forall vs, Forall readsBack vs -> vs <> [] ->
  forall fuel ws, spaces ws -> needElements vs <= fuel ->
    parseElements fuel
      (ws ++ join (lit "," ++ nl ++ indent) (map (stringify indent) vs) ++ tail) =
    Some (vs, rest).
Proof.
  intros Hin Htail vs Hvs. induction Hvs as [|v vs Hv Hvs IH]; [congruence|].
  intros _ fuel ws Hws Hfuel. cbn [needElements fold_right] in Hfuel.
  fold (needElements vs) in Hfuel.
  destruct fuel as [|fuel]; [lia|]. apply le_S_n in Hfuel.
  rewrite parseElements_S, parseValue_skip by exact Hws.
  destruct vs as [|v' vs].
  - cbn [map join]. rewrite (Hv indent tail fuel Hin) by lia.
    rewrite Htail. reflexivity.
  - change (join (lit "," ++ nl ++ indent) (map (stringify indent) (v :: v' :: vs)))
      with (stringify indent v ++ (lit "," ++ nl ++ indent) ++
            join (lit "," ++ nl ++ indent) (map (stringify indent) (v' :: vs))).
    rewrite <- !app_assoc. rewrite (Hv indent _ fuel Hin) by lia.
    skip_token (lit ","). rewrite (app_assoc nl indent).
    rewrite IH; [reflexivity | discriminate | | lia].
    apply spaces_app; [reflexivity | exact Hin].
Qed.

Lemma parseMembers_join (indent rest tail : str) :
  spaces indent -> skipSpace tail = 125%N :: rest ->
  forall kvs, Forall (fun kv => readsBack (snd kv)) kvs -> kvs <> [] ->
  forall fuel ws, spaces ws -> needMembers kvs <= fuel ->
    parseMembers fuel
      (ws ++ join (lit "," ++ nl ++ indent)
                  (map (fun kv => match kv with
                                  | (k, x) => quoteJSONString k ++ lit ": " ++
                                              stringify indent x
                                  end) kvs) ++ tail) =
    Some (kvs, rest).
Proof.
  intros Hin Htail kvs Hkvs.
  induction Hkvs as [|[k v] kvs Hv Hkvs IH]; [congruence|].
  intros _ fuel ws Hws Hfuel. cbn [needMembers fold_right snd] in Hfuel.
  fold (needMembers kvs) in Hfuel. cbn [snd] in Hv.
  destruct fuel as [|fuel]; [lia|]. apply le_S_n in Hfuel.
  rewrite parseMembers_S, skipSpace_app by exact Hws.
  destruct kvs as [|kv' kvs].
  - cbn [map join]. unfold quoteJSONString. rewrite <- !app_assoc.
    skip_token (q "'"). rewrite parseString_quoteJSONString.
    skip_token (lit ": ").
    rewrite (parseValue_skip fuel [32%N]) by reflexivity.
    rewrite (Hv indent tail fuel Hin) by lia.
    rewrite Htail. reflexivity.
  - set (item := fun kv : str * json =>
                   match kv with
                   | (k, x) => quoteJSONString k ++ lit ": " ++ stringify indent x
                   end) in *.
    change (join (lit "," ++ nl ++ indent) (map item ((k, v) :: kv' :: kvs)))
      with ((quoteJSONString k ++ lit ": " ++ stringify indent v) ++
            (lit "," ++ nl ++ indent) ++
            join (lit "," ++ nl ++ indent) (map item (kv' :: kvs))).
    unfold quoteJSONString. rewrite <- !app_assoc.
    skip_token (q "'"). rewrite parseString_quoteJSONString.
    skip_token (lit ": ").
    rewrite (parseValue_skip fuel [32%N]) by reflexivity.
    rewrite (Hv indent _ fuel Hin) by lia.
    skip_token (lit ","). rewrite (app_assoc nl indent).
    rewrite IH; [reflexivity | discriminate | | lia].
    apply spaces_app; [reflexivity | exact Hin].
Qed.

Lemma join_head (sep x : str) (xs : list str) :
  join sep (x :: xs) =
  x ++ match xs with [] => [] | _ :: _ => sep ++ join sep xs end.
Proof. destruct xs; [now rewrite app_nil_r | reflexivity]. Qed.

(** A serialized value starts with the token of its kind. *)
Lemma stringify_head (v : json) (indent rest : str) :
  exists c t, stringify indent v ++ rest = c :: t /\
              isJsonSpace c = false /\ N.eqb c 93 = false.
Proof.
  destruct v as [s|[|v vs]|[|kv kvs]]; eexists; eexists;
    (split; [reflexivity | split; reflexivity]).
Qed.

(** Every value reads back from its serialization. *)
Lemma stringify_readsBack (v : json) : readsBack v.
Proof.
  induction v as [s|vs IH|kvs IH] using json_nested_ind;
    intros indent rest fuel Hin Hfuel;
    (destruct fuel as [|fuel]; [cbn in Hfuel; lia|]); rewrite parseValue_S.
  - cbn [stringify]. unfold quoteJSONString. rewrite <- !app_assoc.
    skip_token (q "'"). now rewrite parseString_quoteJSONString.
  - destruct vs as [|v0 vs0]; [reflexivity|].
    set (vs := v0 :: vs0) in *.
    change (stringify indent (JArr vs)) with
      (lit "[" ++ nl ++ (indent ++ lit "  ") ++
       join (lit "," ++ nl ++ indent ++ lit "  ")
            (map (stringify (indent ++ lit "  ")) vs) ++
       nl ++ indent ++ lit "]").
    rewrite <- !app_assoc. skip_token (lit "["). cbn [app].
    assert (Hws : spaces (nl ++ indent ++ lit "  ")).
    { apply (spaces_app nl); [reflexivity|]. now apply spaces_app. }
    assert (Htail : skipSpace (nl ++ indent ++ lit "]" ++ rest) = 93%N :: rest).
    { rewrite (app_assoc nl indent), skipSpace_app; [reflexivity|].
      now apply (spaces_app nl). }
    assert (Hread : parseElements fuel
              (nl ++ indent ++ lit "  " ++
               join (lit "," ++ nl ++ indent ++ lit "  ")
                    (map (stringify (indent ++ lit "  ")) vs) ++
               nl ++ indent ++ lit "]" ++ rest) = Some (vs, rest)).
    { pose proof (parseElements_join (indent ++ lit "  ") rest
                    (nl ++ indent ++ lit "]" ++ rest)
                    (spaces_app indent (lit "  ") Hin eq_refl) Htail vs IH
                    ltac:(discriminate) fuel (nl ++ indent ++ lit "  ") Hws) as E.
      rewrite <- !app_assoc in E. apply E. change (S (needElements vs) <= S fuel) in Hfuel. lia. }
    rewrite Hread.
    destruct (stringify_head v0 (indent ++ lit "  ")
                (match map (stringify (indent ++ lit "  ")) vs0 with
                 | [] => []
                 | _ :: _ => (lit "," ++ nl ++ indent ++ lit "  ") ++
                             join (lit "," ++ nl ++ indent ++ lit "  ")
                                  (map (stringify (indent ++ lit "  ")) vs0)
                 end ++ nl ++ indent ++ lit "]" ++ rest))
      as [c [t [E [Hc H93]]]].
    replace (nl ++ indent ++ lit "  " ++
             join (lit "," ++ nl ++ indent ++ lit "  ")
               (map (stringify (indent ++ lit "  ")) vs) ++
             nl ++ indent ++ lit "]" ++ rest)
      with ((nl ++ indent ++ lit "  ") ++ c :: t).
    + rewrite skipSpace_app, skipSpace_token by assumption. now rewrite H93.
    + rewrite <- E. unfold vs. cbn [map]. rewrite join_head.
      now rewrite <- !app_assoc.
  - destruct kvs as [|[k0 v0] kvs0]; [reflexivity|].
    set (kvs := (k0, v0) :: kvs0) in *.
    set (item := fun kv : str * json =>
                   match kv with
                   | (k, x) => quoteJSONString k ++ lit ": " ++
                               stringify (indent ++ lit "  ") x
                   end).
    change (stringify indent (JObj kvs)) with
      (lit "{" ++ nl ++ (indent ++ lit "  ") ++
       join (lit "," ++ nl ++ indent ++ lit "  ") (map item kvs) ++
       nl ++ indent ++ lit "}").
    rewrite <- !app_assoc. skip_token (lit "{"). cbn [app].
    assert (Hws : spaces (nl ++ indent ++ lit "  ")).
    { apply (spaces_app nl); [reflexivity|]. now apply spaces_app. }
    assert (Htail : skipSpace (nl ++ indent ++ lit "}" ++ rest) = 125%N :: rest).
    { rewrite (app_assoc nl indent), skipSpace_app; [reflexivity|].
      now apply (spaces_app nl). }
    assert (Hread : parseMembers fuel
              (nl ++ indent ++ lit "  " ++
               join (lit "," ++ nl ++ indent ++ lit "  ") (map item kvs) ++
               nl ++ indent ++ lit "}" ++ rest) = Some (kvs, rest)).
    { pose proof (parseMembers_join (indent ++ lit "  ") rest
                    (nl ++ indent ++ lit "}" ++ rest)
                    (spaces_app indent (lit "  ") Hin eq_refl) Htail kvs IH
                    ltac:(discriminate) fuel (nl ++ indent ++ lit "  ") Hws) as E.
      rewrite <- !app_assoc in E. apply E. change (S (needMembers kvs) <= S fuel) in Hfuel. lia. }
    rewrite Hread.
    replace (nl ++ indent ++ lit "  " ++
             join (lit "," ++ nl ++ indent ++ lit "  ") (map item kvs) ++
             nl ++ indent ++ lit "}" ++ rest)
      with ((nl ++ indent ++ lit "  ") ++
            34%N :: quoteBody k0 ++ q "'" ++ lit ": " ++
            stringify (indent ++ lit "  ") v0 ++
            match map item kvs0 with
            | [] => []
            | _ :: _ => (lit "," ++ nl ++ indent ++ lit "  ") ++
                        join (lit "," ++ nl ++ indent ++ lit "  ") (map item kvs0)
            end ++ nl ++ indent ++ lit "}" ++ rest).
    + rewrite skipSpace_app, skipSpace_token by (assumption || reflexivity).
      reflexivity.
    + unfold kvs. cbn [map]. rewrite join_head.
      change (item (k0, v0)) with
        (quoteJSONString k0 ++ lit ": " ++ stringify (indent ++ lit "  ") v0).
      unfold quoteJSONString. now rewrite <- !app_assoc.
Qed.

Lemma need_join (A : Type) (cost : A -> nat) (f : A -> str) (sep : str)
    (xs : list A) :
  2 <= length sep ->
  Forall (fun x => cost x <= length (f x)) xs ->
  fold_right (fun x n => S (Nat.max (cost x) n)) 0 xs <=
  length (join sep (map f xs)) + 1.
Proof.
  intros Hsep H. induction H as [|x xs Hx Hxs IH]; [cbn; lia|].
  cbn [fold_right map]. rewrite join_head, length_app.
  destruct xs as [|x' xs]; [cbn in *; lia|].
  cbn [map]. cbn [map] in IH. rewrite length_app. lia.
Qed.

(** The length of a serialization is fuel enough to read it back. *)
Lemma jsonFuel_length (v : json) :
  forall indent, jsonFuel v <= length (stringify indent v).
Proof.
  induction v as [s|vs IH|kvs IH] using json_nested_ind; intros indent.
  - cbn. lia.
  - destruct vs as [|v0 vs0]; [cbn; lia|].
    set (vs := v0 :: vs0) in *.
    change (stringify indent (JArr vs)) with
      (lit "[" ++ nl ++ (indent ++ lit "  ") ++
       join (lit "," ++ nl ++ indent ++ lit "  ")
            (map (stringify (indent ++ lit "  ")) vs) ++
       nl ++ indent ++ lit "]").
    change (jsonFuel (JArr vs)) with
      (S (fold_right (fun x n => S (Nat.max (jsonFuel x) n)) 0 vs)).
    pose proof (need_join json jsonFuel (stringify (indent ++ lit "  "))
                  (lit "," ++ nl ++ indent ++ lit "  ") vs) as H.
    rewrite !length_app. rewrite !length_app in H.
    change (length (lit "[")) with 1. change (length nl) with 1.
    change (length (lit ",")) with 1 in H. change (length nl) with 1 in H.
    assert (Hvs : Forall (fun x => jsonFuel x <=
                           length (stringify (indent ++ lit "  ") x)) vs).
    { apply Forall_forall. intros x Hx. rewrite Forall_forall in IH.
      now apply IH. }
    specialize (H ltac:(lia) Hvs). lia.
  - destruct kvs as [|kv0 kvs0]; [cbn; lia|].
    set (kvs := kv0 :: kvs0) in *.
    set (item := fun kv : str * json =>
                   match kv with
                   | (k, x) => quoteJSONString k ++ lit ": " ++
                               stringify (indent ++ lit "  ") x
                   end).
    change (stringify indent (JObj kvs)) with
      (lit "{" ++ nl ++ (indent ++ lit "  ") ++
       join (lit "," ++ nl ++ indent ++ lit "  ") (map item kvs) ++
       nl ++ indent ++ lit "}").
    change (jsonFuel (JObj kvs)) with
      (S (fold_right (fun kv n => S (Nat.max (jsonFuel (snd kv)) n)) 0 kvs)).
    pose proof (need_join (str * json) (fun kv => jsonFuel (snd kv)) item
                  (lit "," ++ nl ++ indent ++ lit "  ") kvs) as H.
    rewrite !length_app. rewrite !length_app in H.
    change (length (lit "{")) with 1. change (length nl) with 1.
    change (length (lit ",")) with 1 in H. change (length nl) with 1 in H.
    assert (Hkvs : Forall (fun kv => jsonFuel (snd kv) <= length (item kv)) kvs).
    { apply Forall_forall. intros [k x] Hx. rewrite Forall_forall in IH.
      unfold item. rewrite !length_app. specialize (IH (k, x) Hx). cbn [snd] in *.
      specialize (IH (indent ++ lit "  ")). lia. }
    specialize (H ltac:(lia) Hkvs). lia.
Qed.

Lemma skipSpace_spaces (ws : str) : spaces ws -> skipSpace ws = [].
Proof.
  intros H. rewrite <- (app_nil_r ws). now rewrite skipSpace_app.
Qed.

(** [JSON.parse] undoes [JSON.stringify], with white space around the
    text or without. *)
Lemma parseJson_stringify (v : json) (before after : str) :
  spaces before -> spaces after ->
  parseJson (before ++ stringify [] v ++ after) = Some v.
Proof.
  intros Hb Ha. unfold parseJson. rewrite parseValue_skip by exact Hb.
  rewrite (stringify_readsBack v [] after).
  - now rewrite skipSpace_spaces.
  - reflexivity.
  - rewrite !length_app. pose proof (jsonFuel_length v []). lia.
Qed.

(** [buildFaqSchema] serializes the FAQPage object; the address of the
    page is not part of it. *)
Lemma buildFaqSchema_value (qaPairs : list QA.t) (url : str) :
  buildFaqSchema qaPairs url = stringify [] (faqSchemaValue qaPairs).
Proof. reflexivity. Qed.

(** X19.  The structured data is a JSON text, whatever the questions and
    the answers hold: read back, it is the FAQPage object with one Question
    for each pair, in their order, [name] the question and
    [acceptedAnswer.text] the answer, code unit for code unit.  The same
    holds with the line breaks and the indentation that [injectFaq] puts
    around it inside the script element. *)
Theorem buildFaqSchema_parses_back (qaPairs : list QA.t) (url : str) :
  parseJson (buildFaqSchema qaPairs url) = Some (faqSchemaValue qaPairs) /\
  parseJson (nl ++ lit "  " ++ buildFaqSchema qaPairs url ++ nl ++ lit "  ") =
  Some (faqSchemaValue qaPairs).
Proof.
  rewrite (buildFaqSchema_value qaPairs url). split.
  - pose proof (parseJson_stringify (faqSchemaValue qaPairs) [] []
                  eq_refl eq_refl) as H.
    cbn [app] in H. rewrite app_nil_r in H. exact H.
  - rewrite (app_assoc nl (lit "  ")).
    apply parseJson_stringify; reflexivity.
Qed.

(** A question with quotation marks and an answer with a backslash, a line
    feed, a lone surrogate and a backspace. *)
Example structured_data_example :
  let qaPairs := [QA.mk (q "What is 'x'?")
                        (lit "a\b" ++ nl ++ [55357%N; 8%N])] in
  parseJson (buildFaqSchema qaPairs []) = Some (faqSchemaValue qaPairs).
Proof. vm_compute. reflexivity. Qed.

(** * The pairs in the output *)

(** ** Quotation marks of a serialization *)

Lemma last_cons (a : str) : forall c d : code, last (c :: a) d = last a c.
Proof.
  induction a as [|x a IH]; intros c d; [reflexivity|].
  change (last (c :: x :: a) d) with (last (x :: a) d).
  now rewrite (IH x d), (IH x c).
Qed.

Lemma quotesGuarded_app (a b : str) :
  forall before behind,
    quotesGuarded before (a ++ b) behind =
    quotesGuarded before a (hd behind b) && quotesGuarded (last a before) b behind.
Proof.
  induction a as [|c a IH]; intros before behind; [reflexivity|].
  cbn [app quotesGuarded]. rewrite IH.
  replace (hd behind (a ++ b)) with (hd (hd behind b) a) by (now destruct a).
  rewrite (last_cons a c before). now rewrite andb_assoc.
Qed.

(** A text without quotation marks. *)
Lemma quotesGuarded_plain (s : str) :
  existsb (N.eqb 34) s = false ->
  forall before behind, quotesGuarded before s behind = true.
Proof.
  induction s as [|c s IH]; intros H before behind; [reflexivity|].
  cbn [existsb] in H. apply orb_false_iff in H. destruct H as [Hc Hs].
  cbn [quotesGuarded]. rewrite (N.eqb_sym c 34), Hc. cbn [negb orb andb].
  now apply IH.
Qed.

Lemma hexDigit_quote (n : N) : N.eqb 34 (hexDigit n) = false.
Proof. unfold hexDigit. apply N.eqb_neq. destruct (N.ltb n 10); lia. Qed.

Lemma unicodeEscape_quote (c : code) : existsb (N.eqb 34) (unicodeEscape c) = false.
Proof.
  unfold unicodeEscape. rewrite existsb_app. cbn [existsb].
  now rewrite !hexDigit_quote.
Qed.

(** In the body of a quoted string every quotation mark has a backslash
    before it. *)
Lemma quotesGuarded_quoteBody (len : nat) :
  forall s, length s <= len ->
    forall before behind, quotesGuarded before (quoteBody s) behind = true.
Proof.
  assert (Hescape : forall d, N.eqb 34 d = false ->
            forall before behind, quotesGuarded before [92%N; d] behind = true).
  { intros d Hd before behind. cbn [quotesGuarded].
    rewrite (N.eqb_sym d 34), Hd. reflexivity. }
  assert (Hquote : forall before behind,
            quotesGuarded before [92%N; 34%N] behind = true)
    by (intros before behind; reflexivity).
  induction len as [|len IH]; intros s Hlen.
  - destruct s; [reflexivity | simpl in Hlen; lia].
  - destruct s as [|c s]; [reflexivity|]. cbn [quoteBody].
    assert (Hs : forall before behind,
               quotesGuarded before (quoteBody s) behind = true)
      by (apply IH; simpl in Hlen; lia).
    assert (Hone : forall piece,
               (forall before behind, quotesGuarded before piece behind = true) ->
               forall before behind,
                 quotesGuarded before (piece ++ quoteBody s) behind = true).
    { intros piece Hp before behind. rewrite quotesGuarded_app.
      now rewrite Hp, Hs. }
    destruct (N.eqb c 8); [apply Hone; now apply Hescape|].
    destruct (N.eqb c 9); [apply Hone; now apply Hescape|].
    destruct (N.eqb c 10); [apply Hone; now apply Hescape|].
    destruct (N.eqb c 12); [apply Hone; now apply Hescape|].
    destruct (N.eqb c 13); [apply Hone; now apply Hescape|].
    destruct (N.eqb c 34) eqn:E34; [apply Hone; exact Hquote|].
    destruct (N.eqb c 92); [apply Hone; now apply Hescape|].
    destruct (N.ltb c 32);
      [apply Hone; apply quotesGuarded_plain, unicodeEscape_quote|].
    assert (Hc : forall before behind, quotesGuarded before [c] behind = true).
    { intros before behind. cbn [quotesGuarded]. now rewrite E34. }
    destruct (isHighSurrogate c).
    + destruct s as [|d s'].
      * apply quotesGuarded_plain, unicodeEscape_quote.
      * destruct (isLowSurrogate d) eqn:Ed.
        -- intros before behind.
           change (c :: d :: quoteBody s') with ([c; d] ++ quoteBody s').
           rewrite quotesGuarded_app.
           rewrite (IH s') by (simpl in Hlen; lia).
           rewrite andb_true_r. cbn [quotesGuarded]. rewrite E34.
           assert (Hd : N.eqb d 34 = false).
           { apply N.eqb_neq. intros ->. discriminate Ed. }
           now rewrite Hd.
        -- apply Hone. apply quotesGuarded_plain, unicodeEscape_quote.
    + destruct (isLowSurrogate c).
      * apply Hone. apply quotesGuarded_plain, unicodeEscape_quote.
      * exact (Hone [c] Hc).
Qed.

(** A quoted string after a space and before a colon, a comma or a line
    feed. *)
Lemma quotesGuarded_quoteJSONString (s : str) (before behind : code) :
  opensQuote before = true -> closesQuote behind = true ->
  quotesGuarded before (quoteJSONString s) behind = true.
Proof.
  intros Hb Hn. unfold quoteJSONString. change (q "'") with [34%N].
  rewrite quotesGuarded_app. cbn [quotesGuarded]. rewrite Hb.
  cbn [negb orb andb last]. rewrite quotesGuarded_app.
  rewrite (quotesGuarded_quoteBody (length s)) by lia.
  cbn [quotesGuarded hd andb]. rewrite Hn. now rewrite !orb_true_r.
Qed.

Lemma last_two_spaces (a : str) (d : code) : last (a ++ lit "  ") d = 32%N.
Proof.
  change (lit "  ") with ([32%N] ++ [32%N]). rewrite app_assoc. apply last_last.
Qed.

Lemma existsb_quote_app (a b : str) :
  existsb (N.eqb 34) a = false -> existsb (N.eqb 34) b = false ->
  existsb (N.eqb 34) (a ++ b) = false.
Proof. intros Ha Hb. now rewrite existsb_app, Ha, Hb. Qed.

(** The items of an array or of an object, each behind the indentation,
    with a comma or the closing line behind it. *)
Lemma quotesGuarded_join (A : Type) (item : A -> str) (indent tail' : str)
    (behind : code) :
  existsb (N.eqb 34) indent = false ->
  existsb (N.eqb 34) tail' = false ->
  forall xs : list A,
    Forall (fun x => forall before behind',
                opensQuote before = true -> closesQuote behind' = true ->
                quotesGuarded before (item x) behind' = true) xs ->
    quotesGuarded 32
      (join (lit "," ++ nl ++ indent ++ lit "  ") (map item xs) ++ nl ++ tail')
      behind = true.
Proof.
  intros Hindent Htail xs H.
  induction H as [|x xs Hx Hxs IH].
  - apply quotesGuarded_plain. exact Htail.
  - destruct xs as [|x' xs].
    + cbn [map join]. rewrite quotesGuarded_app.
      rewrite Hx by reflexivity.
      apply quotesGuarded_plain. cbn [existsb app nl]. exact Htail.
    + change (join (lit "," ++ nl ++ indent ++ lit "  ") (map item (x :: x' :: xs)))
        with (item x ++ (lit "," ++ nl ++ indent ++ lit "  ") ++
              join (lit "," ++ nl ++ indent ++ lit "  ") (map item (x' :: xs))).
      rewrite <- !app_assoc. rewrite quotesGuarded_app.
      rewrite Hx by reflexivity. cbn [andb].
      rewrite (app_assoc (lit ",")), (app_assoc (lit "," ++ nl)),
        (app_assoc ((lit "," ++ nl) ++ indent)).
      rewrite quotesGuarded_app, last_two_spaces.
      rewrite quotesGuarded_plain
        by (apply existsb_quote_app; [|reflexivity];
            apply existsb_quote_app; [reflexivity | exact Hindent]).
      exact IH.
Qed.

(** Every quotation mark of a serialization opens a string behind a
    space, closes one before a colon, a comma or a line feed, or has a
    backslash before it. *)
Lemma stringify_guarded (v : json) : guardedValue v.
Proof.
  induction v as [s|vs IH|kvs IH] using json_nested_ind;
    intros indent before behind Hindent Hb Hn.
  - now apply quotesGuarded_quoteJSONString.
  - destruct vs as [|v0 vs0]; [reflexivity|].
    set (vs := v0 :: vs0) in *.
    change (stringify indent (JArr vs)) with
      (lit "[" ++ nl ++ (indent ++ lit "  ") ++
       join (lit "," ++ nl ++ indent ++ lit "  ")
            (map (stringify (indent ++ lit "  ")) vs) ++
       nl ++ indent ++ lit "]").
    rewrite (app_assoc (lit "[")), (app_assoc (lit "[" ++ nl)), <- !app_assoc.
    rewrite (app_assoc (lit "[")), (app_assoc (lit "[" ++ nl)),
      (app_assoc ((lit "[" ++ nl) ++ indent)).
    rewrite quotesGuarded_app, last_two_spaces.
    rewrite quotesGuarded_plain
      by (apply existsb_quote_app; [|reflexivity];
          apply existsb_quote_app; [reflexivity | exact Hindent]).
    apply quotesGuarded_join.
    + exact Hindent.
    + apply existsb_quote_app; [exact Hindent | reflexivity].
    + apply Forall_forall. intros x Hx before' behind' Hb' Hn'.
      rewrite Forall_forall in IH. apply (IH x Hx); [|exact Hb' | exact Hn'].
      apply existsb_quote_app; [exact Hindent | reflexivity].
  - destruct kvs as [|kv0 kvs0]; [reflexivity|].
    set (kvs := kv0 :: kvs0) in *.
    set (item := fun kv : str * json =>
                   match kv with
                   | (k, x) => quoteJSONString k ++ lit ": " ++
                               stringify (indent ++ lit "  ") x
                   end).
    change (stringify indent (JObj kvs)) with
      (lit "{" ++ nl ++ (indent ++ lit "  ") ++
       join (lit "," ++ nl ++ indent ++ lit "  ") (map item kvs) ++
       nl ++ indent ++ lit "}").
    rewrite (app_assoc (lit "{")), (app_assoc (lit "{" ++ nl)), <- !app_assoc.
    rewrite (app_assoc (lit "{")), (app_assoc (lit "{" ++ nl)),
      (app_assoc ((lit "{" ++ nl) ++ indent)).
    rewrite quotesGuarded_app, last_two_spaces.
    rewrite quotesGuarded_plain
      by (apply existsb_quote_app; [|reflexivity];
          apply existsb_quote_app; [reflexivity | exact Hindent]).
    apply quotesGuarded_join.
    + exact Hindent.
    + apply existsb_quote_app; [exact Hindent | reflexivity].
    + apply Forall_forall. intros [k x] Hkx before' behind' Hb' Hn'.
      rewrite Forall_forall in IH. specialize (IH (k, x) Hkx). cbn [snd] in IH.
      unfold item. rewrite quotesGuarded_app.
      rewrite quotesGuarded_quoteJSONString by (exact Hb' || reflexivity).
      cbn [andb]. rewrite quotesGuarded_app.
      rewrite (quotesGuarded_plain (lit ": ")) by reflexivity.
      cbn [andb]. apply IH; [|reflexivity | exact Hn'].
      apply existsb_quote_app; [exact Hindent | reflexivity].
Qed.

(** A text whose quotation marks are guarded holds no word in which a
    quotation mark stands between two code units that guard nothing. *)
Lemma guarded_no_occurrence (u v : str) (x y : code) :
  opensQuote x = false -> closesQuote y = false ->
  forall (s : str) (before behind : code),
    quotesGuarded before s behind = true ->
    countOcc (u ++ x :: 34%N :: y :: v) s = 0.
Proof.
  intros Hx Hy. induction s as [|c s IH]; intros before behind H.
  - cbn [countOcc]. destruct u; reflexivity.
  - rewrite countOcc_cons.
    assert (Hs : quotesGuarded c s behind = true).
    { cbn [quotesGuarded] in H. apply andb_true_iff in H. now destruct H. }
    rewrite (IH c behind Hs), Nat.add_0_r.
    destruct (startsWith (c :: s) (u ++ x :: 34%N :: y :: v)) eqn:E;
      [|reflexivity].
    exfalso. apply startsWith_app in E. rewrite E, <- app_assoc in H.
    rewrite quotesGuarded_app in H. apply andb_true_iff in H.
    destruct H as [_ H]. cbn [app quotesGuarded hd] in H.
    apply andb_true_iff in H. destruct H as [_ H].
    apply andb_true_iff in H. destruct H as [H _].
    rewrite Hx, Hy in H. discriminate H.
Qed.

(** ** Replacement text that is put as it is *)

Lemma getSubstitution_patternFree (matched before after template : str) :
  patternFree template = true ->
  getSubstitution matched before after template = template.
Proof.
  unfold patternFree. induction template as [|c t IH]; intros H; [reflexivity|].
  cbn [noPattern] in H. apply andb_true_iff in H. destruct H as [Hc Ht].
  cbn [getSubstitution]. destruct (N.eqb c 36) eqn:Ec.
  - destruct t as [|d t']; [reflexivity|].
    cbn [hd andb] in Hc. apply negb_true_iff in Hc.
    unfold isPatternMark in Hc. apply orb_false_iff in Hc.
    destruct Hc as [Hc H39]. apply orb_false_iff in Hc.
    destruct Hc as [Hc H96]. apply orb_false_iff in Hc.
    destruct Hc as [H36 H38]. rewrite H36, H38, H96, H39.
    f_equal. now apply IH.
  - f_equal. now apply IH.
Qed.

Lemma replaceStr_patternFree (w block s : str) :
  patternFree (block ++ w) = true ->
  replaceStr w (block ++ w) s = insertBefore w block s.
Proof.
  intros H. unfold replaceStr, insertBefore.
  destruct (splitOn w s) as [[a b]|]; [|reflexivity].
  rewrite (getSubstitution_patternFree _ _ _ _ H). now rewrite <- app_assoc.
Qed.

Lemma noPattern_app (a b : str) (behind : code) :
  noPattern (a ++ b) behind = noPattern a (hd behind b) && noPattern b behind.
Proof.
  induction a as [|c a IH]; [reflexivity|].
  cbn [app noPattern]. rewrite IH.
  replace (hd behind (a ++ b)) with (hd (hd behind b) a) by (now destruct a).
  now rewrite andb_assoc.
Qed.

(** A text without a dollar sign. *)
Lemma noPattern_plain (s : str) (behind : code) :
  existsb (N.eqb 36) s = false -> noPattern s behind = true.
Proof.
  induction s as [|c s IH]; intros H; [reflexivity|].
  cbn [existsb] in H. apply orb_false_iff in H. destruct H as [Hc Hs].
  cbn [noPattern]. rewrite (N.eqb_sym c 36), Hc. now apply IH.
Qed.

(** What stands behind a text without patterns matters only when it makes
    a pattern. *)
Lemma noPattern_behind (s : str) (behind : code) :
  patternFree s = true -> isPatternMark behind = false ->
  noPattern s behind = true.
Proof.
  unfold patternFree. intros H Hn. induction s as [|c s IH]; [reflexivity|].
  cbn [noPattern] in H |- *. apply andb_true_iff in H. destruct H as [Hc Hs].
  rewrite (IH Hs), andb_true_r.
  destruct s as [|d s']; [|exact Hc].
  cbn [hd]. rewrite Hn. now rewrite andb_false_r.
Qed.

Lemma patternFree_tail (c : code) (s : str) :
  patternFree (c :: s) = true -> patternFree s = true.
Proof.
  unfold patternFree. cbn [noPattern]. intros H.
  apply andb_true_iff in H. now destruct H.
Qed.

Lemma surrogate_no_dollar (c : code) :
  isHighSurrogate c = true \/ isLowSurrogate c = true -> N.eqb c 36 = false.
Proof.
  intros H. destruct (surrogate_range c H) as [_ [_ [H32 _]]].
  apply N.eqb_neq. intros ->.
  unfold isHighSurrogate, isLowSurrogate, inRange in H.
  destruct H as [H|H]; discriminate H.
Qed.

Lemma unicodeEscape_no_dollar (c : code) :
  existsb (N.eqb 36) (unicodeEscape c) = false.
Proof. apply existsb_not_In. apply unicodeEscape_dollar. Qed.

(** The body of a quoted string starts with a backslash or with the first
    code unit of the text. *)
Lemma quoteBody_head (s : str) (behind : code) :
  hd behind (quoteBody s) = 92%N \/ hd behind (quoteBody s) = hd behind s.
Proof.
  destruct s as [|c s]; [now right|]. cbn [quoteBody].
  repeat match goal with
  | |- context [if ?b then _ else _] => destruct b; try (now left); try (now right)
  end.
  destruct s as [|d s]; [now left|].
  destruct (isLowSurrogate d); [now right | now left].
Qed.

(** Quoting makes no replacement pattern. *)
Lemma noPattern_quoteBody (len : nat) :
  forall s, length s <= len -> patternFree s = true ->
    forall behind, isPatternMark behind = false ->
      noPattern (quoteBody s) behind = true.
Proof.
  induction len as [|len IH]; intros s Hlen H behind Hn.
  - destruct s; [reflexivity | simpl in Hlen; lia].
  - destruct s as [|c s]; [reflexivity|]. cbn [quoteBody].
    pose proof (patternFree_tail c s H) as Hs.
    assert (Hrest : noPattern (quoteBody s) behind = true)
      by (apply IH; [simpl in Hlen; lia | exact Hs | exact Hn]).
    assert (Hone : forall piece, existsb (N.eqb 36) piece = false ->
                     noPattern (piece ++ quoteBody s) behind = true).
    { intros piece Hp. rewrite noPattern_app, Hrest.
      now rewrite (noPattern_plain piece _ Hp). }
    destruct (N.eqb c 8); [now apply Hone|].
    destruct (N.eqb c 9); [now apply Hone|].
    destruct (N.eqb c 10); [now apply Hone|].
    destruct (N.eqb c 12); [now apply Hone|].
    destruct (N.eqb c 13); [now apply Hone|].
    destruct (N.eqb c 34); [now apply Hone|].
    destruct (N.eqb c 92); [now apply Hone|].
    destruct (N.ltb c 32); [apply Hone, unicodeEscape_no_dollar|].
    destruct (isHighSurrogate c) eqn:Ehigh.
    + destruct s as [|d s'].
      * apply noPattern_plain, unicodeEscape_no_dollar.
      * destruct (isLowSurrogate d) eqn:Elow.
        -- cbn [noPattern].
           rewrite (surrogate_no_dollar c (or_introl Ehigh)).
           rewrite (surrogate_no_dollar d (or_intror Elow)).
           cbn [andb negb]. apply IH; [simpl in Hlen; lia | | exact Hn].
           now apply (patternFree_tail d).
        -- apply Hone, unicodeEscape_no_dollar.
    + destruct (isLowSurrogate c); [apply Hone, unicodeEscape_no_dollar|].
      cbn [noPattern]. rewrite Hrest, andb_true_r.
      destruct (N.eqb c 36) eqn:Ec; [|reflexivity].
      cbn [andb]. apply negb_true_iff.
      unfold patternFree in H. cbn [noPattern] in H. rewrite Ec in H.
      apply andb_true_iff in H. destruct H as [Hmark _].
      cbn [andb] in Hmark. apply negb_true_iff in Hmark.
      destruct (quoteBody_head s behind) as [-> | ->]; [reflexivity|].
      destruct s as [|d s']; [exact Hn | exact Hmark].
Qed.

Lemma noPattern_quoteJSONString (s : str) (behind : code) :
  patternFree s = true -> isPatternMark behind = false ->
  noPattern (quoteJSONString s) behind = true.
Proof.
  intros H Hn. unfold quoteJSONString. change (q "'") with [34%N].
  cbn [app noPattern]. cbn [N.eqb Pos.eqb andb negb].
  rewrite noPattern_app.
  rewrite (noPattern_quoteBody (length s) s (Nat.le_refl _) H) by reflexivity.
  reflexivity.
Qed.

Lemma existsb_dollar_app (a b : str) :
  existsb (N.eqb 36) a = false -> existsb (N.eqb 36) b = false ->
  existsb (N.eqb 36) (a ++ b) = false.
Proof. intros Ha Hb. now rewrite existsb_app, Ha, Hb. Qed.

(** The items of an array or of an object, with a comma or the closing
    line behind each. *)
Lemma noPattern_join (A : Type) (item : A -> str) (sep' tail' : str)
    (behind : code) :
  existsb (N.eqb 36) sep' = false ->
  existsb (N.eqb 36) tail' = false ->
  forall xs : list A,
    Forall (fun x => forall behind',
                isPatternMark behind' = false ->
                noPattern (item x) behind' = true) xs ->
    noPattern (join (lit "," ++ sep') (map item xs) ++ nl ++ tail') behind = true.
Proof.
  intros Hsep Htail xs H.
  induction H as [|x xs Hx Hxs IH].
  - now apply noPattern_plain.
  - destruct xs as [|x' xs].
    + cbn [map join]. rewrite noPattern_app.
      rewrite Hx by reflexivity. now apply noPattern_plain.
    + change (join (lit "," ++ sep') (map item (x :: x' :: xs)))
        with (item x ++ (lit "," ++ sep') ++
              join (lit "," ++ sep') (map item (x' :: xs))).
      rewrite <- !app_assoc. rewrite noPattern_app.
      rewrite Hx by reflexivity. cbn [andb].
      rewrite (app_assoc (lit ",")), noPattern_app.
      rewrite (noPattern_plain (lit "," ++ sep')) by exact Hsep.
      exact IH.
Qed.

(** A serialization holds a replacement pattern only where a string of
    the value holds one. *)
Lemma stringify_patternFree (v : json) :
  (forall t, In t (jsonTexts v) -> patternFree t = true) -> patternFreeValue v.
Proof.
  induction v as [s|vs IH|kvs IH] using json_nested_ind;
    intros Htexts indent behind Hindent Hn.
  - apply noPattern_quoteJSONString; [|exact Hn]. apply Htexts. now left.
  - destruct vs as [|v0 vs0]; [reflexivity|].
    set (vs := v0 :: vs0) in *.
    change (stringify indent (JArr vs)) with
      (lit "[" ++ nl ++ (indent ++ lit "  ") ++
       join (lit "," ++ nl ++ indent ++ lit "  ")
            (map (stringify (indent ++ lit "  ")) vs) ++
       nl ++ indent ++ lit "]").
    rewrite (app_assoc (lit "[")), (app_assoc (lit "[" ++ nl)), <- !app_assoc.
    rewrite (app_assoc (lit "[")), (app_assoc (lit "[" ++ nl)),
      (app_assoc ((lit "[" ++ nl) ++ indent)).
    rewrite noPattern_app.
    rewrite noPattern_plain
      by (apply existsb_dollar_app; [|reflexivity];
          apply existsb_dollar_app; [reflexivity | exact Hindent]).
    apply (noPattern_join json (stringify (indent ++ lit "  "))
             (nl ++ indent ++ lit "  ")).
    + apply existsb_dollar_app; [reflexivity|].
      apply existsb_dollar_app; [exact Hindent | reflexivity].
    + apply existsb_dollar_app; [exact Hindent | reflexivity].
    + apply Forall_forall. intros x Hx behind' Hn'.
      rewrite Forall_forall in IH. apply (IH x Hx); [| |exact Hn'].
      * intros t Ht. apply Htexts. cbn [jsonTexts]. apply in_flat_map.
        now exists x.
      * apply existsb_dollar_app; [exact Hindent | reflexivity].
  - destruct kvs as [|kv0 kvs0]; [reflexivity|].
    set (kvs := kv0 :: kvs0) in *.
    set (item := fun kv : str * json =>
                   match kv with
                   | (k, x) => quoteJSONString k ++ lit ": " ++
                               stringify (indent ++ lit "  ") x
                   end).
    change (stringify indent (JObj kvs)) with
      (lit "{" ++ nl ++ (indent ++ lit "  ") ++
       join (lit "," ++ nl ++ indent ++ lit "  ") (map item kvs) ++
       nl ++ indent ++ lit "}").
    rewrite (app_assoc (lit "{")), (app_assoc (lit "{" ++ nl)), <- !app_assoc.
    rewrite (app_assoc (lit "{")), (app_assoc (lit "{" ++ nl)),
      (app_assoc ((lit "{" ++ nl) ++ indent)).
    rewrite noPattern_app.
    rewrite noPattern_plain
      by (apply existsb_dollar_app; [|reflexivity];
          apply existsb_dollar_app; [reflexivity | exact Hindent]).
    apply (noPattern_join (str * json) item (nl ++ indent ++ lit "  ")).
    + apply existsb_dollar_app; [reflexivity|].
      apply existsb_dollar_app; [exact Hindent | reflexivity].
    + apply existsb_dollar_app; [exact Hindent | reflexivity].
    + apply Forall_forall. intros [k x] Hkx behind' Hn'.
      rewrite Forall_forall in IH. specialize (IH (k, x) Hkx). cbn [snd] in IH.
      unfold item. rewrite noPattern_app.
      rewrite noPattern_quoteJSONString; [|
        apply Htexts; cbn [jsonTexts]; apply in_flat_map; exists (k, x);
        split; [exact Hkx | now left] | reflexivity].
      cbn [andb]. rewrite noPattern_app.
      rewrite (noPattern_plain (lit ": ")) by reflexivity.
      cbn [andb]. apply IH; [| |exact Hn'].
      * intros t Ht. apply Htexts. cbn [jsonTexts]. apply in_flat_map.
        exists (k, x). split; [exact Hkx | now right].
      * apply existsb_dollar_app; [exact Hindent | reflexivity].
Qed.

Lemma pairsPatternFree_In (qaPairs : list QA.t) (qa : QA.t) :
  pairsPatternFree qaPairs = true -> In qa qaPairs ->
  patternFree (QA.question qa) = true /\ patternFree (QA.answer qa) = true.
Proof.
  unfold pairsPatternFree. intros H Hqa.
  rewrite forallb_forall in H. specialize (H qa Hqa).
  now apply andb_true_iff in H.
Qed.

(** The structured data holds no replacement pattern when the pairs hold
    none. *)
Lemma buildFaqSchema_patternFree (qaPairs : list QA.t) (url : str)
    (behind : code) :
  pairsPatternFree qaPairs = true -> isPatternMark behind = false ->
  noPattern (buildFaqSchema qaPairs url) behind = true.
Proof.
  intros H Hn. unfold buildFaqSchema.
  apply stringify_patternFree; [|reflexivity | exact Hn].
  intros t Ht. cbn [jsonTexts flat_map fst snd app] in Ht.
  repeat (destruct Ht as [<-|Ht]; [reflexivity|]).
  rewrite app_nil_r in Ht. apply in_flat_map in Ht.
  destruct Ht as [v [Hv Ht]]. apply in_map_iff in Hv.
  destruct Hv as [qa [<- Hqa]].
  destruct (pairsPatternFree_In qaPairs qa H Hqa) as [Hq Hans].
  cbn [jsonTexts flat_map fst snd app] in Ht.
  repeat (destruct Ht as [<-|Ht]; [first [reflexivity | exact Hq | exact Hans]|]).
  destruct Ht.
Qed.

Lemma faqItems_patternFree (qaPairs : list QA.t) (tail' : str) (behind : code) :
  pairsPatternFree qaPairs = true ->
  existsb (N.eqb 36) tail' = false ->
  noPattern (concat (map faqItem qaPairs) ++ nl ++ tail') behind = true.
Proof.
  intros H Htail. induction qaPairs as [|qa qaPairs IH].
  - now apply noPattern_plain.
  - destruct (pairsPatternFree_In _ qa H (or_introl eq_refl)) as [Hq Hans].
    cbn [map concat].
    change (faqItem qa) with
      (itemHead ++ QA.question qa ++ itemMiddle ++ QA.answer qa ++ itemTail).
    rewrite <- !app_assoc.
    rewrite noPattern_app, (noPattern_plain itemHead) by reflexivity.
    rewrite noPattern_app, (noPattern_behind (QA.question qa)) by
      (exact Hq || reflexivity).
    rewrite noPattern_app, (noPattern_plain itemMiddle) by reflexivity.
    rewrite noPattern_app, (noPattern_behind (QA.answer qa)) by
      (exact Hans || reflexivity).
    rewrite noPattern_app, (noPattern_plain itemTail) by reflexivity.
    apply IH. unfold pairsPatternFree in *. cbn [forallb] in H.
    apply andb_true_iff in H. now destruct H.
Qed.

(** The FAQ block holds no replacement pattern when the pairs hold none. *)
Lemma buildFaqHtml_patternFree (qaPairs : list QA.t) (behind : code) :
  pairsPatternFree qaPairs = true ->
  noPattern (buildFaqHtml qaPairs) behind = true.
Proof.
  intros H.
  replace (buildFaqHtml qaPairs)
    with (blockHead ++ concat (map faqItem qaPairs) ++ nl ++ lit "      </section>")
    by (unfold buildFaqHtml, blockHead; now rewrite <- !app_assoc).
  rewrite noPattern_app, (noPattern_plain blockHead) by reflexivity.
  now apply faqItems_patternFree.
Qed.

(** ** Counting tags in the output *)

Lemma splitOn_none_countOcc (w s : str) : splitOn w s = None -> countOcc w s = 0.
Proof.
  induction s as [|c s IH]; rewrite splitOn_eq; cbn [countOcc].
  - destruct (startsWith [] w); [discriminate | reflexivity].
  - destruct (startsWith (c :: s) w); [discriminate|].
    destruct (splitOn w s) as [[a b]|]; [discriminate|].
    intros _. now rewrite IH.
Qed.

Lemma deadOn_last_lit (w : str) (s : str) :
  countOcc w s = 0 -> deadOn false (Lit w) s.
Proof.
  intros Hc st [x Hx]. cbn [rmatch].
  rewrite matchLit_spec, litAt_false_startsWith.
  destruct (startsWith (rest st) w) eqn:E; [|reflexivity].
  exfalso. subst s. clear -Hc E. induction x as [|c x IH].
  - simpl in Hc. destruct (rest st); simpl in Hc; rewrite E in Hc; discriminate.
  - apply IH. cbn [app countOcc] in Hc. lia.
Qed.

(** A page with an article holds [</article>]. *)
Lemma article_is_closed (html articleContent : str) :
  articleOf html = Some articleContent ->
  exists a b, splitOn (lit "</article>") html = Some (a, b).
Proof.
  intros Ha. destruct (splitOn (lit "</article>") html) as [[a b]|] eqn:E;
    [now exists a, b|].
  exfalso. apply splitOn_none_countOcc in E.
  assert (Hd : deadOn false re_article html).
  { unfold re_article. do 4 apply deadOn_seq. now apply deadOn_last_lit. }
  assert (Hn : regexMatch false re_article html = None).
  { unfold regexMatch. apply searchFrom_none. intros pre t Et.
    unfold matchAt. rewrite Hd; [reflexivity | now exists pre]. }
  unfold articleOf in Ha. rewrite Hn in Ha. discriminate Ha.
Qed.

Lemma startsWith_no_gt (u : str) :
  forall t z, existsb (N.eqb 62) z = false ->
    startsWith (t ++ z) (u ++ [62%N]) = startsWith t (u ++ [62%N]).
Proof.
  induction u as [|x u IH]; intros t z Hz.
  - destruct t as [|c t]; [|reflexivity]. cbn [app startsWith].
    destruct z as [|d z]; [reflexivity|]. cbn [existsb] in Hz.
    apply orb_false_iff in Hz. destruct Hz as [Hd _]. now rewrite Hd.
  - destruct t as [|c t]; cbn [app startsWith].
    + destruct z as [|d z]; [reflexivity|]. cbn [existsb] in Hz.
      apply orb_false_iff in Hz. destruct Hz as [_ Hz].
      pose proof (IH [] z Hz) as K. cbn [app] in K. rewrite K.
      destruct u; apply andb_false_r.
    + now rewrite (IH t z Hz).
Qed.

Section TagsOfTheOutput.

Variable body : str.
Hypothesis body_lt : existsb (N.eqb 60) body = false.
Hypothesis body_gt : existsb (N.eqb 62) body = false.
Hypothesis body_nl : existsb (N.eqb 10) body = false.
Hypothesis body_not_empty : body <> [].

(** Text without [>] behind a text adds no occurrence of the tag. *)
Lemma countOcc_no_gt_behind (a z : str) :
  existsb (N.eqb 62) z = false ->
  countOcc (tag body) (a ++ z) = countOcc (tag body) a.
Proof.
  intros Hz.
  assert (K : forall t z', existsb (N.eqb 62) z' = false ->
                startsWith (t ++ z') (tag body) = startsWith t (tag body))
    by (intros t z'; apply (startsWith_no_gt (60%N :: body))).
  assert (Hnone : forall z', existsb (N.eqb 62) z' = false ->
                    countOcc (tag body) z' = 0).
  { induction z' as [|d z' IH]; intros Hz'; [reflexivity|].
    rewrite countOcc_cons.
    pose proof (K [] (d :: z') Hz') as Kd. cbn [app] in Kd. rewrite Kd.
    cbn [existsb] in Hz'. apply orb_false_iff in Hz'. destruct Hz' as [_ Hz'].
    now rewrite (IH Hz'). }
  induction a as [|c a IH].
  - cbn [app]. now rewrite Hnone.
  - cbn [app]. rewrite !(countOcc_cons (tag body) c), IH.
    pose proof (K (c :: a) z Hz) as Kc. cbn [app] in Kc. now rewrite Kc.
Qed.

(** Text without [<] before a text adds none either. *)
Lemma countOcc_no_lt_before (a b : str) :
  existsb (N.eqb 60) a = false ->
  countOcc (tag body) (a ++ b) = countOcc (tag body) b.
Proof.
  induction a as [|c a IH]; intros Ha; [reflexivity|].
  cbn [existsb] in Ha. apply orb_false_iff in Ha. destruct Ha as [Hc Ha].
  cbn [app]. rewrite countOcc_cons, (IH Ha). unfold tag. cbn [startsWith].
  now rewrite Hc.
Qed.

(** The page with the FAQ block in it: the occurrences of the page and
    those of the block. *)
Lemma countOcc_with_block (qaPairs : list QA.t) (page a b : str) :
  splitOn (lit "</article>") page = Some (a, b) ->
  countOcc (tag body)
    (insertBefore (lit "</article>") (buildFaqHtml qaPairs ++ nl ++ lit "      ")
                  page) =
  countOcc (tag body) page + countOcc (tag body) (buildFaqHtml qaPairs).
Proof.
  intros E. unfold insertBefore. rewrite E. apply splitOn_spec in E. subst page.
  assert (Hshape : exists b0 b1, buildFaqHtml qaPairs = 10%N :: b0 /\
                                 buildFaqHtml qaPairs = b1 ++ [62%N]).
  { exists (tl (buildFaqHtml qaPairs)).
    exists (nl ++ q "      <section class='faq-section'>" ++
            nl ++ lit "        <h2>Frequently Asked Questions</h2>" ++
            nl ++ lit "        " ++ concat (map faqItem qaPairs) ++
            nl ++ lit "      </section").
    split; [reflexivity|]. unfold buildFaqHtml.
    change (lit "      </section>") with (lit "      </section" ++ [62%N]).
    now rewrite <- !app_assoc. }
  destruct Hshape as [b0 [b1 [E0 E1]]].
  assert (Hnl : existsb (N.eqb 10) (tag body) = false).
  { unfold tag. cbn [existsb]. rewrite existsb_app, body_nl. reflexivity. }
  rewrite (countOcc_before_lt body body_lt a (lit "</article>" ++ b)
             (lit "/article>" ++ b) eq_refl).
  rewrite <- app_assoc.
  set (after := (nl ++ lit "      ") ++ lit "</article>" ++ b).
  replace (a ++ buildFaqHtml qaPairs ++ after) with (a ++ 10%N :: b0 ++ after)
    by (now rewrite E0).
  rewrite (countOcc_before_foreign 10%N (tag body) a _ Hnl ltac:(discriminate)).
  replace (10%N :: b0 ++ after) with (buildFaqHtml qaPairs ++ after)
    by (now rewrite E0).
  rewrite (countOcc_after_gt body body_gt b1 (buildFaqHtml qaPairs) after E1).
  unfold after. rewrite (countOcc_no_lt_before (nl ++ lit "      ")) by reflexivity.
  lia.
Qed.

End TagsOfTheOutput.

(** A tag in which a quotation mark stands between two code units that
    guard nothing, as in [class="faq-item"]. *)
Section TagWithQuote.

Variables body u v : str.
Variables x y : code.
Hypothesis body_lt : existsb (N.eqb 60) body = false.
Hypothesis body_gt : existsb (N.eqb 62) body = false.
Hypothesis shape : tag body = u ++ x :: 34%N :: y :: v.
Hypothesis x_opens_nothing : opensQuote x = false.
Hypothesis y_closes_nothing : closesQuote y = false.

(** The serialization between the lines of the script element holds no
    such tag, whatever the texts of the value. *)
Lemma countOcc_schema_lines (value : json) :
  countOcc (tag body)
    (nl ++ lit "  " ++ stringify [] value ++ nl ++ lit "  ") = 0.
Proof.
  rewrite shape.
  apply (guarded_no_occurrence u v x y x_opens_nothing y_closes_nothing _ 0%N 0%N).
  rewrite (app_assoc nl), quotesGuarded_app, last_two_spaces.
  rewrite (quotesGuarded_plain (nl ++ lit "  ")) by reflexivity.
  rewrite quotesGuarded_app.
  rewrite (stringify_guarded value [] 32%N (hd 0%N (nl ++ lit "  "))
             eq_refl eq_refl eq_refl).
  now apply quotesGuarded_plain.
Qed.

(** The page with the script element in it: the occurrences of the page
    and those of the two tags of the element. *)
Lemma countOcc_with_schema (value : json) (withBlock a b : str) :
  splitOn (lit "</head>") withBlock = Some (a, b) ->
  countOcc (tag body)
    (insertBefore (lit "</head>")
       (q "  <script type='application/ld+json'>" ++ nl ++ lit "  " ++
        stringify [] value ++ nl ++ lit "  </script>" ++ nl)
       withBlock) =
  countOcc (tag body) withBlock +
  countOcc (tag body) (q "<script type='application/ld+json'>") +
  countOcc (tag body) (lit "</script>").
Proof.
  intros E. unfold insertBefore. rewrite E. apply splitOn_spec in E.
  subst withBlock.
  set (opening := q "<script type='application/ld+json'>").
  set (closing := lit "</script>").
  set (lines := nl ++ lit "  " ++ stringify [] value ++ nl ++ lit "  ").
  set (head := lit "</head>" ++ b).
  replace (a ++ (q "  <script type='application/ld+json'>" ++ nl ++ lit "  " ++
                 stringify [] value ++ nl ++ lit "  </script>" ++ nl) ++ head)
    with ((a ++ lit "  ") ++ opening ++ lines ++ closing ++ nl ++ head).
  2:{ unfold lines, opening, closing.
      change (q "  <script type='application/ld+json'>")
        with (lit "  " ++ q "<script type='application/ld+json'>").
      change (lit "  </script>") with (lit "  " ++ lit "</script>").
      now rewrite <- !app_assoc. }
  rewrite (countOcc_before_lt body body_lt (a ++ lit "  ")
             (opening ++ lines ++ closing ++ nl ++ head)
             (tl opening ++ lines ++ closing ++ nl ++ head) eq_refl).
  rewrite (countOcc_no_gt_behind body a (lit "  ") eq_refl).
  rewrite (countOcc_after_gt body body_gt (removelast opening) opening
             (lines ++ closing ++ nl ++ head) eq_refl).
  rewrite (countOcc_before_lt body body_lt lines (closing ++ nl ++ head)
             (tl closing ++ nl ++ head) eq_refl).
  unfold lines at 1. rewrite countOcc_schema_lines.
  rewrite (countOcc_after_gt body body_gt (removelast closing) closing
             (nl ++ head) eq_refl).
  rewrite (countOcc_no_lt_before body nl head eq_refl).
  rewrite (countOcc_before_lt body body_lt a head (lit "/head>" ++ b) eq_refl).
  lia.
Qed.

End TagWithQuote.

(** ** How many pairs the output holds *)

Lemma countOcc_positive_splitOn (w s : str) :
  0 < countOcc w s -> exists a b, splitOn w s = Some (a, b).
Proof.
  intros H. destruct (splitOn w s) as [[a b]|] eqn:E; [now exists a, b|].
  apply splitOn_none_countOcc in E. lia.
Qed.



(** Why the theorem asks for pairs without replacement patterns: [$'] in
    an answer stands, in the replacement text of the second [replace], for
    the page behind [</head>], and with it the FAQ block comes a second
    time.  Three pairs, six items. *)
Example dollar_multiplies_the_items :
  let page :=
    lit "<html><head><title>Creatine</title></head><body><article>" ++
    lit "<h2>Cost</h2><p>One serving costs about $' per day in most shops.</p>" ++
    lit "<h2>Kidney Function</h2><p>Creatinine rises without kidney damage.</p>" ++
    lit "<h2>How Creatine Works</h2><p>It buffers ATP through phosphocreatine.</p>" ++
    lit "</article></body></html>" in
  let out := Out.html (injectFaq page (lit "dosing") (lit "cost")) in
  option_map (fun a => length (toQaPairs (extractH2Sections a) (lit "dosing")))
             (articleOf (stripExistingFaq page)) = Some 3 /\
  countOcc (q "<div class='faq-item'>") out = 6.
Proof. vm_compute. split; reflexivity. Qed.

(** And why it tells the pages with [</head>] from those without: three
    items, and no pair as structured data. *)
Example page_without_head :
  let page :=
    lit "<html><body><article>" ++ threeSections ++
    lit "</article></body></html>" in
  let out := Out.html (injectFaq page (lit "dosing") (lit "loading")) in
  countOcc (q "<div class='faq-item'>") out = 3 /\
  countOcc (q "<script type='application/ld+json'>") out = 0 /\
  countOcc (q "'@type': 'Question'") out = 0.
Proof. vm_compute. repeat split; reflexivity. Qed.
